(** * 3D-earth: the GeoJSON-to-sphere mesh pipeline and the pointer controller

    A shallow embedding of [src/utils/geoDataProcessor.js] and of the
    province assembly, the ray-cast interaction code, the starfield and the
    animation loop of [src/components/EarthScene.vue].

    Conventions.
    - A JavaScript number that takes part in the spherical projection is a
      real number ([R]); rounding to IEEE doubles and to [Float32Array]
      elements is not modelled.  In the starfield, whose bounds depend on it,
      a store into a [Float32Array] applies an explicit rounding function.
    - Style constants (colours, opacity, shininess) are integers and
      rationals; screen coordinates and [Date.now()] readings are integers.
    - A JavaScript exception is the [Throw] outcome of a computation in the
      [js] monad; [console.warn]/[console.error] append to its console log.
    - Objects with identity that the code mutates (mesh materials, the
      [originalMaterials] map) live in an explicit store. *)

From Stdlib Require Import Reals Lra Lia ZArith QArith String List.
From stdpp Require Import base option list gmap strings pretty.

Local Open Scope R_scope.

(** ** Outcomes of JavaScript code that may throw or log *)

Inductive exn : Type :=
| TypeError (msg : string).

Inductive result (A : Type) : Type :=
| Ok (a : A)
| Throw (e : exn).
Arguments Ok {A} a.
Arguments Throw {A} e.

Inductive logEntry : Type :=
| Warn (msg arg : string)
| Error (msg : string) (e : exn).

(** A computation: what it wrote to the console, and how it ended. *)
Definition js (A : Type) : Type := list logEntry * result A.

#[global] Instance js_ret : MRet js := fun A a => ([], Ok a).

#[global] Instance js_bind : MBind js := fun A B k m =>
  match m with
  | (out, Ok a) => let '(out', r) := k a in (out ++ out', r)
  | (out, Throw e) => (out, Throw e)
  end.

Definition throw {A : Type} (e : exn) : js A := ([], Throw e).

Definition console_warn (msg arg : string) : js unit := ([Warn msg arg], Ok tt).

(** Reading an array slot or an object property that the following code
    spreads, destructures or dereferences: [undefined] or [null] there
    raises a [TypeError]. *)
Definition defined {A : Type} (what : string) (o : option A) : js A :=
  match o with
  | Some a => mret a
  | None => throw (TypeError what)
  end.

(** [array.forEach((x, index) => ...)] over a threaded state; an exception
    in the callback ends the loop and propagates. *)
Fixpoint forEach_from {S A : Type} (f : S -> A -> nat -> js S)
    (l : list A) (index : nat) (s : S) : js S :=
  match l with
  | [] => mret s
  | x :: l' => s' ← f s x index; forEach_from f l' (Datatypes.S index) s'
  end.

Definition forEach {S A : Type} (f : S -> A -> nat -> js S) (l : list A) (s : S) : js S :=
  forEach_from f l 0%nat s.

(** ** Property bags *)

Inductive jsval : Type :=
| JUndefined
| JNull
| JBool (b : bool)
| JNum (n : Z)
| JStr (s : string).

Definition truthy (v : jsval) : bool :=
  match v with
  | JUndefined | JNull => false
  | JBool b => b
  | JNum n => negb (n =? 0)%Z
  | JStr s => negb (String.eqb s EmptyString)
  end.

(** A plain object used as a string-keyed bag. *)
Abbreviation jsobject := (gmap string jsval).

(** [obj.key]: an absent key reads as [undefined]. *)
Definition getprop (o : jsobject) (k : string) : jsval :=
  default JUndefined (o !! k).

(** [Object.assign(target, source)]: every own key of [source] overwrites
    the same key of [target]. *)
Definition Object_assign (target source : jsobject) : jsobject :=
  source ∪ target.

(** * geoDataProcessor.js *)

Definition vertex : Type := R * R * R.

(** [lonLatToCartesian(lon, lat, radius = 2)]; an omitted radius is [None]. *)
Definition lonLatToCartesian (lon lat : R) (radius : option R) : vertex :=
  let radius := default 2 radius in
  let phi := (90 - lat) * (PI / 180) in
  let theta := (lon + 180) * (PI / 180) in
  let x := - (sin phi * cos theta) * radius in
  let y := cos phi * radius in
  let z := sin phi * sin theta * radius in
  (x, y, z).
Arguments lonLatToCartesian : simpl never.

(** [...v] for a vertex array [[x, y, z]]. *)
Definition spread (v : vertex) : list R :=
  let '(x, y, z) := v in [x; y; z].

(** A GeoJSON position; only its first two entries are read. *)
Definition coord : Type := R * R.
Definition ring : Type := list coord.
Definition polygon : Type := list ring.

(** [feature.geometry]: its [type] tag decides the shape of [coordinates];
    [OtherGeometry] stands for every tag other than the two that the
    builder supports (its coordinates are never read). *)
Inductive geometry : Type :=
| Polygon (coordinates : polygon)
| MultiPolygon (coordinates : list polygon)
| OtherGeometry (type : string).

Definition geometry_type (g : geometry) : string :=
  match g with
  | Polygon _ => "Polygon"
  | MultiPolygon _ => "MultiPolygon"
  | OtherGeometry type => type
  end.

(** A GeoJSON feature; [geometry] and [properties] may be [null]. *)
Record feature : Type := Feature {
  feature_geometry : option geometry;
  feature_properties : option jsobject;
}.

Inductive side_t : Type := FrontSide | BackSide | DoubleSide.

(** What the code reads and writes of a [THREE.MeshPhongMaterial]. *)
Record material : Type := Material {
  color : Z;
  transparent : bool;
  opacity : Q;
  side : side_t;
  shininess : Z;
  emissive : Z;
}.

(** The [materialOptions] bag: an absent key is [None]. *)
Record materialOptions_t : Type := MaterialOptions {
  mo_color : option Z;
  mo_transparent : option bool;
  mo_opacity : option Q;
  mo_side : option side_t;
  mo_shininess : option Z;
}.

Definition no_materialOptions : materialOptions_t :=
  MaterialOptions None None None None None.

Record options_t : Type := Options {
  opt_radius : option R;
  opt_elevation : option R;
  opt_materialOptions : option materialOptions_t;
}.

Definition no_options : options_t := Options None None None.

(** [new THREE.Mesh(geometry, material)] with its [userData]; [positions]
    is the [position] attribute of the geometry, three numbers per vertex. *)
Record mesh : Type := Mesh {
  positions : list R;
  mesh_material : material;
  userData : jsobject;
}.

(** The two arrays that [createProvinceMeshFromFeature] allocates once per
    call and that every [processPolygon] call of that feature appends to. *)
Record buffers : Type := Buffers {
  geomPositions : list R;
  geom3DVertices : list vertex;
}.

Definition empty_buffers : buffers := Buffers [] [].

(** The locals of one [processPolygon] call together with the shared
    vertex list. *)
Record scan : Type := Scan {
  flat2D : list R;
  holeIndices : list nat;
  scan_vertices : list vertex;
}.

Section Builder.

(** The [earcut] package (an npm dependency, not part of this repository):
    [earcut(data, holeIndices, dim)] returns a flat array of vertex indices,
    three per triangle. *)
Variable earcut : list R -> list nat -> nat -> list nat.

(** The body of [ring.forEach((coord) => ...)]. *)
Definition visitCoord (radius elevation : R) (st : scan) (c : coord) : scan :=
  let '(lon, lat) := c in
  let '(x, y, z) := lonLatToCartesian lon lat (Some (radius + elevation)) in
  {| flat2D := flat2D st ++ [lon; lat];
     holeIndices := holeIndices st;
     scan_vertices := scan_vertices st ++ [(x, y, z)] |}.

(** The body of [rings.forEach((ring, rIndex) => ...)]. *)
Definition visitRing (radius elevation : R) (st : scan) (r : ring) (rIndex : nat) : scan :=
  let st :=
    if (0 <? rIndex)%nat
    then {| flat2D := flat2D st;
            holeIndices := holeIndices st ++ [(length (flat2D st) / 2)%nat];
            scan_vertices := scan_vertices st |}
    else st in
  fold_left (visitCoord radius elevation) r st.

Fixpoint visitRings_from (radius elevation : R) (rings : list ring) (rIndex : nat)
    (st : scan) : scan :=
  match rings with
  | [] => st
  | r :: rings' =>
      visitRings_from radius elevation rings' (S rIndex) (visitRing radius elevation st r rIndex)
  end.

(** The loop [for (let i = 0; i < triangles.length; i += 3)]: the three
    vertices are read from the shared [geom3DVertices] and spread into
    [geomPositions]; spreading [undefined] throws. *)
Fixpoint emitTriangles (geom3DVertices : list vertex) (triangles : list nat)
    (geomPositions : list R) : js (list R) :=
  match triangles with
  | [] => mret geomPositions
  | ia :: ib :: ic :: triangles' =>
      va ← defined "va is not iterable" (geom3DVertices !! ia);
      vb ← defined "vb is not iterable" (geom3DVertices !! ib);
      vc ← defined "vc is not iterable" (geom3DVertices !! ic);
      emitTriangles geom3DVertices triangles'
        (geomPositions ++ spread va ++ spread vb ++ spread vc)
  | _ => throw (TypeError "undefined is not iterable")
  end.

(** [processPolygon(rings)], a closure over [radius], [elevation] and the
    two arrays of the enclosing call. *)
Definition processPolygon (radius elevation : R) (rings : polygon) (b : buffers) : js buffers :=
  let st := visitRings_from radius elevation rings 0
              {| flat2D := []; holeIndices := []; scan_vertices := geom3DVertices b |} in
  let triangles := earcut (flat2D st) (holeIndices st) 2 in
  pos ← emitTriangles (scan_vertices st) triangles (geomPositions b);
  mret {| geomPositions := pos; geom3DVertices := scan_vertices st |}.

Definition defaultMat : material :=
  {| color := 0xff5533; transparent := true; opacity := 0.85; side := DoubleSide;
     shininess := 10; emissive := 0 |}.

(** [new THREE.MeshPhongMaterial(Object.assign(defaultMat, materialOptions))] *)
Definition newMeshPhongMaterial (mo : materialOptions_t) : material :=
  {| color := default (color defaultMat) (mo_color mo);
     transparent := default (transparent defaultMat) (mo_transparent mo);
     opacity := default (opacity defaultMat) (mo_opacity mo);
     side := default (side defaultMat) (mo_side mo);
     shininess := default (shininess defaultMat) (mo_shininess mo);
     emissive := emissive defaultMat |}.

Definition isProvince_flag : jsobject := {[ "isProvince" := JBool true ]}.

(** The geometry dispatch of [createProvinceMeshFromFeature]. *)
Definition fillBuffers (radius elevation : R) (g : geometry) : js buffers :=
  let geomType := geometry_type g in
  match g with
  | Polygon coordinates => processPolygon radius elevation coordinates empty_buffers
  | MultiPolygon coordinates =>
      forEach (fun b p _ => processPolygon radius elevation p b) coordinates empty_buffers
  | OtherGeometry _ =>
      _ ← console_warn "Unsupported geometry type for province:" geomType;
      mret empty_buffers
  end.

(** [createProvinceMeshFromFeature(feature, options = {})]; [None] is the
    returned [null]. *)
Definition createProvinceMeshFromFeature (f : feature) (options : options_t)
    : js (option mesh) :=
  let radius := default 2 (opt_radius options) in
  let elevation := default 0.02 (opt_elevation options) in
  let materialOptions := default no_materialOptions (opt_materialOptions options) in
  g ← defined "feature.geometry is null" (feature_geometry f);
  b ← fillBuffers radius elevation g;
  if (length (geomPositions b) =? 0)%nat then mret None
  else
    mret (Some {| positions := geomPositions b;
                  mesh_material := newMeshPhongMaterial materialOptions;
                  userData := Object_assign
                                (Object_assign ∅ (default ∅ (feature_properties f)))
                                isProvince_flag |}).

End Builder.

(** * EarthScene.vue: assembling the provinces *)

Record featureCollection : Type := FeatureCollection {
  features : list feature;
}.

Definition provinceColors : list Z :=
  [0xff6b6b; 0x4ecdc4; 0x45b7d1; 0x96ceb4; 0xfeca57; 0xff9ff3; 0x54a0ff; 0x5f27cd; 0x00d2d3;
   0xff9f43; 0x10ac84; 0xee5a24; 0xa3cb38; 0xc44569; 0xd980fa]%Z.

(** The options object passed by [createProvincesFromGeoJson]; [lineColor]
    and [lineWidth] are not read by the builder. [fill] is
    [provinceColors[colorIndex]]. *)
Definition provinceOptions (fill : option Z) : options_t :=
  {| opt_radius := Some 2;
     opt_elevation := Some 0.02;
     opt_materialOptions :=
       Some {| mo_color := fill;
               mo_transparent := Some true;
               mo_opacity := Some 0.7%Q;
               mo_side := None;
               mo_shininess := Some 30%Z |} |}.

Definition set_userData (u : jsobject) (m : mesh) : mesh :=
  {| positions := positions m; mesh_material := mesh_material m; userData := u |}.

Section Assembler.

Variable earcut : list R -> list nat -> nat -> list nat.

(** The callback of [geoJson.features.forEach((feature, index) => ...)];
    [group] is the list of children of the [THREE.Group]. *)
Definition addProvince (group : list mesh) (f : feature) (index : nat) : js (list mesh) :=
  props ← defined "feature.properties is null" (feature_properties f);
  let name := getprop props "name" in
  let adcode := getprop props "adcode" in
  let colorIndex := (index mod length provinceColors)%nat in
  m ← createProvinceMeshFromFeature earcut f (provinceOptions (provinceColors !! colorIndex));
  match m with
  | Some m =>
      let u := Object_assign (userData m)
                 {[ "provinceName" := name; "adcode" := adcode; "isProvince" := JBool true ]} in
      mret (group ++ [set_userData u m])
  | None => mret group
  end.

Definition createProvincesFromGeoJson (geoJson : featureCollection) : js (list mesh) :=
  forEach addProvince (features geoJson) [].

(** [initProvinces]: [fetched] is the outcome of fetching and parsing the
    GeoJSON file, [earth] the children of the earth mesh. The [try]/[catch]
    spans the fetch and the whole assembly. *)
Definition initProvinces (fetched : js featureCollection) (earth : list (list mesh))
    : list logEntry * list (list mesh) :=
  match geoJson ← fetched; createProvincesFromGeoJson geoJson with
  | (out, Ok provinces) => (out, earth ++ [provinces])
  | (out, Throw error) => (out ++ [Error "加载省份数据失败:" error], earth)
  end.

End Assembler.

(** * EarthScene.vue: the pointer controller of [initRaycaster] *)

(** Scene objects and material objects have identity; the code compares
    and stores references, so both live in stores keyed by reference. *)
Abbreviation objRef := nat (only parsing).
Abbreviation matRef := nat (only parsing).

Record object3d : Type := Object3d {
  obj_material : matRef;
  obj_userData : jsobject;
}.

Definition set_material (l : matRef) (o : object3d) : object3d :=
  {| obj_material := l; obj_userData := obj_userData o |}.

(** A DOM mouse event as a handler sees it: the pointer position, the
    [Date.now()] reading while the handler runs, and what
    [raycaster.intersectObjects(scene.children, true)] returns for the ray
    through that position (nearest first). *)
Record mouseEvent : Type := MouseEvent {
  clientX : Z;
  clientY : Z;
  now : Z;
  intersects : list objRef;
}.

Record state : Type := State {
  objects : gmap objRef object3d;
  materials : gmap matRef material;
  isDragging : bool;
  mouseDownTime : Z;
  mouseDownPosition : Z * Z;
  hoveredProvince : option objRef;
  originalMaterials : gmap objRef matRef;
  (** the arguments of the [handleProvinceClick] calls so far, oldest first *)
  selections : list jsval;
}.

Definition initRaycaster (objs : gmap objRef object3d) (mats : gmap matRef material) : state :=
  {| objects := objs; materials := mats;
     isDragging := false; mouseDownTime := 0%Z; mouseDownPosition := (0, 0)%Z;
     hoveredProvince := None; originalMaterials := ∅; selections := [] |}.

Definition set_drag (d : bool) (t : Z) (p : Z * Z) (s : state) : state :=
  {| objects := objects s; materials := materials s;
     isDragging := d; mouseDownTime := t; mouseDownPosition := p;
     hoveredProvince := hoveredProvince s; originalMaterials := originalMaterials s;
     selections := selections s |}.

Definition set_hover (objs : gmap objRef object3d) (mats : gmap matRef material)
    (h : option objRef) (saved : gmap objRef matRef) (s : state) : state :=
  {| objects := objs; materials := mats;
     isDragging := isDragging s; mouseDownTime := mouseDownTime s;
     mouseDownPosition := mouseDownPosition s;
     hoveredProvince := h; originalMaterials := saved;
     selections := selections s |}.

(** [handleProvinceClick(provinceName)]: the navigation it triggers is
    recorded as one more selection. *)
Definition handleProvinceClick (v : jsval) (s : state) : state :=
  {| objects := objects s; materials := materials s;
     isDragging := isDragging s; mouseDownTime := mouseDownTime s;
     mouseDownPosition := mouseDownPosition s;
     hoveredProvince := hoveredProvince s; originalMaterials := originalMaterials s;
     selections := selections s ++ [v] |}.

Definition onMouseDown (e : mouseEvent) (s : state) : state :=
  set_drag false (now e) (clientX e, clientY e) s.

(** [for (const intersect of intersects) if (intersect.object.userData.isProvince) ...break]:
    the first hit whose [userData.isProvince] is truthy. *)
Fixpoint firstProvince (objs : gmap objRef object3d) (hits : list objRef)
    : js (option (objRef * object3d)) :=
  match hits with
  | [] => mret None
  | i :: hits' =>
      o ← defined "intersect.object is undefined" (objs !! i);
      if truthy (getprop (obj_userData o) "isProvince") then mret (Some (i, o))
      else firstProvince objs hits'
  end.

(** [if (hoveredProvince && originalMaterials.has(hoveredProvince)) ...] *)
Definition restorePrevious (s : state) : state :=
  match hoveredProvince s with
  | Some h =>
      match originalMaterials s !! h with
      | Some l =>
          set_hover (alter (set_material l) h (objects s)) (materials s)
            (hoveredProvince s) (delete h (originalMaterials s)) s
      | None => s
      end
  | None => s
  end.

(** [material.clone()] followed by the two assignments to the clone. *)
Definition highlightOf (m : material) : material :=
  {| color := color m; transparent := transparent m; opacity := 0.9;
     side := side m; shininess := shininess m; emissive := 0x444444 |}.

(** [if (currentHovered) ...]: save the current material reference, then
    install a highlighted clone stored at a new reference. *)
Definition highlightCurrent (currentHovered : option objRef) (s : state) : js state :=
  match currentHovered with
  | Some c =>
      o ← defined "currentHovered is undefined" (objects s !! c);
      m ← defined "currentHovered.material is undefined" (materials s !! obj_material o);
      let saved := <[c := obj_material o]> (originalMaterials s) in
      let highlightMaterial := fresh (dom (materials s)) in
      mret (set_hover (<[c := set_material highlightMaterial o]> (objects s))
                      (<[highlightMaterial := highlightOf m]> (materials s))
                      (hoveredProvince s) saved s)
  | None => mret s
  end.

Definition onMouseMove (e : mouseEvent) (s : state) : js state :=
  let s := if (0 <? mouseDownTime s)%Z
           then set_drag true (mouseDownTime s) (mouseDownPosition s) s else s in
  hit ← firstProvince (objects s) (intersects e);
  let currentHovered := fst <$> hit in
  if decide (currentHovered = hoveredProvince s) then mret s
  else
    s ← highlightCurrent currentHovered (restorePrevious s);
    mret (set_hover (objects s) (materials s) currentHovered (originalMaterials s) s).

(** [handleValidClick]: [handleProvinceClick(provinceName)] for the first
    pickable hit, if there is one. *)
Definition handleValidClick (e : mouseEvent) (s : state) : js state :=
  hit ← firstProvince (objects s) (intersects e);
  match hit with
  | Some (_, o) => mret (handleProvinceClick (getprop (obj_userData o) "provinceName") s)
  | None => mret s
  end.

Definition clickDuration (e : mouseEvent) (s : state) : Z :=
  (now e - mouseDownTime s)%Z.

(** [Math.sqrt(Math.pow(dx, 2) + Math.pow(dy, 2))] *)
Definition moveDistance (e : mouseEvent) (s : state) : R :=
  sqrt (IZR (clientX e - fst (mouseDownPosition s)) ^ 2
        + IZR (clientY e - snd (mouseDownPosition s)) ^ 2).

(** [moveDistance < 5], decided on the integers (see [moveDistance_lt_5_spec]). *)
Definition moveDistance_lt_5 (e : mouseEvent) (s : state) : bool :=
  let dx := (clientX e - fst (mouseDownPosition s))%Z in
  let dy := (clientY e - snd (mouseDownPosition s))%Z in
  (dx * dx + dy * dy <? 25)%Z.

Definition validClick (e : mouseEvent) (s : state) : bool :=
  (clickDuration e s <? 200)%Z && moveDistance_lt_5 e s && negb (isDragging s).

Definition onMouseUp (e : mouseEvent) (s : state) : js state :=
  s ← (if validClick e s then handleValidClick e s else mret s);
  mret (set_drag false 0%Z (mouseDownPosition s) s).

Inductive event : Type :=
| MouseDown (e : mouseEvent)
| MouseMove (e : mouseEvent)
| MouseUp (e : mouseEvent).

Definition dispatch (ev : event) (s : state) : js state :=
  match ev with
  | MouseDown e => mret (onMouseDown e s)
  | MouseMove e => onMouseMove e s
  | MouseUp e => onMouseUp e s
  end.

(** The handlers run one after the other, in the order of the events. A
    handler that throws ends the run: what the page does after an uncaught
    exception in a handler is not modelled. *)
Fixpoint run (evs : list event) (s : state) : js state :=
  match evs with
  | [] => mret s
  | ev :: evs' => s' ← dispatch ev s; run evs' s'
  end.

(** * Ear clipping, the contract of [earcut] *)

(** The triangulator is not part of the repository; the builder above takes
    it as a parameter. This part gives the ear-clipping triangulation that
    the spec names ([earClip] below, with its helpers), to state what the
    builder produces from convex rings and to run the builder on samples. *)

Definition point2 : Type := R * R.

(** Twice the signed area of the triangle [o a b]: positive when
    [o], [a], [b] turn counter-clockwise. *)
Definition cross (o a b : point2) : R :=
  (fst a - fst o) * (snd b - snd o) - (snd a - snd o) * (fst b - fst o).

Definition det (p q : point2) : R := fst p * snd q - fst q * snd p.

(** The shoelace sum of the closed ring that starts at [first]. *)
Fixpoint shoelace (first : point2) (l : list point2) : R :=
  match l with
  | [] => 0
  | p :: l' =>
      match l' with
      | [] => det p first
      | q :: _ => det p q + shoelace first l'
      end
  end.

(** Twice the signed area of a ring. *)
Definition area2 (l : list point2) : R :=
  match l with
  | [] => 0
  | p :: _ => shoelace p l
  end.

Definition Rltb (x y : R) : bool := if Rlt_dec x y then true else false.
Definition Rleb (x y : R) : bool := if Rle_dec x y then true else false.

(** [p] lies in the closed counter-clockwise triangle [a b c]. *)
Definition inTriangle (a b c p : point2) : bool :=
  Rleb 0 (cross a b p) && Rleb 0 (cross b c p) && Rleb 0 (cross c a p).

(** In a counter-clockwise ring, [b] with neighbours [a] and [c] is an ear
    when the corner at [b] is convex and no other vertex of the ring lies
    in the triangle. *)
Definition isEar (a b c : point2) (others : list point2) : bool :=
  Rltb 0 (cross a b c) && forallb (fun p => negb (inTriangle a b c p)) others.

(** Walk round the ring (at most [tries] steps) until the vertex after the
    head is an ear; the ring is returned rotated to that position. *)
Fixpoint findEar (tries : nat) (poly : list (nat * point2)) : option (list (nat * point2)) :=
  match tries with
  | O => None
  | S tries' =>
      match poly with
      | a :: b :: c :: rest =>
          if isEar (snd a) (snd b) (snd c) (map snd rest) then Some poly
          else findEar tries' (b :: c :: rest ++ [a])
      | _ => None
      end
  end.

(** Cut ears off until fewer than three vertices remain or no ear is
    found; every round removes one vertex, so [rounds = length poly]
    rounds are enough. *)
Fixpoint clipEars (rounds : nat) (poly : list (nat * point2)) : list nat :=
  match rounds with
  | O => []
  | S rounds' =>
      match findEar (length poly) poly with
      | Some (a :: b :: c :: rest) =>
          fst a :: fst b :: fst c :: clipEars rounds' (a :: c :: rest)
      | _ => []
      end
  end.

(** The points of a flat coordinate array [[x0, y0, x1, y1, ...]]. *)
Fixpoint pairs (data : list R) : list point2 :=
  match data with
  | x :: y :: data' => (x, y) :: pairs data'
  | _ => []
  end.

Definition indexed (pts : list point2) : list (nat * point2) :=
  zip (seq 0 (length pts)) pts.

(** Two positions with the same coordinates. *)
Definition samePoint (p q : point2) : bool :=
  if Req_dec_T (fst p) (fst q) then (if Req_dec_T (snd p) (snd q) then true else false)
  else false.

(** The vertices of a ring taken as a closed loop: a last point that
    repeats the first one closes the ring and is not a vertex of it. A ring
    that does not repeat its first point is closed implicitly. *)
Definition openRing (pts : list point2) : list point2 :=
  match pts with
  | first :: _ :: _ => if samePoint (List.last pts first) first then removelast pts else pts
  | _ => pts
  end.

(** Modelled from the spec: the [earcut] package is an external dependency
    whose source is not part of the repository. The spec describes it as
    ear clipping: "decomposes a simple polygon (optionally with holes) into
    triangles by iteratively removing ear vertices", returning index triples
    into the flattened coordinate array, and a ring as "implicitly closed
    (first ≈ last not required but treated as a closed loop)": the closing
    point of a ring that repeats its first point is dropped, so that the
    indices are those of the ring's vertices. The ring is walked
    counter-clockwise (a clockwise ring is walked backwards). Only the outer
    ring (the points before the first hole start) is triangulated: the spec
    does not say how holes are joined to it, and nothing below is stated
    about a polygon with hole rings. [dim] is 2 in the only call. *)
Definition earClip (data : list R) (holeIndices : list nat) (dim : nat) : list nat :=
  let pts := pairs data in
  let outer := openRing (take (hd (length pts) holeIndices) pts) in
  let poly := if Rlt_dec (area2 outer) 0 then rev (indexed outer) else indexed outer in
  clipEars (length poly) poly.

(** The vertices of a ring are in strictly convex position, listed
    counter-clockwise (resp. clockwise): any three of them, taken in ring
    order, turn left (resp. right). *)
Definition convex_ccw (l : list point2) : Prop :=
  ∀ a b c, [a; b; c] `sublist_of` l → 0 < cross a b c.

Definition convex_cw (l : list point2) : Prop :=
  ∀ a b c, [a; b; c] `sublist_of` l → cross a b c < 0.

(** The triangles cut from a convex ring [a :: b :: l]: a fan around [a]. *)
Fixpoint fan (a b : nat) (l : list nat) : list nat :=
  match l with
  | [] => []
  | c :: l' => a :: b :: c :: fan a c l'
  end.

(** The sum of [cross o p q] over the consecutive pairs of [a :: l]. *)
Fixpoint fanArea (o a : point2) (l : list point2) : R :=
  match l with
  | [] => 0
  | b :: l' => cross o a b + fanArea o b l'
  end.

(** [Q b c] for all [b] before [c] in [l]; [T a b c] for all [a], [b], [c]
    in that order in [l]: convexity of a concrete ring, checked by cases. *)
Fixpoint all_pairs (Q : point2 → point2 → Prop) (l : list point2) : Prop :=
  match l with
  | [] => True
  | b :: l' => Forall (Q b) l' ∧ all_pairs Q l'
  end.

Fixpoint all_triples (T : point2 → point2 → point2 → Prop) (l : list point2) : Prop :=
  match l with
  | [] => True
  | a :: l' => all_pairs (T a) l' ∧ all_triples T l'
  end.

(** * Vocabulary for the builder *)

(** Euclidean distance from the origin. *)
Definition norm (v : vertex) : R :=
  let '(x, y, z) := v in sqrt (x * x + y * y + z * z).

Definition project (radius elevation : R) (c : coord) : vertex :=
  lonLatToCartesian (fst c) (snd c) (Some (radius + elevation)).

Definition lonlat (c : coord) : list R := [fst c; snd c].

(** Start offsets (in points) of the rings that follow [before] points. *)
Fixpoint ringStarts (before : nat) (rings : list ring) : list nat :=
  match rings with
  | [] => []
  | r :: rings' => before :: ringStarts (before + length r) rings'
  end.

(** The hole starts of a polygon: the start of every ring but the first. *)
Definition holeStarts (rings : polygon) : list nat :=
  match rings with
  | [] => []
  | r :: rings' => ringStarts (length r) rings'
  end.

(** The vertices that the index list [triangles] selects from [vs]. *)
Definition pick (vs : list vertex) (triangles : list nat) : option (list vertex) :=
  mapM (fun i => vs !! i) triangles.

(** The index list that [processPolygon] obtains for a polygon. *)
Definition triangulation (earcut : list R -> list nat -> nat -> list nat)
    (rings : polygon) : list nat :=
  earcut (flat_map lonlat (concat rings)) (holeStarts rings) 2%nat.

(** [v] is the projection of some position at [radius + elevation]. *)
Definition projected (radius elevation : R) (v : vertex) : Prop :=
  ∃ c : coord, v = project radius elevation c.

(** The triangle buffer holds whole triangles of projected vertices. *)
Definition buffers_ok (radius elevation : R) (b : buffers) : Prop :=
  (∃ (vs : list vertex) (k : nat),
      geomPositions b = flat_map spread vs ∧ length vs = (3 * k)%nat ∧
      Forall (projected radius elevation) vs) ∧
  Forall (projected radius elevation) (geom3DVertices b).

(** The mesh that the builder makes of a non-empty triangle buffer. *)
Definition meshOf (f : feature) (options : options_t) (b : buffers) : mesh :=
  {| positions := geomPositions b;
     mesh_material :=
       newMeshPhongMaterial (default no_materialOptions (opt_materialOptions options));
     userData := Object_assign (Object_assign ∅ (default ∅ (feature_properties f)))
                               isProvince_flag |}.

(** * Vocabulary for the assembler *)

(** The metadata that [createProvincesFromGeoJson] forces on a built mesh. *)
Definition decorate (props : jsobject) (m : mesh) : mesh :=
  set_userData
    (Object_assign (userData m)
       {[ "provinceName" := getprop props "name"; "adcode" := getprop props "adcode";
          "isProvince" := JBool true ]}) m.

(** The builder call made for the feature at position [index]. *)
Definition buildAt (earcut : list R -> list nat -> nat -> list nat)
    (index : nat) (f : feature) : js (option mesh) :=
  createProvinceMeshFromFeature earcut f
    (provinceOptions (provinceColors !! (index mod length provinceColors)%nat)).

(** What the feature at position [index] contributes to the group. *)
Definition contribution (earcut : list R -> list nat -> nat -> list nat)
    (index : nat) (f : feature) : list mesh :=
  match feature_properties f, buildAt earcut index f with
  | Some props, (_, Ok (Some m)) => [decorate props m]
  | _, _ => []
  end.

(** The feature at position [index] is processed without an exception. *)
Definition processable (earcut : list R -> list nat -> nat -> list nat)
    (index : nat) (f : feature) : Prop :=
  is_Some (feature_properties f) ∧ ∃ out r, buildAt earcut index f = (out, Ok r).

Definition pickable (m : mesh) : Prop :=
  userData m !! "isProvince" = Some (JBool true).

(** * Vocabulary for the pointer controller *)

(** Every object has a stored material, and so has every saved entry. *)
Definition scene_ok (s : state) : Prop :=
  (∀ i o, objects s !! i = Some o → is_Some (materials s !! obj_material o)) ∧
  (∀ i l, originalMaterials s !! i = Some l → is_Some (materials s !! l)).

(** The hover invariant: the saved-material map has an entry for exactly
    the hovered object, which is an object of the scene. *)
Definition hover_inv (s : state) : Prop :=
  (∀ i, is_Some (originalMaterials s !! i) ↔ hoveredProvince s = Some i) ∧
  (∀ i, hoveredProvince s = Some i → is_Some (objects s !! i)).

(** The ray cast of the event only hits objects of the scene. *)
Definition hits_in (objs : gmap nat object3d) (e : mouseEvent) : Prop :=
  Forall (fun i => is_Some (objs !! i)) (intersects e).

Definition mouseEventOf (ev : event) : mouseEvent :=
  match ev with
  | MouseDown e | MouseMove e | MouseUp e => e
  end.

(** [userData.isProvince] of a scene object is truthy. *)
Definition isPickable (objs : gmap nat object3d) (i : nat) : bool :=
  match objs !! i with
  | Some o => truthy (getprop (obj_userData o) "isProvince")
  | None => false
  end.

(** The nearest pickable hit of a ray cast, stated on the list of hits. *)
Definition nearestPickable (objs : gmap nat object3d) (hits : list nat) : option nat :=
  head (filter (fun i => isPickable objs i = true) hits).

(** The first statement of [onMouseMove]. *)
Definition afterDragMark (s : state) : state :=
  if (0 <? mouseDownTime s)%Z
  then set_drag true (mouseDownTime s) (mouseDownPosition s) s else s.

(** The rest of [onMouseMove]: the ray cast and the hover change. *)
Definition hoverChange (e : mouseEvent) (s : state) : js state :=
  hit ← firstProvince (objects s) (intersects e);
  let currentHovered := fst <$> hit in
  if decide (currentHovered = hoveredProvince s) then mret s
  else
    s ← highlightCurrent currentHovered (restorePrevious s);
    mret (set_hover (objects s) (materials s) currentHovered (originalMaterials s) s).

(** What a move event does to the scene and to the saved materials,
    between the state [s] before and the state [s'] after. *)
Definition move_frame (s s' : state) : Prop :=
  (∀ l m, materials s !! l = Some m → materials s' !! l = Some m) ∧
  (∀ c, hoveredProvince s' = Some c → hoveredProvince s ≠ Some c →
     ∃ o m l', objects s !! c = Some o ∧ materials s !! obj_material o = Some m ∧
               originalMaterials s' !! c = Some (obj_material o) ∧
               materials s !! l' = None ∧
               objects s' !! c = Some (set_material l' o) ∧
               materials s' !! l' = Some (highlightOf m)) ∧
  (∀ h, hoveredProvince s = Some h → hoveredProvince s' ≠ Some h →
     ∃ o l, objects s !! h = Some o ∧ originalMaterials s !! h = Some l ∧
            objects s' !! h = Some (set_material l o) ∧
            originalMaterials s' !! h = None) ∧
  (∀ i, hoveredProvince s ≠ Some i → hoveredProvince s' ≠ Some i →
        objects s' !! i = objects s !! i) ∧
  (hoveredProvince s' = hoveredProvince s →
   objects s' = objects s ∧ materials s' = materials s ∧
   originalMaterials s' = originalMaterials s).

(** The three conditions of [onMouseUp]. *)
Definition validSelection (e : mouseEvent) (s : state) : Prop :=
  (clickDuration e s < 200)%Z ∧ moveDistance e s < 5 ∧ isDragging s = false.

(** The selection that a mouse-up emits: the [provinceName] of the nearest
    pickable hit, when the click is valid and there is such a hit. *)
Definition selectionOf (e : mouseEvent) (s : state) : list jsval :=
  if validClick e s then
    match nearestPickable (objects s) (intersects e) with
    | Some i =>
        match objects s !! i with
        | Some o => [getprop (obj_userData o) "provinceName"]
        | None => []
        end
    | None => []
    end
  else [].

(** The selections emitted by a run, if it ends normally. *)
Definition selectionsAfter (evs : list event) (s : state) : option (list jsval) :=
  match run evs s with
  | (_, Ok s') => Some (selections s')
  | (_, Throw _) => None
  end.

(** * Sample data *)

Definition triangleA : ring := [(0, 0); (10, 0); (0, 10)].
Definition triangleB : ring := [(20, 20); (30, 20); (20, 30)].
Definition squareA : ring := [(0, 0); (10, 0); (10, 10); (0, 10)].

(** The square as a GeoJSON ring: the first position is repeated at the end. *)
Definition closedSquare : ring := [(0, 0); (10, 0); (10, 10); (0, 10); (0, 0)].

Definition propsOf (name : string) (adcode : Z) : jsobject :=
  {[ "name" := JStr name; "adcode" := JNum adcode ]}.

Definition triangleFeature : feature :=
  Feature (Some (Polygon [triangleA])) (Some (propsOf "Alpha" 110000)).

Definition closedSquareFeature : feature :=
  Feature (Some (Polygon [closedSquare])) (Some (propsOf "Beta" 120000)).

Definition twoTrianglesFeature : feature :=
  Feature (Some (MultiPolygon [[triangleA]; [triangleB]])) (Some (propsOf "Gamma" 130000)).

Definition pointFeature : feature :=
  Feature (Some (OtherGeometry "Point")) (Some (propsOf "Delta" 140000)).

Definition noGeometryFeature : feature :=
  Feature None (Some (propsOf "Epsilon" 150000)).

(** A feature whose properties try to switch picking off. *)
Definition hostileFeature : feature :=
  Feature (Some (Polygon [triangleA]))
          (Some {[ "name" := JStr "Zeta"; "isProvince" := JBool false ]}).

Definition sampleCollection : featureCollection :=
  FeatureCollection [triangleFeature; pointFeature; twoTrianglesFeature].

Definition brokenCollection : featureCollection :=
  FeatureCollection [noGeometryFeature; triangleFeature].

Definition provinceData (name : string) : jsobject :=
  {[ "isProvince" := JBool true; "provinceName" := JStr name ]}.

(** Object 0 is the earth sphere, objects 1 and 2 are provinces. *)
Definition sampleObjects : gmap nat object3d :=
  {[ 0%nat := Object3d 0 ∅;
     1%nat := Object3d 1 (provinceData "Alpha");
     2%nat := Object3d 2 (provinceData "Beta") ]}.

Definition provinceMaterial (fill : Z) : material :=
  newMeshPhongMaterial
    (default no_materialOptions (opt_materialOptions (provinceOptions (Some fill)))).

Definition sampleMaterials : gmap nat material :=
  {[ 0%nat := Material 0xffffff false 1 FrontSide 5 0;
     1%nat := provinceMaterial 0xff6b6b;
     2%nat := provinceMaterial 0x4ecdc4 ]}.

Definition overAlpha (x y t : Z) : mouseEvent := MouseEvent x y t [1; 0]%nat.
Definition overBeta (x y t : Z) : mouseEvent := MouseEvent x y t [2; 0]%nat.
Definition overSea (x y t : Z) : mouseEvent := MouseEvent x y t [0]%nat.
Definition overSky (x y t : Z) : mouseEvent := MouseEvent x y t [].

Definition sampleMoves : list event :=
  [MouseMove (overAlpha 100 100 1000); MouseMove (overBeta 200 100 1010)].

(** * geoDataProcessor.js: the other exports *)

(** What the code sets of the [THREE.MeshBasicMaterial] of an outline. *)
Record basicMaterial : Type := BasicMaterial {
  bm_color : Z;
  bm_side : side_t;
}.

(** The outline mesh of [createProvinceWithEdgeHighlight]: a clone of the
    province geometry, its own material, a scale and the default (empty)
    [userData]. *)
Record edgeMesh : Type := EdgeMesh {
  edge_positions : list R;
  edge_material : basicMaterial;
  edge_scale : R * R * R;
  edge_userData : jsobject;
}.

Inductive groupChild : Type :=
| ProvinceChild (m : mesh)
| EdgeChild (e : edgeMesh).

(** A [THREE.Group]: its children in the order of the [add] calls. *)
Record provinceGroup : Type := ProvinceGroup {
  group_children : list groupChild;
  group_userData : jsobject;
}.

(** A feature of a GeoJSON document together with its own [type] member. *)
Record geoFeature : Type := GeoFeature {
  gf_type : jsval;
  gf_feature : feature;
}.

(** An entry of the array returned by [processGeoJsonForThree]. *)
Record featureSummary : Type := FeatureSummary {
  fs_type : jsval;
  fs_properties : option jsobject;
  fs_geometryType : string;
}.

(** [array.map(f)]: an exception in the callback propagates. *)
Fixpoint arrayMap {A B : Type} (f : A -> js B) (l : list A) : js (list B) :=
  match l with
  | [] => mret []
  | x :: l' => y ← f x; ys ← arrayMap f l'; mret (y :: ys)
  end.

(** [processGeoJsonForThree(geoJson)], on [geoJson.features]. *)
Definition processGeoJsonForThree (features : list geoFeature) : js (list featureSummary) :=
  arrayMap (fun gf =>
    g ← defined "feature.geometry is null" (feature_geometry (gf_feature gf));
    mret {| fs_type := gf_type gf;
            fs_properties := feature_properties (gf_feature gf);
            fs_geometryType := geometry_type g |}) features.

Section EdgeHighlight.

Variable earcut : list R -> list nat -> nat -> list nat.

(** [createProvinceWithEdgeHighlight(feature, options = {})] *)
Definition createProvinceWithEdgeHighlight (f : feature) (options : options_t)
    : js provinceGroup :=
  provinceMesh ← createProvinceMeshFromFeature earcut f options;
  let children :=
    match provinceMesh with
    | Some m =>
        [ProvinceChild m;
         EdgeChild {| edge_positions := positions m;
                      edge_material := {| bm_color := 0xffffff; bm_side := BackSide |};
                      edge_scale := (1.02, 1.02, 1.02);
                      edge_userData := ∅ |}]
    | None => []
    end in
  mret {| group_children := children;
          group_userData := Object_assign (Object_assign ∅ (default ∅ (feature_properties f)))
                                          isProvince_flag |}.

End EdgeHighlight.

(** * More vocabulary for the builder *)

(** A vertex as drawn by a mesh with the given scale (and no rotation or
    translation). *)
Definition scaleVertex (s : R * R * R) (v : vertex) : vertex :=
  let '(sx, sy, sz) := s in
  let '(x, y, z) := v in (sx * x, sy * y, sz * z).

(** The index list obeys the layout that the emit loop expects: whole
    triples of indices below [n]. *)
Definition triples_below (n : nat) (triangles : list nat) : Prop :=
  (∃ k, length triangles = (3 * k)%nat) ∧ Forall (fun i => (i < n)%nat) triangles.

(** A triangulator that returns an index beyond a three-point ring. *)
Definition strayTriangulator (data : list R) (holeIndices : list nat) (dim : nat) : list nat :=
  [7; 0; 1]%nat.

(** A document with a typed triangle and a point without properties. *)
Definition sampleDocument : list geoFeature :=
  [GeoFeature (JStr "Feature") triangleFeature;
   GeoFeature (JStr "Feature") (Feature (Some (OtherGeometry "Point")) None)].

(** * More vocabulary for the assembler and the controller *)

(** The warning that the builder logs for a feature, if any. *)
Definition unsupportedWarning (f : feature) : list logEntry :=
  match feature_geometry f with
  | Some (OtherGeometry ty) => [Warn "Unsupported geometry type for province:" ty]
  | _ => []
  end.

(** [`${v}`]: the string that a template literal makes of a value. *)
Definition jsToString (v : jsval) : string :=
  match v with
  | JUndefined => "undefined"
  | JNull => "null"
  | JBool true => "true"
  | JBool false => "false"
  | JNum n => pretty n
  | JStr s => s
  end.

(** The argument of [router.push] in [handleProvinceClick(provinceName)]. *)
Definition provinceRoute (provinceName : jsval) : string :=
  "/province/" +:+ jsToString provinceName.

(** The routes pushed so far, oldest first. *)
Definition navigations (s : state) : list string :=
  map provinceRoute (selections s).

(** With respect to the scene [objs], [mats] that the controller started
    from: the materials of the scene are stored as they were; an object that
    is not hovered is as it was; the hovered object has its first material
    saved and carries a reference, not used by the scene, to the highlighted
    copy of that material. *)
Definition originals_kept (objs : gmap nat object3d) (mats : gmap nat material)
    (s : state) : Prop :=
  (∀ l m, mats !! l = Some m → materials s !! l = Some m) ∧
  (∀ i, hoveredProvince s ≠ Some i → objects s !! i = objs !! i) ∧
  (∀ h, hoveredProvince s = Some h →
     ∃ o l' m, objs !! h = Some o ∧ mats !! obj_material o = Some m ∧
               originalMaterials s !! h = Some (obj_material o) ∧
               objects s !! h = Some (set_material l' o) ∧
               mats !! l' = None ∧
               materials s !! l' = Some (highlightOf m)).

(** Hover Alpha, then Beta, then leave both. *)
Definition sampleMovesOut : list event :=
  sampleMoves ++ [MouseMove (overSea 300 100 1020)].

(** A province object without a [provinceName]. *)
Definition namelessObjects : gmap nat object3d :=
  {[ 0%nat := Object3d 0 ∅; 1%nat := Object3d 1 {[ "isProvince" := JBool true ]} ]}.

(** * The starfield and the animation loop (EarthScene.vue)

    [Math.random()] is an oracle: [random k] is the value that the [k]-th
    call returns, and the number of calls made so far is threaded through
    the code.  A store into a [Float32Array] rounds the value to single
    precision ([fround]) and is ignored outside the array. *)

Definition starCount : nat := Z.to_nat 5000.

(** The three typed arrays that the first loop of [createStarfield] fills. *)
Record starArrays : Type := StarArrays {
  sa_positions : list R;
  sa_colors : list R;
  sa_sizes : list R;
  sa_calls : nat
}.

(** What [createStarfield] leaves on [window]: the attribute arrays of the
    star geometry ([window.starSizes] is the array of the [size]
    attribute itself) and the indices of the twinkling stars. *)
Record starfield : Type := Starfield {
  star_positions : list R;
  star_colors : list R;
  starSizes : list R;
  twinkleStars : list Z;
  randomCalls : nat
}.

(** What [animate] updates. *)
Record animation : Type := Animation {
  earth_rotation_y : R;
  an_starSizes : list R;
  an_needsUpdate : bool;
  stars_rotation : R * R;
  an_randomCalls : nat
}.

(** What one frame reads from outside: [Date.now()] and the [x], [y] of
    [camera.rotation]. *)
Record frame : Type := Frame {
  frame_now : Z;
  frame_cameraRotation : R * R
}.

(** [new Float32Array(starCount * 3)] twice and [new Float32Array(starCount)]:
    zero-filled arrays. *)
Definition newStarArrays (k0 : nat) : starArrays :=
  {| sa_positions := replicate (starCount * 3) 0;
     sa_colors := replicate (starCount * 3) 0;
     sa_sizes := replicate starCount 0;
     sa_calls := k0 |}.

Section Starfield.
Variable random : nat → R.
Variable fround : R → R.

(** [arr[i] = v] for a [Float32Array] and a number [i]. *)
Definition storeAt (i : Z) (v : R) (arr : list R) : list R :=
  if (0 <=? i)%Z then <[Z.to_nat i := fround v]> arr else arr.

(** The body of [for (let i = 0; i < starCount; i++)]. *)
Definition fillStar (a : starArrays) (i : nat) : starArrays :=
  let k := sa_calls a in
  let radius := 200 + random k * 800 in
  let theta := random (k + 1)%nat * PI * 2 in
  let phi := acos (random (k + 2)%nat * 2 - 1) in
  let x := radius * sin phi * cos theta in
  let y := radius * sin phi * sin theta in
  let z := radius * cos phi in
  let colorIntensity := 0.5 + random (k + 3)%nat * 0.3 in
  let blueTint := random (k + 4)%nat * 0.2 in
  {| sa_positions :=
       <[(i * 3 + 2)%nat := fround z]>
         (<[(i * 3 + 1)%nat := fround y]> (<[(i * 3)%nat := fround x]> (sa_positions a)));
     sa_colors :=
       <[(i * 3 + 2)%nat := fround (colorIntensity + blueTint)]>
         (<[(i * 3 + 1)%nat := fround (colorIntensity - blueTint * 0.1)]>
            (<[(i * 3)%nat := fround colorIntensity]> (sa_colors a)));
     sa_sizes := <[i := fround (0.4 + random (k + 5)%nat * 1.2)]> (sa_sizes a);
     sa_calls := (k + 6)%nat |}.

(** The body of [for (let i = 0; i < 50; i++)]. *)
Definition pushTwinkle (st : list Z * nat) (i : nat) : list Z * nat :=
  let '(twinkleStars, k) := st in
  let starIndex := Int_part (random k * INR starCount) in
  (twinkleStars ++ [starIndex], S k).

(** [createStarfield()], when [k0] calls of [Math.random] came before. *)
Definition createStarfield (k0 : nat) : starfield :=
  let a := foldl fillStar (newStarArrays k0) (seq 0 starCount) in
  let '(twinkleStars, k) := foldl pushTwinkle ([], sa_calls a) (seq 0 50) in
  {| star_positions := sa_positions a; star_colors := sa_colors a;
     starSizes := sa_sizes a; twinkleStars := twinkleStars; randomCalls := k |}.

(** [window.twinkleStars.forEach((starIndex, index) => ...)], from
    position [index] on. *)
Fixpoint twinkle_from (time : R) (index : nat) (stars : list Z)
    (sizes : list R) (k : nat) : list R * nat :=
  match stars with
  | [] => (sizes, k)
  | starIndex :: rest =>
      let starTime := time + INR index * 0.1 in
      let twinkle := sin (starTime * 2) * 0.2 + 0.8 in
      twinkle_from time (S index) rest
        (storeAt starIndex ((0.3 + random k * 1.2) * twinkle) sizes) (S k)
  end.

(** One call of [animate()], after [createStarfield] has set the
    [window] fields that it tests. *)
Definition animate (stars : list Z) (f : frame) (s : animation) : animation :=
  let time := IZR (frame_now f) * 0.001 in
  let '(sizes, k) := twinkle_from time 0 stars (an_starSizes s) (an_randomCalls s) in
  let slowFactor := 0.1 in
  {| earth_rotation_y := earth_rotation_y s + 0.001;
     an_starSizes := sizes;
     an_needsUpdate := true;
     stars_rotation := (- fst (frame_cameraRotation f) * slowFactor,
                        - snd (frame_cameraRotation f) * slowFactor);
     an_randomCalls := k |}.

(** The state in which the first frame runs. *)
Definition startAnimation (sf : starfield) : animation :=
  {| earth_rotation_y := 0; an_starSizes := starSizes sf; an_needsUpdate := false;
     stars_rotation := (0, 0); an_randomCalls := randomCalls sf |}.

(** The frames of a session, oldest first. *)
Definition animateAll (stars : list Z) (frames : list frame) (s : animation) : animation :=
  foldl (fun s f => animate stars f s) s frames.

(** The values that the iteration starting at call [k] computes, before
    they are stored. *)
Definition starRadius (k : nat) : R := 200 + random k * 800.

Definition starVertex (k : nat) : R * R * R :=
  let theta := random (k + 1)%nat * PI * 2 in
  let phi := acos (random (k + 2)%nat * 2 - 1) in
  (starRadius k * sin phi * cos theta, starRadius k * sin phi * sin theta,
   starRadius k * cos phi).

Definition starColor (k : nat) : R * R * R :=
  let colorIntensity := 0.5 + random (k + 3)%nat * 0.3 in
  let blueTint := random (k + 4)%nat * 0.2 in
  (colorIntensity, colorIntensity - blueTint * 0.1, colorIntensity + blueTint).

Definition starSize (k : nat) : R := 0.4 + random (k + 5)%nat * 1.2.

Definition fillStars (n : nat) (a : starArrays) : starArrays :=
  foldl fillStar a (seq 0 n).
End Starfield.

(** The contract of [Math.random]. *)
Definition unit_interval (random : nat → R) : Prop := ∀ k, 0 <= random k < 1.

(** Rounding to single precision is monotone. *)
Definition monotone (fround : R → R) : Prop := ∀ x y, x <= y → fround x <= fround y.

Definition between (lo hi v : R) : Prop := lo <= v <= hi.

Definition halves : nat → R := fun _ => 1 / 2.

Definition noRounding : R → R := fun x => x.

Definition sampleFrames : list frame := [Frame 1000 (0, 0); Frame 1016 (0.1, 0.2)].

Arguments starCount : simpl never.

(** Lookups in an array after a sequence of stores. *)
Ltac stored :=
  repeat (apply list_lookup_insert_Some;
          first [ left; split; [lia|]; split; [reflexivity|]; rewrite ?length_insert; lia
                | right; split; [lia|] ]).

(** * Theorems *)

(** * Properties of the projection *)

Lemma lonLatToCartesian_sum_squares (lon lat r : R) :
  let '(x, y, z) := lonLatToCartesian lon lat (Some r) in
  x * x + y * y + z * z = Rsqr r.
Proof.
  unfold lonLatToCartesian; cbn.
  set (phi := (90 - lat) * (PI / 180)).
  set (theta := (lon + 180) * (PI / 180)).
  pose proof (sin2_cos2 phi) as Hp.
  pose proof (sin2_cos2 theta) as Ht.
  unfold Rsqr in *.
  replace (- (sin phi * cos theta) * r * (- (sin phi * cos theta) * r)
           + cos phi * r * (cos phi * r)
           + sin phi * sin theta * r * (sin phi * sin theta * r))
    with (r * r * (sin phi * sin phi * (sin theta * sin theta + cos theta * cos theta)
                   + cos phi * cos phi)) by ring.
  rewrite Ht, Rmult_1_r, Hp. ring.
Qed.

Lemma lonLatToCartesian_norm (lon lat r : R) :
  norm (lonLatToCartesian lon lat (Some r)) = Rabs r.
Proof.
  pose proof (lonLatToCartesian_sum_squares lon lat r) as H.
  unfold norm. destruct (lonLatToCartesian lon lat (Some r)) as [[x y] z].
  rewrite H. apply sqrt_Rsqr_abs.
Qed.

(** * Properties of the mesh builder *)

(** What one [processPolygon] call computes, stated without the loops. *)

Lemma visitCoord_spec radius elevation st c :
  visitCoord radius elevation st c =
  {| flat2D := flat2D st ++ lonlat c;
     holeIndices := holeIndices st;
     scan_vertices := scan_vertices st ++ [project radius elevation c] |}.
Proof.
  destruct c as [lon lat]. unfold visitCoord, project, lonlat. cbn [fst snd].
  destruct (lonLatToCartesian lon lat (Some (radius + elevation))) as [[x y] z].
  reflexivity.
Qed.

Lemma fold_visitCoord radius elevation (r : ring) st :
  fold_left (visitCoord radius elevation) r st =
  {| flat2D := flat2D st ++ flat_map lonlat r;
     holeIndices := holeIndices st;
     scan_vertices := scan_vertices st ++ map (project radius elevation) r |}.
Proof.
  revert st. induction r as [|c r IH]; intros st; simpl.
  - rewrite !app_nil_r. destruct st; reflexivity.
  - rewrite IH, visitCoord_spec. simpl. rewrite <- !app_assoc. reflexivity.
Qed.

Lemma length_flat_map_lonlat (r : list coord) :
  length (flat_map lonlat r) = (2 * length r)%nat.
Proof. induction r; simpl; lia. Qed.

Lemma visitRings_from_spec radius elevation (rings : list ring) :
  ∀ rIndex st (n : nat),
    length (flat2D st) = (2 * n)%nat →
    visitRings_from radius elevation rings rIndex st =
    {| flat2D := flat2D st ++ flat_map lonlat (concat rings);
       holeIndices := holeIndices st ++
                      match rIndex with
                      | O => match rings with
                             | [] => []
                             | r :: rings' => ringStarts (n + length r) rings'
                             end
                      | S _ => ringStarts n rings
                      end;
       scan_vertices := scan_vertices st ++ map (project radius elevation) (concat rings) |}.
Proof.
  induction rings as [|r rings IH]; intros rIndex st n Hn.
  - simpl. destruct rIndex; rewrite !app_nil_r; destruct st; reflexivity.
  - simpl visitRings_from.
    assert (Hdiv : (length (flat2D st) / 2 = n)%nat).
    { rewrite Hn, Nat.mul_comm. apply Nat.div_mul. lia. }
    unfold visitRing.
    destruct rIndex as [|k];
      [change (0 <? 0)%nat with false | change (0 <? S k)%nat with true];
      cbv iota; rewrite ?Hdiv, fold_visitCoord.
    + rewrite (IH 1%nat _ (n + length r)%nat);
        cbn [flat2D holeIndices scan_vertices concat].
      * rewrite flat_map_app, map_app, <- !app_assoc. reflexivity.
      * rewrite length_app, length_flat_map_lonlat. lia.
    + rewrite (IH (S (S k)) _ (n + length r)%nat);
        cbn [flat2D holeIndices scan_vertices concat ringStarts].
      * rewrite flat_map_app, map_app, <- !app_assoc. reflexivity.
      * rewrite length_app, length_flat_map_lonlat. lia.
Qed.

Lemma visitRings_spec radius elevation (rings : polygon) (vs : list vertex) :
  visitRings_from radius elevation rings 0
    {| flat2D := []; holeIndices := []; scan_vertices := vs |} =
  {| flat2D := flat_map lonlat (concat rings);
     holeIndices := holeStarts rings;
     scan_vertices := vs ++ map (project radius elevation) (concat rings) |}.
Proof.
  rewrite (visitRings_from_spec radius elevation rings 0%nat _ 0%nat) by reflexivity.
  reflexivity.
Qed.

Lemma triples_ind (P : list nat → Prop) :
  P [] → (∀ a, P [a]) → (∀ a b, P [a; b]) →
  (∀ a b c l, P l → P (a :: b :: c :: l)) →
  ∀ l, P l.
Proof.
  intros H0 H1 H2 H3.
  assert (H : ∀ l, P l ∧ (∀ a, P (a :: l)) ∧ (∀ a b, P (a :: b :: l))).
  { induction l as [|c l (IHa & IHb & IHc)]; auto. }
  intros l. apply H.
Qed.

Lemma emitTriangles_inv (vs : list vertex) (triangles : list nat) :
  ∀ pos out pos',
    emitTriangles vs triangles pos = (out, Ok pos') →
    out = [] ∧ (∃ k, length triangles = (3 * k)%nat) ∧
    ∃ picked, pick vs triangles = Some picked ∧ pos' = pos ++ flat_map spread picked.
Proof.
  unfold pick.
  induction triangles as [|a|a b|a b c l IH] using triples_ind; intros pos out pos' H.
  - inversion H; subst. split; [reflexivity|]. split; [exists 0%nat; reflexivity|].
    exists []. rewrite app_nil_r. split; reflexivity.
  - discriminate H.
  - discriminate H.
  - simpl in H. cbn [mapM].
    destruct (vs !! a) as [va|]; [|discriminate H].
    destruct (vs !! b) as [vb|]; [|discriminate H].
    destruct (vs !! c) as [vc|]; [|discriminate H].
    simpl in H.
    destruct (emitTriangles vs l (pos ++ spread va ++ spread vb ++ spread vc))
      as [out1 [p1|e1]] eqn:E; [|discriminate H].
    inversion H; subst.
    destruct (IH _ _ _ E) as (-> & [k Hk] & picked & Hp & ->).
    split; [reflexivity|]. split; [exists (S k); simpl; lia|].
    exists (va :: vb :: vc :: picked). rewrite Hp. simpl.
    split; [reflexivity|]. rewrite <- !app_assoc. reflexivity.
Qed.

Lemma emitTriangles_ok (vs : list vertex) (triangles : list nat) :
  ∀ pos picked k,
    length triangles = (3 * k)%nat →
    pick vs triangles = Some picked →
    emitTriangles vs triangles pos = ([], Ok (pos ++ flat_map spread picked)).
Proof.
  unfold pick.
  induction triangles as [|a|a b|a b c l IH] using triples_ind; intros pos picked k Hk Hp;
    simpl in Hk; try lia.
  - inversion Hp; subst. simpl. rewrite app_nil_r. reflexivity.
  - simpl in Hp. simpl.
    destruct (vs !! a) as [va|]; [|discriminate Hp].
    destruct (vs !! b) as [vb|]; [|discriminate Hp].
    destruct (vs !! c) as [vc|]; [|discriminate Hp].
    simpl in Hp. simpl.
    destruct (mapM (λ i, vs !! i) l) as [rest|] eqn:E; [|discriminate Hp].
    inversion Hp; subst.
    rewrite (IH _ rest (k - 1)%nat) by (auto; lia).
    simpl. rewrite <- !app_assoc. reflexivity.
Qed.

Lemma emitTriangles_silent (vs : list vertex) (triangles : list nat) :
  ∀ pos, fst (emitTriangles vs triangles pos) = [].
Proof.
  induction triangles as [|a|a b|a b c l IH] using triples_ind; intros pos;
    try reflexivity.
  simpl.
  destruct (vs !! a) as [va|]; [|reflexivity].
  destruct (vs !! b) as [vb|]; [|reflexivity].
  destruct (vs !! c) as [vc|]; [|reflexivity].
  simpl. specialize (IH (pos ++ spread va ++ spread vb ++ spread vc)).
  destruct (emitTriangles vs l _) as [out [p|e]]; simpl in *; subst; reflexivity.
Qed.

Lemma pick_Forall (P : vertex → Prop) (vs : list vertex) (triangles : list nat) picked :
  Forall P vs → pick vs triangles = Some picked →
  Forall P picked ∧ length picked = length triangles.
Proof.
  unfold pick. intros HP Hpick. apply mapM_Some in Hpick.
  split.
  - induction Hpick as [|i v l k Hi _ IH]; constructor; auto.
    rewrite Forall_forall in HP. apply HP, list_elem_of_lookup. eauto.
  - symmetry. eapply Forall2_length; eauto.
Qed.

Lemma length_flat_map_spread (vs : list vertex) :
  length (flat_map spread vs) = (3 * length vs)%nat.
Proof. induction vs as [|[[x y] z] vs IH]; simpl in *; lia. Qed.

Section BuilderFacts.

Variable earcut : list R -> list nat -> nat -> list nat.

Lemma processPolygon_inv radius elevation rings b out b' :
  processPolygon earcut radius elevation rings b = (out, Ok b') →
  out = [] ∧
  geom3DVertices b' = geom3DVertices b ++ map (project radius elevation) (concat rings) ∧
  (∃ k, length (triangulation earcut rings) = (3 * k)%nat) ∧
  ∃ picked, pick (geom3DVertices b') (triangulation earcut rings) = Some picked ∧
            geomPositions b' = geomPositions b ++ flat_map spread picked.
Proof.
  unfold processPolygon, triangulation. rewrite visitRings_spec.
  cbn [flat2D holeIndices scan_vertices]. intros H.
  destruct (emitTriangles _ _ _) as [out1 [pos|e]] eqn:E; simpl in H; [|discriminate H].
  inversion H; subst. cbn [geom3DVertices geomPositions].
  destruct (emitTriangles_inv _ _ _ _ _ E) as (-> & Hk & picked & Hp & ->).
  eauto 10.
Qed.

Lemma processPolygon_ok radius elevation rings b picked k :
  length (triangulation earcut rings) = (3 * k)%nat →
  pick (geom3DVertices b ++ map (project radius elevation) (concat rings))
       (triangulation earcut rings) = Some picked →
  processPolygon earcut radius elevation rings b =
  ([], Ok {| geomPositions := geomPositions b ++ flat_map spread picked;
             geom3DVertices := geom3DVertices b ++
                               map (project radius elevation) (concat rings) |}).
Proof.
  unfold processPolygon, triangulation. rewrite visitRings_spec.
  cbn [flat2D holeIndices scan_vertices]. intros Hk Hp.
  rewrite (emitTriangles_ok _ _ _ _ _ Hk Hp). reflexivity.
Qed.

Lemma processPolygon_silent radius elevation rings b :
  fst (processPolygon earcut radius elevation rings b) = [].
Proof.
  unfold processPolygon.
  pose proof (emitTriangles_silent
    (scan_vertices (visitRings_from radius elevation rings 0
       {| flat2D := []; holeIndices := []; scan_vertices := geom3DVertices b |}))
    (earcut (flat2D (visitRings_from radius elevation rings 0
       {| flat2D := []; holeIndices := []; scan_vertices := geom3DVertices b |}))
       (holeIndices (visitRings_from radius elevation rings 0
       {| flat2D := []; holeIndices := []; scan_vertices := geom3DVertices b |})) 2)
    (geomPositions b)) as H.
  destruct (emitTriangles _ _ _) as [out [p|e]]; simpl in *; subst; reflexivity.
Qed.

Lemma Forall_projected_map radius elevation (cs : list coord) :
  Forall (projected radius elevation) (map (project radius elevation) cs).
Proof. apply Forall_map, Forall_forall. intros c _. exists c. reflexivity. Qed.

Lemma processPolygon_buffers_ok radius elevation rings b out b' :
  buffers_ok radius elevation b →
  processPolygon earcut radius elevation rings b = (out, Ok b') →
  buffers_ok radius elevation b'.
Proof.
  intros [(vs & k & Hpos & Hlen & Hvs) Hall] H.
  apply processPolygon_inv in H as (_ & Hv & [k' Hk'] & picked & Hp & Hpos').
  assert (Hall' : Forall (projected radius elevation) (geom3DVertices b')).
  { rewrite Hv. apply Forall_app. split; [assumption | apply Forall_projected_map]. }
  destruct (pick_Forall _ _ _ _ Hall' Hp) as [Hpicked Hlp].
  split; [|assumption].
  exists (vs ++ picked), (k + k')%nat. split; [|split].
  - rewrite Hpos', Hpos, flat_map_app. reflexivity.
  - rewrite length_app. lia.
  - apply Forall_app. split; assumption.
Qed.

End BuilderFacts.

Lemma cross_flip (a b c : point2) : cross c a b = - cross a c b.
Proof. unfold cross. ring. Qed.

Lemma cross_reverse (a b c : point2) : cross c b a = - cross a b c.
Proof. unfold cross. ring. Qed.

Lemma Rltb_true x y : x < y → Rltb x y = true.
Proof. unfold Rltb. intros H. destruct (Rlt_dec x y); [reflexivity | contradiction]. Qed.

Lemma Rleb_false x y : y < x → Rleb x y = false.
Proof. unfold Rleb. intros H. destruct (Rle_dec x y); [lra | reflexivity]. Qed.

Lemma convex_ccw_sublist (l k : list point2) :
  k `sublist_of` l → convex_ccw l → convex_ccw k.
Proof. intros Hkl Hl a b c Habc. apply Hl. etransitivity; eassumption. Qed.

Lemma convex_cw_sublist (l k : list point2) :
  k `sublist_of` l → convex_cw l → convex_cw k.
Proof. intros Hkl Hl a b c Habc. apply Hl. etransitivity; eassumption. Qed.

Lemma sublist_singleton_elem (p : point2) (l : list point2) :
  p ∈ l → [p] `sublist_of` l.
Proof.
  induction 1 as [p l | p q l _ IH].
  - apply sublist_skip, sublist_nil_l.
  - apply sublist_cons, IH.
Qed.

Lemma isEar_convex (a b c : point2) (rest : list point2) :
  convex_ccw (a :: b :: c :: rest) → isEar a b c rest = true.
Proof.
  intros H. unfold isEar. apply andb_true_iff. split.
  - apply Rltb_true, H. do 3 apply sublist_skip. apply sublist_nil_l.
  - apply forallb_forall. intros p Hp. apply negb_true_iff.
    unfold inTriangle. apply andb_false_iff. right.
    apply Rleb_false. rewrite cross_flip.
    assert (0 < cross a c p); [|lra].
    apply H. apply sublist_skip, sublist_cons, sublist_skip.
    apply sublist_singleton_elem, list_elem_of_In, Hp.
Qed.

Lemma findEar_convex (tries : nat) (x y z : nat * point2) (rest : list (nat * point2)) :
  convex_ccw (map snd (x :: y :: z :: rest)) →
  findEar (S tries) (x :: y :: z :: rest) = Some (x :: y :: z :: rest).
Proof. intros H. simpl in *. rewrite isEar_convex by exact H. reflexivity. Qed.

Lemma clipEars_convex (rest : list (nat * point2)) :
  ∀ (rounds : nat) (x y : nat * point2),
    (length rest ≤ rounds)%nat →
    convex_ccw (map snd (x :: y :: rest)) →
    clipEars rounds (x :: y :: rest) = fan (fst x) (fst y) (map fst rest).
Proof.
  induction rest as [|z rest IH]; intros rounds x y Hr Hc.
  - destruct rounds as [|rounds]; reflexivity.
  - destruct rounds as [|rounds]; [simpl in Hr; lia|].
    cbn [clipEars]. change (length (x :: y :: z :: rest)) with (S (length (y :: z :: rest))).
    rewrite findEar_convex by exact Hc.
    cbn [map fan]. rewrite IH; [reflexivity | simpl in Hr; lia |].
    eapply convex_ccw_sublist; [|exact Hc].
    simpl. apply sublist_skip, sublist_cons. reflexivity.
Qed.

Lemma length_fan (a b : nat) (l : list nat) : length (fan a b l) = (3 * length l)%nat.
Proof. revert b. induction l as [|c l IH]; intros b; simpl; [|rewrite IH]; lia. Qed.

Lemma Forall_fan (P : nat → Prop) (a b : nat) (l : list nat) :
  P a → P b → Forall P l → Forall P (fan a b l).
Proof.
  intros Ha. revert b. induction l as [|c l IH]; intros b Hb Hl; simpl.
  - constructor.
  - inversion Hl; subst. repeat constructor; auto.
Qed.

Lemma pairs_lonlat (r : ring) : pairs (flat_map lonlat r) = r.
Proof. induction r as [|[lon lat] r IH]; simpl; [|rewrite IH]; reflexivity. Qed.

Lemma shoelace_fanArea (o : point2) (l : list point2) :
  ∀ a, shoelace o (a :: l) = fanArea o a l + det a o.
Proof.
  induction l as [|b l IH]; intros a.
  - simpl. ring.
  - change (shoelace o (a :: b :: l)) with (det a b + shoelace o (b :: l)).
    rewrite IH. simpl. unfold cross, det. ring.
Qed.

Lemma area2_fanArea (o a : point2) (l : list point2) :
  area2 (o :: a :: l) = fanArea o a l.
Proof.
  unfold area2. change (shoelace o (o :: a :: l)) with (det o a + shoelace o (a :: l)).
  rewrite shoelace_fanArea. unfold det. ring.
Qed.

Lemma fanArea_ccw (o : point2) (l : list point2) :
  ∀ a, convex_ccw (o :: a :: l) → 0 <= fanArea o a l ∧ (l ≠ [] → 0 < fanArea o a l).
Proof.
  induction l as [|b l IH]; intros a H.
  - simpl. split; [lra | congruence].
  - assert (Hab : 0 < cross o a b).
    { apply H. do 3 apply sublist_skip. apply sublist_nil_l. }
    destruct (IH b) as [Hge _].
    { eapply convex_ccw_sublist; [|exact H]. apply sublist_skip, sublist_cons. reflexivity. }
    simpl. split; [|intros _]; lra.
Qed.

Lemma fanArea_cw (o : point2) (l : list point2) :
  ∀ a, convex_cw (o :: a :: l) → fanArea o a l <= 0 ∧ (l ≠ [] → fanArea o a l < 0).
Proof.
  induction l as [|b l IH]; intros a H.
  - simpl. split; [lra | congruence].
  - assert (Hab : cross o a b < 0).
    { apply H. do 3 apply sublist_skip. apply sublist_nil_l. }
    destruct (IH b) as [Hge _].
    { eapply convex_cw_sublist; [|exact H]. apply sublist_skip, sublist_cons. reflexivity. }
    simpl. split; [|intros _]; lra.
Qed.

Lemma area2_ccw (l : list point2) : convex_ccw l → 0 <= area2 l.
Proof.
  destruct l as [|o [|a l]]; intros H.
  - simpl. lra.
  - simpl. unfold det. lra.
  - rewrite area2_fanArea. apply fanArea_ccw, H.
Qed.

Lemma area2_cw (l : list point2) : convex_cw l → (3 ≤ length l)%nat → area2 l < 0.
Proof.
  destruct l as [|o [|a [|b l]]]; simpl length; intros H Hn; try lia.
  rewrite area2_fanArea. apply fanArea_cw; [exact H | discriminate].
Qed.

Lemma clipEars_convex_poly (poly : list (nat * point2)) :
  convex_ccw (map snd poly) →
  length (clipEars (length poly) poly) = (3 * (length poly - 2))%nat ∧
  ∀ P : nat → Prop, Forall P (map fst poly) → Forall P (clipEars (length poly) poly).
Proof.
  intros H. destruct poly as [|x [|y rest]]; [split; [reflexivity|constructor]..|].
  rewrite clipEars_convex by (simpl; auto; lia). split.
  - rewrite length_fan, length_map. simpl. lia.
  - intros P HP. simpl in HP. inversion HP as [|? ? Hx HP']; subst.
    inversion HP'; subst. apply Forall_fan; assumption.
Qed.

Lemma map_snd_indexed (pts : list point2) : map snd (indexed pts) = pts.
Proof. unfold indexed. apply snd_zip. rewrite length_seq. lia. Qed.

Lemma map_fst_indexed (pts : list point2) : map fst (indexed pts) = seq 0 (length pts).
Proof. unfold indexed. apply fst_zip. rewrite length_seq. lia. Qed.

Lemma length_indexed (pts : list point2) : length (indexed pts) = length pts.
Proof. rewrite <- (length_map snd), map_snd_indexed. reflexivity. Qed.

Lemma sublist_rev (k l : list point2) : k `sublist_of` l → rev k `sublist_of` rev l.
Proof.
  induction 1 as [|x k l _ IH|x k l _ IH]; simpl.
  - constructor.
  - apply sublist_app; [exact IH | reflexivity].
  - etransitivity; [exact IH|]. apply sublist_inserts_r. reflexivity.
Qed.

Lemma convex_cw_rev (l : list point2) : convex_cw l → convex_ccw (rev l).
Proof.
  intros H a b c Habc. apply sublist_rev in Habc. rewrite rev_involutive in Habc.
  simpl in Habc. apply H in Habc. rewrite cross_reverse in Habc. lra.
Qed.

Lemma samePoint_true (p q : point2) : samePoint p q = true → p = q.
Proof.
  unfold samePoint. destruct p as [x y], q as [x' y']. cbn [fst snd].
  destruct (Req_dec_T x x') as [->|]; [|discriminate].
  destruct (Req_dec_T y y') as [->|]; [reflexivity | discriminate].
Qed.

Lemma samePoint_refl (p : point2) : samePoint p p = true.
Proof.
  unfold samePoint. destruct (Req_dec_T (fst p) (fst p)) as [_|H]; [|congruence].
  destruct (Req_dec_T (snd p) (snd p)) as [_|H]; [reflexivity | congruence].
Qed.

Lemma cross_same (a b : point2) : cross a b a = 0.
Proof. unfold cross. ring. Qed.

Lemma sublist_first_mid_last (a b x : point2) (l : list point2) :
  List.last (a :: b :: l) a = x → [a; b; x] `sublist_of` (a :: b :: l) ∨ l = [].
Proof.
  intros <-. destruct l as [|c l]; [right; reflexivity|left].
  apply sublist_skip, sublist_skip.
  change (List.last (a :: b :: c :: l) a) with (List.last (c :: l) a).
  assert (H : ∀ (d : point2) k, [List.last (d :: k) a] `sublist_of` (d :: k)).
  { intros d k. revert d. induction k as [|e k IH]; intros d.
    - reflexivity.
    - change (List.last (d :: e :: k) a) with (List.last (e :: k) a).
      apply sublist_cons, IH. }
  apply H.
Qed.

(** A ring in strictly convex position does not repeat its first point. *)
Lemma openRing_convex (r : ring) :
  convex_ccw r ∨ convex_cw r → (3 ≤ length r)%nat → openRing r = r.
Proof.
  intros H Hlen. destruct r as [|a [|b l]]; [reflexivity..|].
  unfold openRing.
  match goal with |- (if ?c then _ else _) = _ => destruct c eqn:E end; [|reflexivity].
  exfalso. apply samePoint_true in E.
  destruct (sublist_first_mid_last a b a l E) as [Hsub| ->]; [|simpl in Hlen; lia].
  pose proof (cross_same a b) as H0.
  destruct H as [H|H]; apply H in Hsub; lra.
Qed.

Lemma length_openRing_le (r : ring) : (length (openRing r) ≤ length r)%nat.
Proof.
  unfold openRing. destruct r as [|a [|b l]]; [reflexivity..|].
  match goal with |- (length (if ?c then _ else _) ≤ _)%nat => destruct c end; [|reflexivity].
  rewrite removelast_firstn_len, length_take. apply Nat.le_min_r.
Qed.

Lemma earClip_outer_ring (r : ring) :
  earClip (flat_map lonlat r) [] 2 =
  (let outer := openRing r in
   let poly := if Rlt_dec (area2 outer) 0 then rev (indexed outer) else indexed outer in
   clipEars (length poly) poly).
Proof.
  unfold earClip. rewrite pairs_lonlat. cbn [hd]. rewrite firstn_all. reflexivity.
Qed.

Lemma clipEars_short (rounds : nat) (poly : list (nat * point2)) :
  (length poly < 3)%nat → clipEars rounds poly = [].
Proof.
  intros H. destruct rounds as [|rounds]; [reflexivity|].
  destruct poly as [|a [|b [|c rest]]]; try reflexivity. simpl in H. lia.
Qed.

(** A ring of fewer than three points gives no triangle, closed or not. *)
Lemma earClip_short (r : ring) :
  (length (openRing r) < 3)%nat → earClip (flat_map lonlat r) [] 2 = [].
Proof.
  intros H. rewrite earClip_outer_ring. cbv zeta.
  apply clipEars_short.
  destruct (Rlt_dec (area2 (openRing r)) 0);
    rewrite ?length_rev, length_indexed; exact H.
Qed.

(** A counter-clockwise convex ring is cut into the fan around vertex 0. *)
Lemma clip_ccw (r : ring) :
  convex_ccw r →
  (let poly := if Rlt_dec (area2 r) 0 then rev (indexed r) else indexed r in
   clipEars (length poly) poly) =
  match r with
  | _ :: _ :: l => fan 0 1 (seq 2 (length l))
  | _ => []
  end.
Proof.
  intros H. cbv zeta.
  destruct (Rlt_dec (area2 r) 0) as [Hneg|_].
  { pose proof (area2_ccw r H). lra. }
  rewrite length_indexed.
  destruct r as [|a [|b l]]; [reflexivity..|].
  unfold indexed. simpl length. simpl seq. simpl zip.
  rewrite clipEars_convex.
  - simpl fst. rewrite fst_zip by (rewrite length_seq; lia). reflexivity.
  - rewrite length_zip, length_seq. lia.
  - change ((0%nat, a) :: (1%nat, b) :: zip (seq 2 (length l)) l) with (indexed (a :: b :: l)).
    rewrite map_snd_indexed. exact H.
Qed.

Lemma earClip_ccw (r : ring) :
  convex_ccw r → (3 ≤ length r)%nat →
  earClip (flat_map lonlat r) [] 2 =
  match r with
  | _ :: _ :: l => fan 0 1 (seq 2 (length l))
  | _ => []
  end.
Proof.
  intros H Hlen. rewrite earClip_outer_ring. cbv zeta.
  rewrite (openRing_convex r (or_introl H) Hlen). apply (clip_ccw r H).
Qed.

(** Ear clipping cuts a ring whose [n] vertices are in strictly convex
    position, in either orientation, into [n - 2] triangles over the indices
    of its vertices; the closing point of a closed ring is not a vertex. *)
Lemma earClip_convex (r : ring) :
  convex_ccw (openRing r) ∨ convex_cw (openRing r) →
  length (earClip (flat_map lonlat r) [] 2) = (3 * (length (openRing r) - 2))%nat ∧
  Forall (fun i => (i < length (openRing r))%nat) (earClip (flat_map lonlat r) [] 2).
Proof.
  rewrite earClip_outer_ring. cbv zeta. generalize (openRing r). clear r. intros r H.
  assert (Hpoly : ∃ poly, (if Rlt_dec (area2 r) 0 then rev (indexed r) else indexed r) = poly ∧
            convex_ccw (map snd poly) ∧ length poly = length r ∧
            Forall (fun i => (i < length r)%nat) (map fst poly)).
  { assert (Hseq : Forall (fun i => (i < length r)%nat) (seq 0 (length r))).
    { apply Forall_forall. intros i Hi. apply elem_of_seq in Hi. lia. }
    assert (Hfwd : convex_ccw r →
                   convex_ccw (map snd (indexed r)) ∧ length (indexed r) = length r ∧
                   Forall (fun i => (i < length r)%nat) (map fst (indexed r))).
    { intros Hc. rewrite map_snd_indexed, map_fst_indexed, length_indexed. auto. }
    assert (Hbwd : convex_cw r →
                   convex_ccw (map snd (rev (indexed r))) ∧
                   length (rev (indexed r)) = length r ∧
                   Forall (fun i => (i < length r)%nat) (map fst (rev (indexed r)))).
    { intros Hc. rewrite !map_rev, map_snd_indexed, map_fst_indexed, length_rev, length_indexed.
      split; [apply convex_cw_rev, Hc|]. split; [reflexivity|].
      apply Forall_rev, Hseq. }
    destruct (Rlt_dec (area2 r) 0) as [Hneg|Hpos]; eexists; (split; [reflexivity|]).
    - destruct H as [Hc|Hc]; [|apply Hbwd, Hc].
      pose proof (area2_ccw r Hc). lra.
    - destruct H as [Hc|Hc]; [apply Hfwd, Hc|].
      destruct (le_lt_dec 3 (length r)) as [Hn|Hn].
      + pose proof (area2_cw r Hc Hn). lra.
      + apply Hfwd. intros a b c Habc. apply sublist_length in Habc. simpl in Habc.
        exfalso. apply Nat.lt_nge in Hn. apply Hn, Habc. }
  destruct Hpoly as (poly & -> & Hc & Hlen & Hidx).
  destruct (clipEars_convex_poly poly Hc) as [Hl HP].
  split; [rewrite Hl, Hlen; reflexivity | apply HP, Hidx].
Qed.

(** * The builder as a whole *)

Lemma bind_Ok_inv {A B : Type} (m : js A) (k : A → js B) out b :
  m ≫= k = (out, Ok b) →
  ∃ out1 a out2, m = (out1, Ok a) ∧ k a = (out2, Ok b) ∧ out = out1 ++ out2.
Proof.
  unfold mbind, js_bind. destruct m as [out1 [a|e]]; [|discriminate].
  destruct (k a) as [out2 r] eqn:E. intros H. inversion H; subst. eauto 10.
Qed.

Lemma forEach_from_inv {St A : Type} (P : St → Prop) (f : St → A → nat → js St) (l : list A) :
  (∀ s x i out s', P s → f s x i = (out, Ok s') → P s') →
  ∀ i s out s', P s → forEach_from f l i s = (out, Ok s') → P s'.
Proof.
  intros Hf. induction l as [|x l IH]; intros i s out s' Hs H.
  - inversion H; subst. exact Hs.
  - simpl in H. apply bind_Ok_inv in H as (out1 & s1 & out2 & H1 & H2 & _).
    eapply IH; [|exact H2]. eapply Hf; eassumption.
Qed.

Lemma forEach_from_silent {St A : Type} (f : St → A → nat → js St) (l : list A) :
  (∀ s x i, fst (f s x i) = []) →
  ∀ i s, fst (forEach_from f l i s) = [].
Proof.
  intros Hf. induction l as [|x l IH]; intros i s; [reflexivity|].
  simpl. unfold mbind, js_bind. specialize (Hf s x i).
  destruct (f s x i) as [out1 [s1|e]]; simpl in Hf; subst; [|reflexivity].
  specialize (IH (S i) s1). destruct (forEach_from f l (S i) s1) as [out2 r].
  simpl in IH; subst. reflexivity.
Qed.

Lemma empty_buffers_ok radius elevation : buffers_ok radius elevation empty_buffers.
Proof.
  split; [|constructor]. exists [], 0%nat. repeat split; constructor.
Qed.

Section WholeBuilder.

Variable earcut : list R -> list nat -> nat -> list nat.

Lemma fillBuffers_ok radius elevation g out b :
  fillBuffers earcut radius elevation g = (out, Ok b) → buffers_ok radius elevation b.
Proof.
  destruct g as [rings|polys|ty]; simpl; intros H.
  - eapply processPolygon_buffers_ok; [apply empty_buffers_ok | exact H].
  - unfold forEach in H.
    eapply (forEach_from_inv (buffers_ok radius elevation)); [| |exact H].
    + intros s p i out' s' Hs Hp. simpl in Hp.
      eapply processPolygon_buffers_ok; eassumption.
    + apply empty_buffers_ok.
  - inversion H; subst. apply empty_buffers_ok.
Qed.

(** Only an unsupported geometry type writes to the console. *)
Lemma fillBuffers_console radius elevation g :
  fst (fillBuffers earcut radius elevation g) =
  match g with
  | OtherGeometry ty => [Warn "Unsupported geometry type for province:" ty]
  | _ => []
  end.
Proof.
  destruct g as [rings|polys|ty]; simpl.
  - apply processPolygon_silent.
  - apply forEach_from_silent. intros s p _. apply processPolygon_silent.
  - reflexivity.
Qed.

(** The builder in terms of the buffer that the geometry dispatch fills. *)
Lemma createProvinceMeshFromFeature_unfold (f : feature) (options : options_t) :
  createProvinceMeshFromFeature earcut f options =
  match feature_geometry f with
  | None => ([], Throw (TypeError "feature.geometry is null"))
  | Some g =>
      match fillBuffers earcut (default 2 (opt_radius options))
                        (default 0.02 (opt_elevation options)) g with
      | (out, Ok b) =>
          (out, Ok (match geomPositions b with
                    | [] => None
                    | _ :: _ => Some (meshOf f options b)
                    end))
      | (out, Throw e) => (out, Throw e)
      end
  end.
Proof.
  unfold createProvinceMeshFromFeature.
  destruct (feature_geometry f) as [g|]; [|reflexivity].
  simpl. unfold mbind, js_bind.
  destruct (fillBuffers earcut _ _ g) as [out [b|e]]; [|reflexivity].
  destruct (geomPositions b) as [|x pos] eqn:E; simpl; rewrite app_nil_r;
    unfold meshOf; rewrite ?E; reflexivity.
Qed.

End WholeBuilder.

Lemma all_pairs_sublist (Q : point2 → point2 → Prop) (l : list point2) :
  all_pairs Q l → ∀ b c, [b; c] `sublist_of` l → Q b c.
Proof.
  induction l as [|x l IH]; intros H b c Hs.
  - apply sublist_nil_r in Hs. discriminate.
  - destruct H as [Hx Hl]. apply sublist_cons_r in Hs as [Hs|(k & Hk & Hs)].
    + apply IH; assumption.
    + inversion Hk; subst. apply singleton_sublist_l in Hs.
      rewrite Forall_forall in Hx. apply Hx, Hs.
Qed.

Lemma all_triples_sublist (T : point2 → point2 → point2 → Prop) (l : list point2) :
  all_triples T l → ∀ a b c, [a; b; c] `sublist_of` l → T a b c.
Proof.
  induction l as [|x l IH]; intros H a b c Hs.
  - apply sublist_nil_r in Hs. discriminate.
  - destruct H as [Hx Hl]. apply sublist_cons_r in Hs as [Hs|(k & Hk & Hs)].
    + apply IH; assumption.
    + inversion Hk; subst. eapply all_pairs_sublist; eassumption.
Qed.

Lemma convex_ccw_check (l : list point2) :
  all_triples (fun a b c => 0 < cross a b c) l → convex_ccw l.
Proof. intros H a b c. apply (all_triples_sublist (fun a b c => 0 < cross a b c)), H. Qed.

Lemma convex_cw_check (l : list point2) :
  all_triples (fun a b c => cross a b c < 0) l → convex_cw l.
Proof. intros H a b c. apply (all_triples_sublist (fun a b c => cross a b c < 0)), H. Qed.

Lemma convex_triangleA : convex_ccw triangleA.
Proof.
  apply convex_ccw_check. simpl. repeat split; repeat constructor; unfold cross; simpl; lra.
Qed.

Lemma convex_triangleB : convex_ccw triangleB.
Proof.
  apply convex_ccw_check. simpl. repeat split; repeat constructor; unfold cross; simpl; lra.
Qed.

Lemma convex_squareA : convex_ccw squareA.
Proof.
  apply convex_ccw_check. simpl. repeat split; repeat constructor; unfold cross; simpl; lra.
Qed.

Lemma triangulation_single_ring earcut (r : ring) :
  triangulation earcut [r] = earcut (flat_map lonlat r) [] 2%nat.
Proof. unfold triangulation. simpl. rewrite app_nil_r. reflexivity. Qed.

Lemma earClip_triangleA : triangulation earClip [triangleA] = [0; 1; 2]%nat.
Proof.
  rewrite triangulation_single_ring, earClip_ccw;
    [reflexivity | apply convex_triangleA | simpl; lia].
Qed.

Lemma earClip_triangleB : triangulation earClip [triangleB] = [0; 1; 2]%nat.
Proof.
  rewrite triangulation_single_ring, earClip_ccw;
    [reflexivity | apply convex_triangleB | simpl; lia].
Qed.

Lemma earClip_squareA : triangulation earClip [squareA] = [0; 1; 2; 0; 2; 3]%nat.
Proof.
  rewrite triangulation_single_ring, earClip_ccw;
    [reflexivity | apply convex_squareA | simpl; lia].
Qed.

(** ** The buffers of one- and two-polygon features *)

Lemma pick_total (vs : list vertex) (triangles : list nat) :
  Forall (fun i => (i < length vs)%nat) triangles →
  ∃ picked, pick vs triangles = Some picked ∧ length picked = length triangles.
Proof.
  unfold pick. induction 1 as [|i l Hi _ (picked & Hp & Hl)].
  - exists []. split; reflexivity.
  - destruct (lookup_lt_is_Some_2 vs i Hi) as [v Hv].
    exists (v :: picked). cbn [mapM]. rewrite Hv, Hp. simpl. split; [reflexivity | lia].
Qed.

Section SmallFeatures.

Variable earcut : list R -> list nat -> nat -> list nat.
Variables radius elevation : R.

Lemma fillBuffers_polygon (rings : polygon) (picked : list vertex) (k : nat) :
  length (triangulation earcut rings) = (3 * k)%nat →
  pick (map (project radius elevation) (concat rings)) (triangulation earcut rings)
    = Some picked →
  fillBuffers earcut radius elevation (Polygon rings) =
  ([], Ok {| geomPositions := flat_map spread picked;
             geom3DVertices := map (project radius elevation) (concat rings) |}).
Proof.
  intros Hk Hp. simpl.
  rewrite (processPolygon_ok earcut radius elevation rings empty_buffers picked k Hk Hp).
  reflexivity.
Qed.

(** In a MultiPolygon the index list of the second polygon is resolved in
    the vertex list of the whole feature: that of the first polygon
    followed by that of the second. *)
Lemma fillBuffers_two_polygons (p1 p2 : polygon) (picked1 picked2 : list vertex) (k1 k2 : nat) :
  length (triangulation earcut p1) = (3 * k1)%nat →
  length (triangulation earcut p2) = (3 * k2)%nat →
  pick (map (project radius elevation) (concat p1)) (triangulation earcut p1)
    = Some picked1 →
  pick (map (project radius elevation) (concat p1) ++
        map (project radius elevation) (concat p2)) (triangulation earcut p2)
    = Some picked2 →
  fillBuffers earcut radius elevation (MultiPolygon [p1; p2]) =
  ([], Ok {| geomPositions := flat_map spread picked1 ++ flat_map spread picked2;
             geom3DVertices := map (project radius elevation) (concat p1) ++
                               map (project radius elevation) (concat p2) |}).
Proof.
  intros Hk1 Hk2 Hp1 Hp2. simpl. unfold forEach. cbn [forEach_from].
  rewrite (processPolygon_ok earcut radius elevation p1 empty_buffers picked1 k1 Hk1 Hp1).
  cbn [mbind js_bind empty_buffers geomPositions geom3DVertices app].
  rewrite (processPolygon_ok earcut radius elevation p2
             {| geomPositions := flat_map spread picked1;
                geom3DVertices := map (project radius elevation) (concat p1) |}
             picked2 k2 Hk2 Hp2).
  reflexivity.
Qed.

End SmallFeatures.

Lemma fillBuffers_triangleFeature :
  fillBuffers earClip 2 0.02 (Polygon [triangleA]) =
  ([], Ok {| geomPositions := flat_map spread (map (project 2 0.02) triangleA);
             geom3DVertices := map (project 2 0.02) triangleA |}).
Proof.
  apply (fillBuffers_polygon earClip 2 0.02 [triangleA]
           (map (project 2 0.02) triangleA) 1%nat);
    rewrite ?earClip_triangleA; reflexivity.
Qed.

Lemma fillBuffers_twoTrianglesFeature :
  fillBuffers earClip 2 0.02 (MultiPolygon [[triangleA]; [triangleB]]) =
  ([], Ok {| geomPositions := flat_map spread (map (project 2 0.02) triangleA) ++
                              flat_map spread (map (project 2 0.02) triangleA);
             geom3DVertices := map (project 2 0.02) triangleA ++
                               map (project 2 0.02) triangleB |}).
Proof.
  apply (fillBuffers_two_polygons earClip 2 0.02 [triangleA] [triangleB]
           (map (project 2 0.02) triangleA) (map (project 2 0.02) triangleA) 1%nat 1%nat);
    rewrite ?earClip_triangleA, ?earClip_triangleB; reflexivity.
Qed.

Lemma build_triangleFeature :
  createProvinceMeshFromFeature earClip triangleFeature no_options =
  ([], Ok (Some (meshOf triangleFeature no_options
                   {| geomPositions := flat_map spread (map (project 2 0.02) triangleA);
                      geom3DVertices := map (project 2 0.02) triangleA |}))).
Proof.
  rewrite createProvinceMeshFromFeature_unfold.
  cbn [feature_geometry triangleFeature no_options opt_radius opt_elevation default].
  rewrite fillBuffers_triangleFeature. reflexivity.
Qed.

Lemma build_twoTrianglesFeature :
  createProvinceMeshFromFeature earClip twoTrianglesFeature no_options =
  ([], Ok (Some (meshOf twoTrianglesFeature no_options
                   {| geomPositions := flat_map spread (map (project 2 0.02) triangleA) ++
                                       flat_map spread (map (project 2 0.02) triangleA);
                      geom3DVertices := map (project 2 0.02) triangleA ++
                                        map (project 2 0.02) triangleB |}))).
Proof.
  rewrite createProvinceMeshFromFeature_unfold.
  cbn [feature_geometry twoTrianglesFeature no_options opt_radius opt_elevation default].
  rewrite fillBuffers_twoTrianglesFeature. reflexivity.
Qed.

(** C1 (defect of the code). The claim asks that every index triple of a
    polygon be resolved among the vertices of that same polygon. The builder
    resolves it in the vertex list shared by the whole feature, which starts
    with the vertices of the earlier polygons: for the MultiPolygon made of
    the triangles [triangleA] and [triangleB], both emitted triangles are
    [triangleA]; the buffer that the claim describes ([triangleA] followed by
    [triangleB]) is not produced. *)
Theorem C1_multipolygon_second_polygon_reads_first_vertices :
  ∃ m, createProvinceMeshFromFeature earClip twoTrianglesFeature no_options
         = ([], Ok (Some m)) ∧
       positions m = flat_map spread (map (project 2 0.02) (triangleA ++ triangleA)) ∧
       positions m ≠ flat_map spread (map (project 2 0.02) (triangleA ++ triangleB)).
Proof.
  eexists. split; [apply build_twoTrianglesFeature|].
  cbn [positions meshOf geomPositions]. rewrite <- flat_map_app, <- map_app.
  split; [reflexivity|]. intros Heq.
  apply (f_equal (fun l => nth 10 l 0)) in Heq.
  change (cos ((90 - 0) * (PI / 180)) * (2 + 0.02) =
          cos ((90 - 20) * (PI / 180)) * (2 + 0.02)) in Heq.
  replace ((90 - 0) * (PI / 180)) with (PI / 2) in Heq by lra.
  rewrite cos_PI2 in Heq.
  assert (0 < cos ((90 - 20) * (PI / 180))) as Hpos.
  { pose proof PI_RGT_0. apply cos_gt_0; lra. }
  nra.
Qed.

(** ** C4: when the builder returns no mesh *)

Section NoMesh.

Variable earcut : list R -> list nat -> nat -> list nat.
Variables radius elevation : R.

Lemma processPolygon_no_triangles (rings : polygon) (b : buffers) :
  triangulation earcut rings = [] →
  processPolygon earcut radius elevation rings b =
  ([], Ok {| geomPositions := geomPositions b;
             geom3DVertices := geom3DVertices b ++
                               map (project radius elevation) (concat rings) |}).
Proof.
  intros H.
  rewrite (processPolygon_ok earcut radius elevation rings b [] 0%nat);
    rewrite ?H; try reflexivity.
  simpl. rewrite app_nil_r. reflexivity.
Qed.

Lemma forEach_no_triangles (polys : list polygon) :
  Forall (fun p => triangulation earcut p = []) polys →
  ∀ i b, ∃ vs,
    forEach_from (fun b p (_ : nat) => processPolygon earcut radius elevation p b) polys i b =
    ([], Ok {| geomPositions := geomPositions b; geom3DVertices := vs |}).
Proof.
  induction 1 as [|p polys Hp _ IH]; intros i b.
  - exists (geom3DVertices b). destruct b; reflexivity.
  - cbn [forEach_from]. rewrite processPolygon_no_triangles by exact Hp.
    destruct (IH (S i) {| geomPositions := geomPositions b;
                          geom3DVertices := geom3DVertices b ++
                            map (project radius elevation) (concat p) |}) as [vs Hvs].
    exists vs. cbn [mbind js_bind]. rewrite Hvs. reflexivity.
Qed.

End NoMesh.

(** C4. With [b] the triangle buffer that the geometry dispatch fills for
    the feature: the builder returns [null] exactly when [b] is empty, and
    otherwise a mesh whose buffer is [b], a positive number of whole
    triangles. An unsupported geometry type gives a warning and [null]; a
    polygon (or a MultiPolygon all of whose polygons) for which the
    triangulation returns no triangle gives [null] silently; neither
    throws. *)
Theorem C4_null_exactly_when_buffer_empty
    (earcut : list R -> list nat -> nat -> list nat)
    (f : feature) (options : options_t) (g : geometry) :
  feature_geometry f = Some g →
  let radius := default 2 (opt_radius options) in
  let elevation := default 0.02 (opt_elevation options) in
  (∀ out b, fillBuffers earcut radius elevation g = (out, Ok b) →
     ∃ r, createProvinceMeshFromFeature earcut f options = (out, Ok r) ∧
          (r = None ↔ geomPositions b = []) ∧
          (∀ m, r = Some m →
                positions m = geomPositions b ∧
                ∃ k, (0 < k)%nat ∧ length (positions m) = (9 * k)%nat)) ∧
  (∀ ty, g = OtherGeometry ty →
     createProvinceMeshFromFeature earcut f options =
     ([Warn "Unsupported geometry type for province:" ty], Ok None)) ∧
  (∀ rings, g = Polygon rings → triangulation earcut rings = [] →
     createProvinceMeshFromFeature earcut f options = ([], Ok None)) ∧
  (∀ polys, g = MultiPolygon polys →
     Forall (fun p => triangulation earcut p = []) polys →
     createProvinceMeshFromFeature earcut f options = ([], Ok None)).
Proof.
  intros Hg radius elevation.
  pose proof (createProvinceMeshFromFeature_unfold earcut f options) as Hu.
  rewrite Hg in Hu. fold radius elevation in Hu.
  split; [|split; [|split]].
  - intros out b Hb. rewrite Hb in Hu. eexists. split; [exact Hu|].
    destruct (fillBuffers_ok earcut radius elevation g out b Hb)
      as [(vs & k & Hpos & Hlen & _) _].
    destruct (geomPositions b) as [|x pos] eqn:E.
    + split; [tauto|]. intros m Hm. discriminate Hm.
    + split; [split; discriminate|]. intros m Hm. inversion Hm; subst m.
      cbn [positions meshOf]. rewrite E. split; [reflexivity|].
      exists k. rewrite Hpos, length_flat_map_spread, Hlen. split; [|lia].
      destruct k as [|k]; [|lia].
      destruct vs; [discriminate Hpos | discriminate Hlen].
  - intros ty ->. rewrite Hu. reflexivity.
  - intros rings -> Hno. rewrite Hu. cbn [fillBuffers].
    rewrite processPolygon_no_triangles by exact Hno. reflexivity.
  - intros polys -> Hno. rewrite Hu. cbn [fillBuffers]. unfold forEach.
    destruct (forEach_no_triangles earcut radius elevation polys Hno 0%nat empty_buffers)
      as [vs ->].
    reflexivity.
Qed.

(** A Point feature gives the warning and no mesh. *)
Lemma C4_witness_point_feature :
  createProvinceMeshFromFeature earClip pointFeature no_options =
  ([Warn "Unsupported geometry type for province:" "Point"], Ok None).
Proof.
  exact (proj1 (proj2 (C4_null_exactly_when_buffer_empty earClip pointFeature no_options
                         (OtherGeometry "Point") eq_refl)) "Point" eq_refl).
Defined.

(** ** C8: the shell of projected vertices *)

(** C8. For a radius that is not negative, the distance from the origin to
    a projected point is the radius. Every vertex in the buffer of a built
    mesh, being projected at [radius + elevation], is at that distance from
    the origin when [radius] is not negative and [elevation] is positive (as
    for the defaults 2 and 0.02): strictly outside the sphere of that
    radius. *)
Theorem C8_projection_distance_is_radius :
  (∀ lon lat radius, 0 <= radius →
     norm (lonLatToCartesian lon lat (Some radius)) = radius) ∧
  (∀ (earcut : list R -> list nat -> nat -> list nat) f options out m,
     createProvinceMeshFromFeature earcut f options = (out, Ok (Some m)) →
     let radius := default 2 (opt_radius options) in
     let elevation := default 0.02 (opt_elevation options) in
     0 <= radius → 0 < elevation →
     ∃ vs, positions m = flat_map spread vs ∧
           Forall (fun v => norm v = radius + elevation ∧ radius < norm v) vs).
Proof.
  split.
  { intros lon lat radius Hr. rewrite lonLatToCartesian_norm. apply Rabs_right. lra. }
  intros earcut f options out m H radius elevation Hr He.
  rewrite createProvinceMeshFromFeature_unfold in H.
  destruct (feature_geometry f) as [g|]; [|discriminate H].
  fold radius elevation in H.
  destruct (fillBuffers earcut radius elevation g) as [out' [b|e]] eqn:Hb; [|discriminate H].
  destruct (fillBuffers_ok earcut radius elevation g out' b Hb)
    as [(vs & k & Hpos & _ & Hvs) _].
  destruct (geomPositions b) as [|x pos] eqn:E; [discriminate H|].
  inversion H; subst. cbn [positions meshOf]. rewrite E.
  exists vs. split; [exact Hpos|].
  eapply Forall_impl; [exact Hvs|]. intros v [c ->].
  assert (Hn : norm (project radius elevation c) = Rabs (radius + elevation))
    by apply lonLatToCartesian_norm.
  rewrite Hn, Rabs_right by lra. lra.
Qed.

(** The vertices of the sample triangle, built with the default radius and
    elevation, are at distance 2.02, outside the sphere of radius 2; the
    point at longitude 116 and latitude 40 projected at radius 2 is at
    distance 2. *)
Lemma C8_witness_triangle_feature :
  norm (lonLatToCartesian 116 40 (Some 2)) = 2 ∧
  ∃ vs, flat_map spread (map (project 2 0.02) triangleA) = flat_map spread vs ∧
        Forall (fun v => norm v = 2 + 0.02 ∧ 2 < norm v) vs.
Proof.
  split.
  - apply (proj1 C8_projection_distance_is_radius 116 40 2). lra.
  - apply (proj2 C8_projection_distance_is_radius earClip triangleFeature no_options [] _
             build_triangleFeature); simpl; lra.
Defined.

(** ** C9: convex rings *)

(** C9. Ear clipping cuts a ring whose [N] vertices are in strictly convex
    position (in either orientation, without hole rings) into exactly
    [N - 2] triangles, the builder's buffer for that polygon holds exactly
    [9 * (N - 2)] numbers, and for [N >= 3] the builder returns the mesh
    with that buffer. The ring is taken as the builder receives it: the
    closing point of a ring that repeats its first position (as GeoJSON
    rings do) is not one of the [N] vertices; a ring that does not repeat it
    is covered as well. *)
Theorem C9_convex_ring_gives_N_minus_2_triangles
    (r : ring) (f : feature) (options : options_t) :
  convex_ccw (openRing r) ∨ convex_cw (openRing r) →
  feature_geometry f = Some (Polygon [r]) →
  let N := length (openRing r) in
  let radius := default 2 (opt_radius options) in
  let elevation := default 0.02 (opt_elevation options) in
  length (triangulation earClip [r]) = (3 * (N - 2))%nat ∧
  (∃ b, fillBuffers earClip radius elevation (Polygon [r]) = ([], Ok b) ∧
        length (geomPositions b) = (9 * (N - 2))%nat) ∧
  ((3 ≤ N)%nat →
   ∃ m, createProvinceMeshFromFeature earClip f options = ([], Ok (Some m)) ∧
        length (positions m) = (9 * (N - 2))%nat).
Proof.
  intros Hconvex Hg N radius elevation.
  destruct (earClip_convex r Hconvex) as [Hlen Hidx].
  rewrite <- triangulation_single_ring in Hlen, Hidx. fold N in Hlen, Hidx.
  destruct (pick_total (map (project radius elevation) (concat [r]))
              (triangulation earClip [r])) as (picked & Hp & Hl).
  { simpl. rewrite app_nil_r, length_map.
    eapply Forall_impl; [exact Hidx|]. intros i Hi. cbv beta in Hi.
    eapply Nat.lt_le_trans; [exact Hi|]. apply length_openRing_le. }
  pose proof (fillBuffers_polygon earClip radius elevation [r] picked (N - 2) Hlen Hp) as Hb.
  assert (Hnum : length (flat_map spread picked) = (9 * (N - 2))%nat).
  { rewrite length_flat_map_spread, Hl, Hlen. lia. }
  split; [exact Hlen|]. split.
  - eexists. split; [exact Hb|]. exact Hnum.
  - intros HN. rewrite createProvinceMeshFromFeature_unfold, Hg.
    fold radius elevation. rewrite Hb. cbn [geomPositions].
    destruct (flat_map spread picked) as [|x pos] eqn:E.
    + simpl in Hnum. lia.
    + eexists. split; [reflexivity|]. exact Hnum.
Qed.

Lemma openRing_closedSquare : openRing closedSquare = squareA.
Proof.
  unfold openRing, closedSquare. cbn [List.last]. rewrite samePoint_refl. reflexivity.
Qed.

(** On the closed square the closing point is dropped and the four vertices
    are cut into the fan around vertex 0. *)
Lemma earClip_closedSquare :
  triangulation earClip [closedSquare] = [0; 1; 2; 0; 2; 3]%nat.
Proof.
  rewrite triangulation_single_ring, earClip_outer_ring, openRing_closedSquare.
  exact (clip_ccw squareA convex_squareA).
Qed.

(** The square as a closed GeoJSON ring of five positions: four vertices,
    two triangles, eighteen numbers. *)
Lemma C9_witness_closed_square :
  length (triangulation earClip [closedSquare]) = 6%nat ∧
  (∃ b, fillBuffers earClip 2 0.02 (Polygon [closedSquare]) = ([], Ok b) ∧
        length (geomPositions b) = 18%nat) ∧
  ∃ m, createProvinceMeshFromFeature earClip closedSquareFeature no_options
         = ([], Ok (Some m)) ∧
       length (positions m) = 18%nat.
Proof.
  assert (Hconvex : convex_ccw (openRing closedSquare) ∨ convex_cw (openRing closedSquare)).
  { left. rewrite openRing_closedSquare. exact convex_squareA. }
  destruct (C9_convex_ring_gives_N_minus_2_triangles closedSquare closedSquareFeature
              no_options Hconvex eq_refl) as (Htri & Hbuf & Hmesh).
  cbv zeta in Htri, Hbuf, Hmesh. rewrite openRing_closedSquare in Htri, Hbuf, Hmesh.
  split; [exact Htri|]. split; [exact Hbuf|]. apply Hmesh. simpl. lia.
Defined.

(** * Properties of the assembler *)

Section AssemblerFacts.

Variable earcut : list R -> list nat -> nat -> list nat.

Lemma addProvince_unfold (group : list mesh) (f : feature) (index : nat) :
  addProvince earcut group f index =
  match feature_properties f with
  | None => ([], Throw (TypeError "feature.properties is null"))
  | Some props =>
      match buildAt earcut index f with
      | (out, Ok (Some m)) => (out, Ok (group ++ [decorate props m]))
      | (out, Ok None) => (out, Ok group)
      | (out, Throw e) => (out, Throw e)
      end
  end.
Proof.
  unfold addProvince, buildAt.
  destruct (feature_properties f) as [props|]; [|reflexivity].
  simpl. unfold mbind, js_bind.
  destruct (createProvinceMeshFromFeature earcut f _) as [out [[m|]|e]]; simpl;
    rewrite ?app_nil_r; reflexivity.
Qed.

Lemma addProvince_processable (group : list mesh) (f : feature) (index : nat) :
  processable earcut index f →
  ∃ out, addProvince earcut group f index = (out, Ok (group ++ contribution earcut index f)).
Proof.
  intros [[props Hprops] (out & r & Hb)].
  rewrite addProvince_unfold. unfold contribution. rewrite Hprops, Hb.
  destruct r as [m|]; eexists; rewrite ?app_nil_r; reflexivity.
Qed.

Lemma forEach_addProvince_processable (fs : list feature) :
  ∀ (i : nat) (group : list mesh),
    (∀ j f, fs !! j = Some f → processable earcut (i + j) f) →
    ∃ out, forEach_from (addProvince earcut) fs i group =
           (out, Ok (group ++ concat (imap (fun j => contribution earcut (i + j)) fs))).
Proof.
  induction fs as [|f fs IH]; intros i group H.
  - exists []. simpl. rewrite app_nil_r. reflexivity.
  - destruct (addProvince_processable group f i) as [out1 H1].
    { specialize (H 0%nat f eq_refl). rewrite Nat.add_0_r in H. exact H. }
    destruct (IH (S i) (group ++ contribution earcut i f)) as [out2 H2].
    { intros j g Hj. specialize (H (S j) g Hj).
      replace (S i + j)%nat with (i + S j)%nat by lia. exact H. }
    exists (out1 ++ out2). cbn [forEach_from]. rewrite H1. cbn [mbind js_bind].
    rewrite H2. rewrite imap_cons. cbn [concat]. rewrite Nat.add_0_r, <- app_assoc.
    do 5 f_equal. apply imap_ext. intros j g _. simpl. f_equal. lia.
Qed.

Lemma forEach_addProvince_Ok (fs : list feature) :
  ∀ (i : nat) (group : list mesh) out group',
    forEach_from (addProvince earcut) fs i group = (out, Ok group') →
    ∀ j f, fs !! j = Some f → processable earcut (i + j) f.
Proof.
  induction fs as [|g fs IH]; intros i group out group' H j f Hj; [discriminate Hj|].
  cbn [forEach_from] in H. apply bind_Ok_inv in H as (out1 & group1 & out2 & H1 & H2 & _).
  destruct j as [|j]; cbn in Hj.
  - inversion Hj; subst g. rewrite Nat.add_0_r. rewrite addProvince_unfold in H1.
    unfold processable. destruct (feature_properties f) as [props|]; [|discriminate H1].
    split; [eauto|]. destruct (buildAt earcut i f) as [o [r|e]]; [eauto | discriminate H1].
  - replace (i + S j)%nat with (S i + j)%nat by lia. eapply IH; eassumption.
Qed.

(** A returned group is the concatenation of the contributions. *)
Lemma createProvincesFromGeoJson_Ok (fc : featureCollection) out group :
  createProvincesFromGeoJson earcut fc = (out, Ok group) →
  group = concat (imap (contribution earcut) (features fc)).
Proof.
  intros H. unfold createProvincesFromGeoJson, forEach in H.
  destruct (forEach_addProvince_processable (features fc) 0%nat []) as [out' H'].
  { eapply forEach_addProvince_Ok, H. }
  rewrite H in H'. inversion H'. reflexivity.
Qed.

End AssemblerFacts.

Lemma build_triangle_geometry (props : option jsobject) (options : options_t) :
  default 2 (opt_radius options) = 2 →
  default 0.02 (opt_elevation options) = 0.02 →
  createProvinceMeshFromFeature earClip (Feature (Some (Polygon [triangleA])) props) options =
  ([], Ok (Some (meshOf (Feature (Some (Polygon [triangleA])) props) options
                   {| geomPositions := flat_map spread (map (project 2 0.02) triangleA);
                      geom3DVertices := map (project 2 0.02) triangleA |}))).
Proof.
  intros Hr He. rewrite createProvinceMeshFromFeature_unfold. cbn [feature_geometry].
  rewrite Hr, He, fillBuffers_triangleFeature. reflexivity.
Qed.

Lemma processable_samples (i : nat) :
  processable earClip i triangleFeature ∧
  processable earClip i pointFeature ∧
  processable earClip i twoTrianglesFeature.
Proof.
  unfold processable, buildAt.
  split; [|split]; (split; [eexists; reflexivity|]).
  - unfold triangleFeature. rewrite build_triangle_geometry by reflexivity. eauto.
  - eexists _, _. reflexivity.
  - rewrite createProvinceMeshFromFeature_unfold.
    cbn [feature_geometry twoTrianglesFeature provinceOptions opt_radius opt_elevation default].
    unfold Datatypes.id. rewrite fillBuffers_twoTrianglesFeature. eauto.
Qed.

Lemma sampleCollection_processable :
  ∀ i f, features sampleCollection !! i = Some f → processable earClip i f.
Proof.
  intros i f H. destruct (processable_samples i) as (H0 & H1 & H2).
  destruct i as [|[|[|i]]]; simpl in H; inversion H; subst; assumption.
Qed.

(** ** C6: the pickable flag *)

Lemma pickable_decorate (props : jsobject) (m : mesh) : pickable (decorate props m).
Proof.
  unfold pickable, decorate, set_userData, Object_assign. cbn [userData].
  apply lookup_union_Some_l.
  rewrite lookup_insert_ne by discriminate. rewrite lookup_insert_ne by discriminate.
  apply lookup_singleton_eq.
Qed.

Lemma pickable_meshOf (f : feature) (options : options_t) (b : buffers) :
  pickable (meshOf f options b).
Proof.
  unfold pickable, meshOf, Object_assign, isProvince_flag. cbn [userData].
  apply lookup_union_Some_l, lookup_singleton_eq.
Qed.

(** C6. Every mesh that the builder returns has [isProvince: true] in its
    metadata whatever the feature's properties hold, and so has every mesh
    of an assembled group. *)
Theorem C6_properties_cannot_disable_pickability
    (earcut : list R -> list nat -> nat -> list nat) :
  (∀ f options out m,
     createProvinceMeshFromFeature earcut f options = (out, Ok (Some m)) →
     userData m !! "isProvince" = Some (JBool true) ∧
     truthy (getprop (userData m) "isProvince") = true) ∧
  (∀ fc out group,
     createProvincesFromGeoJson earcut fc = (out, Ok group) →
     Forall (fun m => userData m !! "isProvince" = Some (JBool true)) group).
Proof.
  split.
  - intros f options out m H. rewrite createProvinceMeshFromFeature_unfold in H.
    destruct (feature_geometry f) as [g|]; [|discriminate H].
    destruct (fillBuffers earcut _ _ g) as [out' [b|e]]; [|discriminate H].
    destruct (geomPositions b); [discriminate H|]. inversion H; subst.
    pose proof (pickable_meshOf f options b) as Hp. unfold pickable in Hp.
    split; [exact Hp|]. unfold getprop. rewrite Hp. reflexivity.
  - intros fc out group H. unfold createProvincesFromGeoJson, forEach in H.
    eapply (forEach_from_inv (Forall pickable)); [| |exact H]; [|constructor].
    intros s f i out' s' Hs Hadd. rewrite addProvince_unfold in Hadd.
    destruct (feature_properties f) as [props|]; [|discriminate Hadd].
    destruct (buildAt earcut i f) as [out1 [[m|]|e]]; inversion Hadd; subst; auto.
    apply Forall_app. split; [exact Hs|]. constructor; [|constructor].
    apply pickable_decorate.
Qed.

(** Properties with [isProvince: false] still give a pickable mesh. *)
Lemma C6_witness_hostile_properties :
  default ∅ (feature_properties hostileFeature) !! "isProvince" = Some (JBool false) ∧
  ∃ m, createProvinceMeshFromFeature earClip hostileFeature no_options = ([], Ok (Some m)) ∧
       userData m !! "isProvince" = Some (JBool true) ∧
       truthy (getprop (userData m) "isProvince") = true.
Proof.
  split; [reflexivity|]. eexists. split.
  - unfold hostileFeature. apply build_triangle_geometry; reflexivity.
  - exact (proj1 (C6_properties_cannot_disable_pickability earClip) hostileFeature no_options
             [] _ (build_triangle_geometry _ no_options eq_refl eq_refl)).
Defined.

(** ** C7: order, palette, skipping *)

(** C7. The assembler returns a group exactly when no feature makes the
    callback throw, and the group is then made of the contributions of the
    features, in collection order: nothing for a feature whose build gives
    no mesh, and otherwise one mesh whose fill colour is
    [provinceColors[index mod 15]]. The result is a function of the
    collection (and of the fixed palette). *)
Theorem C7_assembly_in_order_with_palette
    (earcut : list R -> list nat -> nat -> list nat) (fc : featureCollection) :
  (∀ out group, createProvincesFromGeoJson earcut fc = (out, Ok group) →
                group = concat (imap (contribution earcut) (features fc)) ∧
                ∀ i f, features fc !! i = Some f → processable earcut i f) ∧
  ((∀ i f, features fc !! i = Some f → processable earcut i f) →
   ∃ out, createProvincesFromGeoJson earcut fc =
          (out, Ok (concat (imap (contribution earcut) (features fc))))) ∧
  (∀ i f m, features fc !! i = Some f → m ∈ contribution earcut i f →
            provinceColors !! (i mod length provinceColors)%nat
              = Some (color (mesh_material m))) ∧
  (∀ i f out, features fc !! i = Some f → buildAt earcut i f = (out, Ok None) →
              contribution earcut i f = []) ∧
  (∀ r1 r2, r1 = createProvincesFromGeoJson earcut fc →
            r2 = createProvincesFromGeoJson earcut fc → r1 = r2).
Proof.
  split; [|split; [|split; [|split]]].
  - intros out group H. split; [eapply createProvincesFromGeoJson_Ok, H|].
    unfold createProvincesFromGeoJson, forEach in H.
    apply (forEach_addProvince_Ok earcut _ 0%nat _ _ _ H).
  - intros Hok.
    destruct (forEach_addProvince_processable earcut (features fc) 0%nat []) as [out H].
    { intros j f Hj. apply Hok, Hj. }
    exists out. exact H.
  - intros i f m _ Hm. unfold contribution, buildAt in Hm.
    destruct (feature_properties f) as [props|]; [|inversion Hm].
    rewrite createProvinceMeshFromFeature_unfold in Hm.
    destruct (feature_geometry f) as [g|]; [|inversion Hm].
    destruct (fillBuffers earcut _ _ g) as [out [b|e]]; [|inversion Hm].
    destruct (geomPositions b); [inversion Hm|].
    apply list_elem_of_singleton in Hm. subst m.
    destruct (lookup_lt_is_Some_2 provinceColors (i mod length provinceColors)%nat)
      as [c Hc].
    { apply Nat.mod_upper_bound. discriminate. }
    rewrite Hc. reflexivity.
  - intros i f out _ Hb. unfold contribution. rewrite Hb.
    destruct (feature_properties f); reflexivity.
  - intros r1 r2 -> ->. reflexivity.
Qed.

(** The sample collection: a triangle, a point (skipped with a warning) and
    a two-part region, coloured with the palette entries 0 and 2. *)
Lemma C7_witness_sample_collection :
  ∃ out group,
    createProvincesFromGeoJson earClip sampleCollection = (out, Ok group) ∧
    group = contribution earClip 0 triangleFeature ++ contribution earClip 1 pointFeature ++
            contribution earClip 2 twoTrianglesFeature ∧
    contribution earClip 1 pointFeature = [] ∧
    Forall (fun m => color (mesh_material m) = 0xff6b6b%Z)
           (contribution earClip 0 triangleFeature) ∧
    Forall (fun m => color (mesh_material m) = 0x45b7d1%Z)
           (contribution earClip 2 twoTrianglesFeature).
Proof.
  destruct (C7_assembly_in_order_with_palette earClip sampleCollection)
    as (_ & Hrun & Hcolor & Hskip & _).
  destruct (Hrun sampleCollection_processable) as [out Hout].
  exists out, (concat (imap (contribution earClip) (features sampleCollection))).
  split; [exact Hout|]. split; [simpl; rewrite app_nil_r; reflexivity|].
  split; [eapply (Hskip 1%nat pointFeature); reflexivity|].
  split; apply Forall_forall; intros m Hm.
  - specialize (Hcolor 0%nat triangleFeature m eq_refl Hm). simpl in Hcolor. congruence.
  - specialize (Hcolor 2%nat twoTrianglesFeature m eq_refl Hm). simpl in Hcolor. congruence.
Defined.

(** ** C5: what a failing feature does to the others *)

(** C5 as stated fails: the first feature of [brokenCollection] has no
    geometry, the exception leaves [forEach], [initProvinces] logs it and
    adds no group to the earth, although the second feature alone gives a
    mesh. *)
Lemma C5_counterexample_absent_geometry_aborts :
  createProvinceMeshFromFeature earClip triangleFeature (provinceOptions (Some 0x4ecdc4%Z))
    ≠ ([], Ok None) ∧
  createProvincesFromGeoJson earClip brokenCollection =
    ([], Throw (TypeError "feature.geometry is null")) ∧
  initProvinces earClip ([], Ok brokenCollection) [] =
    ([Error "加载省份数据失败:" (TypeError "feature.geometry is null")], []).
Proof.
  split; [|split].
  - unfold triangleFeature. rewrite build_triangle_geometry by reflexivity. discriminate.
  - reflexivity.
  - reflexivity.
Qed.

(** C5, amended. A feature that is processed without an exception (among
    them every feature whose build gives no mesh) does not stop the loop:
    when all features are so, the group holds the contribution of every
    feature and is added to the earth. A feature that makes the callback
    throw (one without properties or without geometry does) ends the
    assembly with an exception, and [initProvinces] logs it and leaves the
    earth without a provinces group. *)
Theorem C5_failure_aborts_assembly_skip_does_not
    (earcut : list R -> list nat -> nat -> list nat) (fc : featureCollection)
    (earth : list (list mesh)) :
  ((∀ i f, features fc !! i = Some f → processable earcut i f) →
   ∃ out, createProvincesFromGeoJson earcut fc =
            (out, Ok (concat (imap (contribution earcut) (features fc)))) ∧
          initProvinces earcut ([], Ok fc) earth =
            (out, earth ++ [concat (imap (contribution earcut) (features fc))])) ∧
  (∀ i f, features fc !! i = Some f → ¬ processable earcut i f →
          ∃ out e, createProvincesFromGeoJson earcut fc = (out, Throw e) ∧
                   initProvinces earcut ([], Ok fc) earth =
                     (out ++ [Error "加载省份数据失败:" e], earth)) ∧
  (∀ i f, feature_properties f = None ∨ feature_geometry f = None →
          ¬ processable earcut i f).
Proof.
  split; [|split].
  - intros Hok.
    destruct (forEach_addProvince_processable earcut (features fc) 0%nat []) as [out H].
    { intros j f Hj. apply Hok, Hj. }
    exists out. split; [exact H|].
    unfold initProvinces. cbn [mbind js_bind].
    unfold createProvincesFromGeoJson, forEach. rewrite H. reflexivity.
  - intros i f Hi Hbad. unfold initProvinces. cbn [mbind js_bind].
    unfold createProvincesFromGeoJson, forEach.
    destruct (forEach_from (addProvince earcut) (features fc) 0 []) as [out [group|e]] eqn:H.
    + exfalso. apply Hbad. eapply (forEach_addProvince_Ok earcut _ 0%nat); eassumption.
    + exists out, e. split; reflexivity.
  - intros i f Hbad [[props Hprops] (out & r & Hb)].
    destruct Hbad as [Hbad|Hbad]; [congruence|].
    unfold buildAt in Hb. rewrite createProvinceMeshFromFeature_unfold, Hbad in Hb.
    discriminate Hb.
Qed.

(** The collection whose first feature has no geometry is not assembled. *)
Lemma C5_witness_broken_collection :
  ∃ out e, createProvincesFromGeoJson earClip brokenCollection = (out, Throw e) ∧
           initProvinces earClip ([], Ok brokenCollection) [] =
             (out ++ [Error "加载省份数据失败:" e], []).
Proof.
  destruct (C5_failure_aborts_assembly_skip_does_not earClip brokenCollection [])
    as (_ & Hthrow & Hbad).
  apply (Hthrow 0%nat noGeometryFeature eq_refl).
  apply Hbad. right. reflexivity.
Defined.

(** * Properties of the pointer controller *)

Lemma firstProvince_spec (objs : gmap nat object3d) (hits : list nat) :
  Forall (fun i => is_Some (objs !! i)) hits →
  firstProvince objs hits =
  ([], Ok (match nearestPickable objs hits with
           | Some i => match objs !! i with Some o => Some (i, o) | None => None end
           | None => None
           end)).
Proof.
  unfold nearestPickable. induction 1 as [|i hits [o Ho] _ IH]; [reflexivity|].
  cbn [firstProvince]. rewrite Ho. cbn [defined mbind js_bind mret js_ret app].
  assert (Hp : isPickable objs i = truthy (getprop (obj_userData o) "isProvince")).
  { unfold isPickable. rewrite Ho. reflexivity. }
  rewrite filter_cons.
  destruct (truthy (getprop (obj_userData o) "isProvince")) eqn:Ht.
  - rewrite decide_True by exact Hp. cbn [head]. rewrite Ho. reflexivity.
  - rewrite decide_False by (rewrite Hp; discriminate). rewrite IH. reflexivity.
Qed.

Lemma nearestPickable_Some (objs : gmap nat object3d) (hits : list nat) (i : nat) :
  nearestPickable objs hits = Some i →
  i ∈ hits ∧ ∃ o, objs !! i = Some o ∧ truthy (getprop (obj_userData o) "isProvince") = true.
Proof.
  unfold nearestPickable. intros H. apply head_Some_elem_of in H.
  apply list_elem_of_filter in H as [Hp Hin]. split; [exact Hin|].
  unfold isPickable in Hp. destruct (objs !! i) as [o|]; [|discriminate Hp]. eauto.
Qed.

Lemma onMouseMove_eq (e : mouseEvent) (s : state) :
  onMouseMove e s = hoverChange e (afterDragMark s).
Proof. reflexivity. Qed.

Lemma hover_inv_cases (s : state) :
  hover_inv s →
  (hoveredProvince s = None ∧ originalMaterials s = ∅) ∨
  (∃ h l o, hoveredProvince s = Some h ∧ originalMaterials s = {[ h := l ]} ∧
            objects s !! h = Some o).
Proof.
  intros [Hiff Hobj]. destruct (hoveredProvince s) as [h|] eqn:Hh.
  - right. destruct (proj2 (Hiff h) eq_refl) as [l Hl].
    destruct (Hobj h eq_refl) as [o Ho]. exists h, l, o.
    split; [reflexivity|]. split; [|exact Ho].
    apply map_eq. intros i. destruct (decide (i = h)) as [->|Hne].
    + rewrite lookup_singleton_eq. exact Hl.
    + rewrite lookup_singleton_ne by congruence.
      apply eq_None_not_Some. intros Hi. apply Hiff in Hi. congruence.
  - left. split; [reflexivity|]. apply map_empty. intros i.
    apply eq_None_not_Some. intros Hi. apply Hiff in Hi. discriminate.
Qed.

Lemma firstProvince_in_scene (objs : gmap nat object3d) (hits : list nat) :
  Forall (fun i => is_Some (objs !! i)) hits →
  ∃ hit, firstProvince objs hits = ([], Ok hit) ∧
         fst <$> hit = nearestPickable objs hits ∧
         (∀ i o, hit = Some (i, o) →
                 objs !! i = Some o ∧ i ∈ hits ∧
                 truthy (getprop (obj_userData o) "isProvince") = true).
Proof.
  intros H. rewrite (firstProvince_spec objs hits H). eexists. split; [reflexivity|].
  destruct (nearestPickable objs hits) as [i|] eqn:Hn.
  - apply nearestPickable_Some in Hn as (Hin & o & Ho & Ht). rewrite Ho.
    split; [reflexivity|]. intros i' o' Heq. inversion Heq; subst. auto.
  - split; [reflexivity|]. intros i o Heq. discriminate Heq.
Qed.

Lemma restorePrevious_spec (s : state) :
  scene_ok s → hover_inv s →
  originalMaterials (restorePrevious s) = ∅ ∧
  materials (restorePrevious s) = materials s ∧
  hoveredProvince (restorePrevious s) = hoveredProvince s ∧
  scene_ok (restorePrevious s) ∧
  dom (objects (restorePrevious s)) = dom (objects s) ∧
  (∀ i, hoveredProvince s ≠ Some i →
        objects (restorePrevious s) !! i = objects s !! i) ∧
  (∀ h, hoveredProvince s = Some h →
        ∃ o l, objects s !! h = Some o ∧ originalMaterials s !! h = Some l ∧
               objects (restorePrevious s) !! h = Some (set_material l o)).
Proof.
  intros [Hobj Hsaved] Hinv. unfold restorePrevious.
  destruct (hover_inv_cases s Hinv) as [[Hh Hm]|(h & l & o & Hh & Hm & Ho)]; rewrite Hh.
  - rewrite Hm. repeat split; auto.
    intros h Hc. discriminate Hc.
  - rewrite Hm, lookup_singleton_eq.
    cbn [set_hover originalMaterials materials hoveredProvince objects].
    split; [apply delete_singleton_eq|]. split; [reflexivity|]. split; [reflexivity|].
    assert (Hl : is_Some (materials s !! l)).
    { apply (Hsaved h). rewrite Hm. apply lookup_singleton_eq. }
    split; [|split; [|split]].
    + split; cbn [set_hover objects materials originalMaterials].
      * intros i oi Hi. destruct (decide (i = h)) as [->|Hne].
        -- rewrite lookup_alter_eq, Ho in Hi. inversion Hi; subst. exact Hl.
        -- rewrite lookup_alter_ne in Hi by congruence. eapply Hobj, Hi.
      * intros i li. rewrite delete_singleton_eq, lookup_empty. discriminate.
    + apply dom_alter_L.
    + intros i Hi. apply lookup_alter_ne. congruence.
    + intros h' Hh'. inversion Hh'; subst h'. exists o, l.
      split; [exact Ho|]. split; [apply lookup_singleton_eq|].
      rewrite lookup_alter_eq, Ho. reflexivity.
Qed.

Lemma highlightCurrent_spec (c : option nat) (r : state) :
  scene_ok r →
  (∀ i, c = Some i → is_Some (objects r !! i)) →
  ∃ s2, highlightCurrent c r = ([], Ok s2) ∧
        (c = None → s2 = r) ∧
        (∀ i, c = Some i →
           ∃ o m, objects r !! i = Some o ∧ materials r !! obj_material o = Some m ∧
                  materials r !! fresh (dom (materials r)) = None ∧
                  s2 = set_hover (<[i := set_material (fresh (dom (materials r))) o]> (objects r))
                                 (<[fresh (dom (materials r)) := highlightOf m]> (materials r))
                                 (hoveredProvince r)
                                 (<[i := obj_material o]> (originalMaterials r)) r).
Proof.
  intros [Hobj _] Hc. destruct c as [i|].
  - destruct (Hc i eq_refl) as [o Ho]. destruct (Hobj i o Ho) as [m Hm].
    cbn [highlightCurrent]. rewrite Ho. cbn [defined mbind js_bind mret js_ret].
    rewrite Hm. cbn [defined mbind js_bind mret js_ret app].
    eexists. split; [reflexivity|]. split; [discriminate|].
    intros i' Hi'. inversion Hi'; subst i'. exists o, m.
    split; [exact Ho|]. split; [exact Hm|]. split; [|reflexivity].
    apply not_elem_of_dom, is_fresh.
  - exists r. split; [reflexivity|]. split; [reflexivity|]. intros i Hi. discriminate Hi.
Qed.

Lemma move_frame_refl (s : state) : move_frame s s.
Proof.
  repeat split; auto.
  - intros c Hc Hnc. contradiction.
  - intros h Hh Hnh. contradiction.
Qed.

Lemma hoverChange_step (e : mouseEvent) (s : state) :
  scene_ok s → hover_inv s → hits_in (objects s) e →
  ∃ s', hoverChange e s = ([], Ok s') ∧
        scene_ok s' ∧ hover_inv s' ∧
        dom (objects s') = dom (objects s) ∧
        move_frame s s' ∧
        hoveredProvince s' = nearestPickable (objects s) (intersects e).
Proof.
  intros Hok Hinv Hhits.
  destruct (firstProvince_in_scene (objects s) (intersects e) Hhits)
    as (hit & Hfirst & Hc & Hhit).
  unfold hoverChange. rewrite Hfirst. cbn [mbind js_bind app]. rewrite Hc.
  set (c := nearestPickable (objects s) (intersects e)) in *.
  destruct (decide (c = hoveredProvince s)) as [Heq|Hne].
  { exists s. repeat split; try assumption; try apply Hok; try apply Hinv;
      try apply move_frame_refl; auto. }
  destruct (restorePrevious_spec s Hok Hinv)
    as (HRsaved & HRmats & HRhov & HRok & HRdom & HRother & HRold).
  assert (Hcin : ∀ i, c = Some i → ∃ o, objects s !! i = Some o ∧ hit = Some (i, o)).
  { intros i Hi. destruct hit as [[i' o]|]; [|rewrite <- Hc in Hi; discriminate Hi].
    rewrite <- Hc in Hi. inversion Hi; subst i'. exists o. split; [|reflexivity].
    apply (Hhit i o eq_refl). }
  destruct (highlightCurrent_spec c (restorePrevious s) HRok) as (s2 & Hs2 & HNone & HSome).
  { intros i Hi. destruct (Hcin i Hi) as (o & Ho & _).
    apply elem_of_dom. rewrite HRdom. apply elem_of_dom. eauto. }
  rewrite Hs2. cbn [mbind js_bind mret js_ret app].
  eexists. split; [reflexivity|].
  destruct c as [i|].
  - destruct (HSome i eq_refl) as (o & m & Ho & Hm & Hfresh & ->).
    destruct (Hcin i eq_refl) as (o' & Ho' & _).
    assert (Hih : hoveredProvince s ≠ Some i) by congruence.
    rewrite HRother in Ho by exact Hih. rewrite Ho in Ho'. inversion Ho'; subst o'.
    rewrite HRmats in Hm, Hfresh. rewrite HRmats, HRsaved.
    cbn [set_hover objects materials originalMaterials hoveredProvince].
    set (l' := fresh (dom (materials s))) in *.
    split; [|split; [|split; [|split]]].
    + (* scene_ok *)
      split; cbn [set_hover objects materials originalMaterials hoveredProvince].
      * intros j oj Hj. apply lookup_insert_Some in Hj as [[<- <-]|[Hji Hj]].
        -- cbn [set_material obj_material]. rewrite lookup_insert_eq. eauto.
        -- apply lookup_insert_is_Some'. right.
           rewrite <- HRmats. eapply (proj1 HRok), Hj.
      * intros j lj Hj. apply lookup_insert_Some in Hj as [[<- <-]|[Hji Hj]].
        -- apply lookup_insert_is_Some'. right. eauto.
        -- rewrite lookup_empty in Hj. discriminate Hj.
    + (* hover_inv *)
      split; cbn [set_hover objects materials originalMaterials hoveredProvince].
      * intros j. rewrite lookup_insert_is_Some, lookup_empty. split.
        -- intros [->|[_ [x Hx]]]; [reflexivity | discriminate Hx].
        -- intros Hj. inversion Hj. auto.
      * intros j Hj. inversion Hj; subst j. rewrite lookup_insert_eq. eauto.
    + (* dom *)
      rewrite dom_insert_lookup_L; [exact HRdom|].
      rewrite HRother by exact Hih. eauto.
    + (* frame *)
      unfold move_frame. cbn [set_hover objects materials originalMaterials hoveredProvince].
      split; [|split; [|split; [|split]]].
      * intros l m0 Hl. rewrite lookup_insert_ne; [exact Hl|]. congruence.
      * intros c Hc' _. inversion Hc'; subst c. exists o, m, l'.
        rewrite !lookup_insert_eq. auto 10.
      * intros h Hh _. destruct (HRold h Hh) as (oh & lh & Hoh & Hlh & HRh).
        exists oh, lh. split; [exact Hoh|]. split; [exact Hlh|].
        assert (h ≠ i) by congruence.
        rewrite !lookup_insert_ne by congruence. rewrite lookup_empty. auto.
      * intros j Hj Hj'. rewrite lookup_insert_ne by congruence. apply HRother, Hj.
      * intros Heq. congruence.
    + reflexivity.
  - rewrite (HNone eq_refl). clear HNone HSome Hs2.
    cbn [set_hover objects materials originalMaterials hoveredProvince].
    split; [|split; [|split; [|split]]].
    + split; cbn [set_hover objects materials originalMaterials hoveredProvince];
        apply HRok.
    + split; cbn [set_hover objects materials originalMaterials hoveredProvince].
      * intros j. rewrite HRsaved, lookup_empty. split; [intros [x Hx]|intros Hx]; discriminate Hx.
      * intros j Hj. discriminate Hj.
    + exact HRdom.
    + unfold move_frame. cbn [set_hover objects materials originalMaterials hoveredProvince].
      split; [|split; [|split; [|split]]].
      * intros l m Hl. rewrite HRmats. exact Hl.
      * intros c Hc' _. discriminate Hc'.
      * intros h Hh _. destruct (HRold h Hh) as (oh & lh & Hoh & Hlh & HRh).
        exists oh, lh. rewrite HRsaved, lookup_empty. auto.
      * intros j Hj _. apply HRother, Hj.
      * intros Heq. congruence.
    + reflexivity.
Qed.

Lemma afterDragMark_scene (s : state) :
  objects (afterDragMark s) = objects s ∧
  materials (afterDragMark s) = materials s ∧
  hoveredProvince (afterDragMark s) = hoveredProvince s ∧
  originalMaterials (afterDragMark s) = originalMaterials s.
Proof. unfold afterDragMark. destruct (0 <? mouseDownTime s)%Z; auto. Qed.

Lemma onMouseMove_step (e : mouseEvent) (s : state) :
  scene_ok s → hover_inv s → hits_in (objects s) e →
  ∃ s', onMouseMove e s = ([], Ok s') ∧
        scene_ok s' ∧ hover_inv s' ∧
        dom (objects s') = dom (objects s) ∧
        move_frame s s' ∧
        hoveredProvince s' = nearestPickable (objects s) (intersects e).
Proof.
  intros Hok Hinv Hhits. rewrite onMouseMove_eq.
  destruct (afterDragMark_scene s) as (Ho & Hm & Hh & Hs).
  destruct (hoverChange_step e (afterDragMark s)) as (s' & Hrun & H).
  - unfold scene_ok. rewrite Ho, Hm, Hs. exact Hok.
  - unfold hover_inv. rewrite Ho, Hh, Hs. exact Hinv.
  - rewrite Ho. exact Hhits.
  - exists s'. split; [exact Hrun|].
    unfold move_frame in *. rewrite Ho, Hm, Hh, Hs in H. exact H.
Qed.

Lemma handleValidClick_spec (e : mouseEvent) (s : state) :
  hits_in (objects s) e →
  handleValidClick e s =
  ([], Ok match nearestPickable (objects s) (intersects e) with
          | Some i =>
              match objects s !! i with
              | Some o => handleProvinceClick (getprop (obj_userData o) "provinceName") s
              | None => s
              end
          | None => s
          end).
Proof.
  intros Hhits. unfold handleValidClick.
  rewrite (firstProvince_spec _ _ Hhits). cbn [mbind js_bind app].
  destruct (nearestPickable (objects s) (intersects e)) as [i|]; [|reflexivity].
  destruct (objects s !! i); reflexivity.
Qed.

Lemma onMouseUp_spec (e : mouseEvent) (s : state) :
  hits_in (objects s) e →
  onMouseUp e s =
  ([], Ok {| objects := objects s; materials := materials s;
             isDragging := false; mouseDownTime := 0%Z;
             mouseDownPosition := mouseDownPosition s;
             hoveredProvince := hoveredProvince s;
             originalMaterials := originalMaterials s;
             selections := selections s ++ selectionOf e s |}).
Proof.
  intros Hhits. unfold onMouseUp, selectionOf.
  destruct (validClick e s).
  - rewrite (handleValidClick_spec e s Hhits). cbn [mbind js_bind app mret js_ret].
    destruct (nearestPickable (objects s) (intersects e)) as [i|].
    + destruct (objects s !! i); unfold set_drag, handleProvinceClick; cbn;
        rewrite ?app_nil_r; reflexivity.
    + unfold set_drag. cbn. rewrite app_nil_r. reflexivity.
  - unfold set_drag. cbn. rewrite app_nil_r. reflexivity.
Qed.

Lemma dispatch_step (ev : event) (s : state) :
  scene_ok s → hover_inv s → hits_in (objects s) (mouseEventOf ev) →
  ∃ s', dispatch ev s = ([], Ok s') ∧ scene_ok s' ∧ hover_inv s' ∧
        dom (objects s') = dom (objects s).
Proof.
  intros Hok Hinv Hhits. destruct ev as [e|e|e]; cbn [dispatch mouseEventOf] in *.
  - exists (onMouseDown e s). split; [reflexivity|]. auto.
  - destruct (onMouseMove_step e s Hok Hinv Hhits) as (s' & H1 & H2 & H3 & H4 & _).
    eauto.
  - rewrite (onMouseUp_spec e s Hhits). eexists. split; [reflexivity|]. auto.
Qed.

Lemma hits_in_dom (objs objs' : gmap nat object3d) (e : mouseEvent) :
  dom objs' = dom objs → hits_in objs e → hits_in objs' e.
Proof.
  intros Hdom H. unfold hits_in in *. eapply Forall_impl; [exact H|].
  intros i Hi. cbv beta in *. apply elem_of_dom. rewrite Hdom. apply elem_of_dom, Hi.
Qed.

Lemma run_steps (evs : list event) :
  ∀ s, scene_ok s → hover_inv s →
       Forall (fun ev => hits_in (objects s) (mouseEventOf ev)) evs →
       ∃ s', run evs s = ([], Ok s') ∧ scene_ok s' ∧ hover_inv s' ∧
             dom (objects s') = dom (objects s).
Proof.
  induction evs as [|ev evs IH]; intros s Hok Hinv Hevs.
  - exists s. auto.
  - inversion Hevs as [|? ? Hev Hevs']; subst.
    destruct (dispatch_step ev s Hok Hinv Hev) as (s1 & H1 & Hok1 & Hinv1 & Hdom1).
    destruct (IH s1 Hok1 Hinv1) as (s' & H2 & Hok' & Hinv' & Hdom').
    { eapply Forall_impl; [exact Hevs'|]. intros ev' Hev'.
      eapply hits_in_dom; eassumption. }
    exists s'. cbn [run]. rewrite H1. cbn [mbind js_bind]. rewrite H2.
    repeat split; try assumption; try apply Hok'; try apply Hinv'. congruence.
Qed.

Lemma initRaycaster_ok (objs : gmap nat object3d) (mats : gmap nat material) :
  (∀ i o, objs !! i = Some o → is_Some (mats !! obj_material o)) →
  scene_ok (initRaycaster objs mats) ∧ hover_inv (initRaycaster objs mats).
Proof.
  intros H. repeat split; cbn [initRaycaster objects materials hoveredProvince originalMaterials].
  - exact H.
  - intros i l Hl. rewrite lookup_empty in Hl. discriminate Hl.
  - intros [x Hx]. rewrite lookup_empty in Hx. discriminate Hx.
  - intros Hx. discriminate Hx.
  - intros i Hi. discriminate Hi.
Qed.

(** ** C2: the hover invariant *)

Lemma size_saved_le_1 (s : state) : hover_inv s → (size (originalMaterials s) ≤ 1)%nat.
Proof.
  intros Hinv. destruct (hover_inv_cases s Hinv) as [[_ ->]|(h & l & o & _ & -> & _)].
  - rewrite map_size_empty. lia.
  - rewrite map_size_singleton. lia.
Qed.

(** C2. From the initial controller state over a fixed scene, after any
    sequence of mouse events (moves, and downs and ups as well) whose ray
    casts hit objects of the scene: the saved-material map has an entry for
    an object if and only if it is the hovered one, so it has at most one
    entry; and when the next move changes the hover away from [h], the
    restore step comes first: it reinstalls the saved material of [h] and
    empties the map, and the highlight step runs on the restored state. *)
Theorem C2_saved_material_iff_hovered
    (objs : gmap nat object3d) (mats : gmap nat material) (evs : list event) :
  map_Forall (fun _ o => is_Some (mats !! obj_material o)) objs →
  Forall (fun ev => hits_in objs (mouseEventOf ev)) evs →
  ∃ s, run evs (initRaycaster objs mats) = ([], Ok s) ∧
       (∀ i, is_Some (originalMaterials s !! i) ↔ hoveredProvince s = Some i) ∧
       (size (originalMaterials s) ≤ 1)%nat ∧
       (∀ e h, hits_in objs e → hoveredProvince s = Some h →
          nearestPickable (objects s) (intersects e) ≠ Some h →
          let restored := restorePrevious (afterDragMark s) in
          (∃ o l, objects s !! h = Some o ∧ originalMaterials s !! h = Some l ∧
                  objects restored !! h = Some (set_material l o)) ∧
          originalMaterials restored = ∅ ∧
          onMouseMove e s =
            (s2 ← highlightCurrent (nearestPickable (objects s) (intersects e)) restored;
             mret (set_hover (objects s2) (materials s2)
                     (nearestPickable (objects s) (intersects e))
                     (originalMaterials s2) s2))).
Proof.
  intros Hwf Hevs.
  destruct (initRaycaster_ok objs mats Hwf) as [Hok0 Hinv0].
  destruct (run_steps evs (initRaycaster objs mats) Hok0 Hinv0 Hevs)
    as (s & Hrun & Hok & Hinv & Hdom).
  exists s. split; [exact Hrun|]. split; [apply Hinv|].
  split; [apply size_saved_le_1, Hinv|].
  intros e h Hhits Hh Hne restored.
  destruct (afterDragMark_scene s) as (Ho & Hm & Hhov & Hs).
  assert (Hok' : scene_ok (afterDragMark s)).
  { unfold scene_ok. rewrite Ho, Hm, Hs. exact Hok. }
  assert (Hinv' : hover_inv (afterDragMark s)).
  { unfold hover_inv. rewrite Ho, Hhov, Hs. exact Hinv. }
  destruct (restorePrevious_spec (afterDragMark s) Hok' Hinv')
    as (HRsaved & _ & _ & _ & _ & _ & HRold).
  rewrite Hhov, Ho, Hs in HRold.
  split; [exact (HRold h Hh)|]. split; [exact HRsaved|].
  rewrite onMouseMove_eq. unfold hoverChange. rewrite Ho, Hhov.
  assert (Hhits' : hits_in (objects s) e) by (eapply hits_in_dom; eassumption).
  destruct (firstProvince_in_scene (objects s) (intersects e) Hhits')
    as (hit & Hfirst & Hc & _).
  rewrite Hfirst. cbn [mbind js_bind app]. rewrite Hc.
  rewrite decide_False by congruence.
  destruct (highlightCurrent _ _) as [out [s2|err]]; reflexivity.
Qed.

(** ** C10: a move leaves the stored materials alone *)

(** C10. In any state reached from the initial one, a move event with hits
    in the scene returns a state in which: every material object stored
    before is stored unchanged; an object that becomes hovered has its
    previous material reference saved, and carries a reference that was not
    in use before and that holds the highlighted copy of the previous
    material; an object that stops being hovered carries exactly the saved
    reference again; every other object keeps its entry; and nothing changes
    when the hovered object stays the same. *)
Theorem C10_move_never_mutates_stored_materials
    (objs : gmap nat object3d) (mats : gmap nat material) (evs : list event)
    (e : mouseEvent) :
  map_Forall (fun _ o => is_Some (mats !! obj_material o)) objs →
  Forall (fun ev => hits_in objs (mouseEventOf ev)) evs →
  hits_in objs e →
  ∃ s s', run evs (initRaycaster objs mats) = ([], Ok s) ∧
          onMouseMove e s = ([], Ok s') ∧
          hoveredProvince s' = nearestPickable (objects s) (intersects e) ∧
          (∀ l m, materials s !! l = Some m → materials s' !! l = Some m) ∧
          (∀ c, hoveredProvince s' = Some c → hoveredProvince s ≠ Some c →
             ∃ o m l', objects s !! c = Some o ∧ materials s !! obj_material o = Some m ∧
                       originalMaterials s' !! c = Some (obj_material o) ∧
                       materials s !! l' = None ∧
                       objects s' !! c = Some (set_material l' o) ∧
                       materials s' !! l' = Some (highlightOf m)) ∧
          (∀ h, hoveredProvince s = Some h → hoveredProvince s' ≠ Some h →
             ∃ o l, objects s !! h = Some o ∧ originalMaterials s !! h = Some l ∧
                    objects s' !! h = Some (set_material l o) ∧
                    originalMaterials s' !! h = None) ∧
          (∀ i, hoveredProvince s ≠ Some i → hoveredProvince s' ≠ Some i →
                objects s' !! i = objects s !! i) ∧
          (hoveredProvince s' = hoveredProvince s →
           objects s' = objects s ∧ materials s' = materials s ∧
           originalMaterials s' = originalMaterials s).
Proof.
  intros Hwf Hevs Hhits.
  destruct (initRaycaster_ok objs mats Hwf) as [Hok0 Hinv0].
  destruct (run_steps evs (initRaycaster objs mats) Hok0 Hinv0 Hevs)
    as (s & Hrun & Hok & Hinv & Hdom).
  assert (Hhits' : hits_in (objects s) e) by (eapply hits_in_dom; eassumption).
  destruct (onMouseMove_step e s Hok Hinv Hhits') as (s' & Hmove & _ & _ & _ & Hframe & Hhov).
  exists s, s'. split; [exact Hrun|]. split; [exact Hmove|]. split; [exact Hhov|].
  exact Hframe.
Qed.

Lemma sampleScene_wf :
  map_Forall (fun _ o => is_Some (sampleMaterials !! obj_material o)) sampleObjects.
Proof.
  intros i o H. unfold sampleObjects in H.
  apply lookup_insert_Some in H as [[<- <-]|[_ H]]; [eexists; reflexivity|].
  apply lookup_insert_Some in H as [[<- <-]|[_ H]]; [eexists; reflexivity|].
  apply lookup_singleton_Some in H as [<- <-]. eexists; reflexivity.
Qed.

Lemma sample_hits_in (x y t : Z) :
  hits_in sampleObjects (overAlpha x y t) ∧ hits_in sampleObjects (overBeta x y t) ∧
  hits_in sampleObjects (overSea x y t) ∧ hits_in sampleObjects (overSky x y t).
Proof. unfold hits_in. repeat split; repeat constructor; eexists; reflexivity. Qed.

Lemma sampleMoves_in_scene :
  Forall (fun ev => hits_in sampleObjects (mouseEventOf ev)) sampleMoves.
Proof.
  unfold sampleMoves. constructor; [|constructor; [|constructor]]; cbn [mouseEventOf].
  - apply (sample_hits_in 100 100 1000).
  - apply (sample_hits_in 200 100 1010).
Qed.

(** After the two moves, Beta is hovered and is the only saved entry, and
    Alpha carries its original material again. *)
Example sampleMoves_result :
  ∃ s, run sampleMoves (initRaycaster sampleObjects sampleMaterials) = ([], Ok s) ∧
       hoveredProvince s = Some 2%nat ∧
       originalMaterials s = {[ 2%nat := 2%nat ]} ∧
       obj_material <$> objects s !! 1%nat = Some 1%nat ∧
       obj_material <$> objects s !! 2%nat = Some 4%nat ∧
       materials s !! 4%nat = Some (highlightOf (provinceMaterial 0x4ecdc4)) ∧
       materials s !! 2%nat = Some (provinceMaterial 0x4ecdc4).
Proof. eexists. split; [vm_compute; reflexivity|]. vm_compute. repeat split. Qed.

(** After the two sample moves Beta (object 2) is hovered; a further move
    over the sea first restores Beta. *)
Lemma C2_witness_two_moves :
  ∃ s, run sampleMoves (initRaycaster sampleObjects sampleMaterials) = ([], Ok s) ∧
       (∀ i, is_Some (originalMaterials s !! i) ↔ hoveredProvince s = Some i) ∧
       (size (originalMaterials s) ≤ 1)%nat ∧
       (∃ o l, objects s !! 2%nat = Some o ∧ originalMaterials s !! 2%nat = Some l ∧
               objects (restorePrevious (afterDragMark s)) !! 2%nat
                 = Some (set_material l o)) ∧
       originalMaterials (restorePrevious (afterDragMark s)) = ∅.
Proof.
  destruct (C2_saved_material_iff_hovered sampleObjects sampleMaterials sampleMoves
              sampleScene_wf sampleMoves_in_scene) as (s & Hrun & Hiff & Hsize & Hnext).
  exists s. split; [exact Hrun|]. split; [exact Hiff|]. split; [exact Hsize|].
  destruct sampleMoves_result as (s0 & Hrun0 & Hh & _).
  rewrite Hrun in Hrun0. inversion Hrun0; subst s0.
  destruct (Hnext (overSea 300 100 1020) 2%nat
              (proj1 (proj2 (proj2 (sample_hits_in 300 100 1020)))) Hh)
    as (Hrestore & Hempty & _).
  - cbn [overSea intersects]. unfold nearestPickable.
    intros Hc. apply head_Some_elem_of, list_elem_of_filter in Hc as [_ Hc].
    apply list_elem_of_singleton in Hc. discriminate Hc.
  - split; [exact Hrestore | exact Hempty].
Defined.

(** Moving from Beta to the sea leaves every stored material as it was. *)
Lemma C10_witness_move_to_sea :
  ∃ s s', run sampleMoves (initRaycaster sampleObjects sampleMaterials) = ([], Ok s) ∧
          onMouseMove (overSea 300 100 1020) s = ([], Ok s') ∧
          hoveredProvince s' = nearestPickable (objects s) [0%nat] ∧
          (∀ l m, materials s !! l = Some m → materials s' !! l = Some m).
Proof.
  destruct (C10_move_never_mutates_stored_materials sampleObjects sampleMaterials sampleMoves
              (overSea 300 100 1020) sampleScene_wf sampleMoves_in_scene
              (proj1 (proj2 (proj2 (sample_hits_in 300 100 1020)))))
    as (s & s' & Hrun & Hmove & Hhov & Hmat & _).
  exists s, s'. auto.
Defined.

(** ** C3: click or drag *)

Lemma moveDistance_lt_5_spec (e : mouseEvent) (s : state) :
  moveDistance_lt_5 e s = true ↔ moveDistance e s < 5.
Proof.
  unfold moveDistance_lt_5, moveDistance.
  set (dx := (clientX e - fst (mouseDownPosition s))%Z).
  set (dy := (clientY e - snd (mouseDownPosition s))%Z).
  cbv zeta. rewrite Z.ltb_lt.
  replace (IZR dx ^ 2 + IZR dy ^ 2) with (IZR (dx * dx + dy * dy))
    by (rewrite plus_IZR, !mult_IZR; ring).
  assert (Hn : (0 <= dx * dx + dy * dy)%Z) by nia.
  apply IZR_le in Hn.
  replace 5 with (sqrt 25) at 1 by (replace 25 with (5 * 5) by lra; apply sqrt_square; lra).
  split.
  - intros H. apply IZR_lt in H. apply sqrt_lt_1_alt. lra.
  - intros H. apply sqrt_lt_0_alt in H. apply lt_IZR. exact H.
Qed.

Lemma validClick_spec (e : mouseEvent) (s : state) :
  validClick e s = true ↔ validSelection e s.
Proof.
  unfold validClick, validSelection.
  rewrite !andb_true_iff, Z.ltb_lt, moveDistance_lt_5_spec, negb_true_iff. tauto.
Qed.

(** C3 as stated fails: a short, still click over empty sky meets the three
    conditions and emits nothing. *)
Lemma C3_counterexample_valid_click_hits_nothing :
  let s := onMouseDown (overSky 100 100 1000) (initRaycaster sampleObjects sampleMaterials) in
  let up := overSky 100 100 1050 in
  (clickDuration up s < 200)%Z ∧ moveDistance up s < 5 ∧ isDragging s = false ∧
  ∃ s', onMouseUp up s = ([], Ok s') ∧ selections s' = selections s.
Proof.
  intros s up.
  split; [reflexivity|]. split; [apply moveDistance_lt_5_spec; reflexivity|].
  split; [reflexivity|]. eexists. split; [vm_compute; reflexivity|]. reflexivity.
Qed.

(** C3, amended. A mouse-up whose ray cast hits objects of the scene emits a
    selection if and only if the click lasted under 200 ms, moved under 5
    units, was not a drag, and the ray cast at the up position hits a
    pickable object; the selection carries the [provinceName] of the nearest
    such object. In every case the mouse-up resets [mouseDownTime] to 0 and
    [isDragging] to false, and leaves the scene and the hover state alone. *)
Theorem C3_selection_iff_valid_click_on_pickable (e : mouseEvent) (s : state) :
  hits_in (objects s) e →
  ∃ s', onMouseUp e s = ([], Ok s') ∧
        mouseDownTime s' = 0%Z ∧ isDragging s' = false ∧
        ((∃ v, selections s' = selections s ++ [v]) ↔
         validSelection e s ∧ is_Some (nearestPickable (objects s) (intersects e))) ∧
        (∀ i o, validSelection e s →
                nearestPickable (objects s) (intersects e) = Some i →
                objects s !! i = Some o →
                selections s' = selections s ++ [getprop (obj_userData o) "provinceName"]) ∧
        (¬ (validSelection e s ∧ is_Some (nearestPickable (objects s) (intersects e))) →
         selections s' = selections s) ∧
        objects s' = objects s ∧ materials s' = materials s ∧
        hoveredProvince s' = hoveredProvince s ∧
        originalMaterials s' = originalMaterials s.
Proof.
  intros Hhits. rewrite (onMouseUp_spec e s Hhits). eexists. split; [reflexivity|].
  cbn [mouseDownTime isDragging selections objects materials hoveredProvince originalMaterials].
  split; [reflexivity|]. split; [reflexivity|].
  assert (Hsel : selectionOf e s =
                 match nearestPickable (objects s) (intersects e) with
                 | Some i =>
                     match objects s !! i with
                     | Some o => if validClick e s
                                 then [getprop (obj_userData o) "provinceName"] else []
                     | None => []
                     end
                 | None => []
                 end).
  { unfold selectionOf. destruct (validClick e s); [reflexivity|].
    destruct (nearestPickable _ _) as [i|]; [|reflexivity].
    destruct (objects s !! i); reflexivity. }
  rewrite Hsel. clear Hsel.
  pose proof (validClick_spec e s) as Hv.
  assert (Hgrow : ∀ (l : list jsval) v, l = l ++ [v] → False).
  { intros l v Hl. apply (f_equal length) in Hl. rewrite length_app in Hl.
    simpl in Hl. lia. }
  destruct (nearestPickable (objects s) (intersects e)) as [i|] eqn:Hn.
  - destruct (nearestPickable_Some _ _ _ Hn) as (_ & o & Ho & _). rewrite Ho.
    destruct (validClick e s).
    + assert (validSelection e s) by (apply Hv; reflexivity).
      split; [|split; [|split; [|repeat split; reflexivity]]].
      * split; [intros _; split; [assumption|eauto] | intros _; eexists; reflexivity].
      * intros i' o' _ Hi' Ho'. inversion Hi'; subst. rewrite Ho in Ho'.
        inversion Ho'; subst. reflexivity.
      * intros Hnot. exfalso. apply Hnot. eauto.
    + assert (¬ validSelection e s) by (intros Hs; apply Hv in Hs; discriminate Hs).
      rewrite app_nil_r.
      split; [|split; [|split; [|repeat split; reflexivity]]].
      * split; [intros [v Hv']; exfalso; eapply Hgrow, Hv' | intros [Hs _]; contradiction].
      * intros i' o' Hs. contradiction.
      * intros _. reflexivity.
  - rewrite app_nil_r.
    split; [|split; [|split; [|repeat split; reflexivity]]].
    + split; [intros [v Hv']; exfalso; eapply Hgrow, Hv' | intros [_ [x Hx]]; discriminate Hx].
    + intros i o _ Hi. discriminate Hi.
    + intros _. reflexivity.
Qed.

(** A short, still click on Alpha selects Alpha and resets the drag state. *)
Lemma C3_witness_click_on_alpha :
  let s := onMouseDown (overAlpha 100 100 1000) (initRaycaster sampleObjects sampleMaterials) in
  ∃ s', onMouseUp (overAlpha 100 100 1050) s = ([], Ok s') ∧
        mouseDownTime s' = 0%Z ∧ isDragging s' = false ∧
        selections s' = [JStr "Alpha"].
Proof.
  intros s.
  destruct (C3_selection_iff_valid_click_on_pickable (overAlpha 100 100 1050) s
              (proj1 (sample_hits_in 100 100 1050)))
    as (s' & Hrun & Ht & Hd & _ & Hsel & _).
  exists s'. split; [exact Hrun|]. split; [exact Ht|]. split; [exact Hd|].
  apply (Hsel 1%nat (Object3d 1 (provinceData "Alpha"))).
  - apply validClick_spec. reflexivity.
  - reflexivity.
  - reflexivity.
Defined.

(** The click scenarios of the spec, with the pointer-down at time 1000. *)
Example click_scenario_short_still_click :
  selectionsAfter [MouseDown (overAlpha 100 100 1000); MouseUp (overAlpha 100 100 1050)]
    (initRaycaster sampleObjects sampleMaterials) = Some [JStr "Alpha"].
Proof. vm_compute. reflexivity. Qed.

Example click_scenario_drag :
  selectionsAfter [MouseDown (overAlpha 100 100 1000); MouseMove (overAlpha 250 100 1010);
                   MouseUp (overAlpha 250 100 1060)]
    (initRaycaster sampleObjects sampleMaterials) = Some [].
Proof. vm_compute. reflexivity. Qed.

Example click_scenario_too_slow :
  selectionsAfter [MouseDown (overAlpha 100 100 1000); MouseUp (overAlpha 100 100 1500)]
    (initRaycaster sampleObjects sampleMaterials) = Some [].
Proof. vm_compute. reflexivity. Qed.

(** * Further properties of the builder *)

Lemma pick_app_l (vs ws : list vertex) (triangles : list nat) (picked : list vertex) :
  pick vs triangles = Some picked → pick (vs ++ ws) triangles = Some picked.
Proof.
  unfold pick. rewrite !mapM_Some. intros H.
  eapply Forall2_impl; [exact H|]. intros i v Hi. cbv beta in *.
  apply lookup_app_l_Some, Hi.
Qed.

Lemma pick_app (vs : list vertex) (t1 t2 : list nat) (p1 p2 : list vertex) :
  pick vs t1 = Some p1 → pick vs t2 = Some p2 → pick vs (t1 ++ t2) = Some (p1 ++ p2).
Proof. unfold pick. rewrite !mapM_Some. apply Forall2_app. Qed.

Lemma pick_in_range (vs : list vertex) (triangles : list nat) (picked : list vertex) :
  pick vs triangles = Some picked → Forall (fun i => (i < length vs)%nat) triangles.
Proof.
  unfold pick. rewrite mapM_Some. induction 1 as [|i v l k Hi _ IH]; constructor; [|exact IH].
  eapply lookup_lt_Some, Hi.
Qed.

Section MoreBuilderFacts.

Variable earcut : list R -> list nat -> nat -> list nat.
Variables radius elevation : R.

(** Running [processPolygon] over the polygons of a feature: every index
    list is resolved in the vertex list as it stands at the end. *)
Lemma forEach_processPolygon_shared (polys : list polygon) :
  ∀ i b out b',
    forEach_from (fun b p (_ : nat) => processPolygon earcut radius elevation p b) polys i b
      = (out, Ok b') →
    geom3DVertices b' =
      geom3DVertices b ++ map (project radius elevation) (concat (concat polys)) ∧
    ∃ picked,
      pick (geom3DVertices b') (concat (map (triangulation earcut) polys)) = Some picked ∧
      geomPositions b' = geomPositions b ++ flat_map spread picked.
Proof.
  induction polys as [|p polys IH]; intros i b out b' H.
  - inversion H; subst. simpl. rewrite app_nil_r. split; [reflexivity|].
    exists []. simpl. rewrite app_nil_r. split; reflexivity.
  - cbn [forEach_from] in H.
    apply bind_Ok_inv in H as (out1 & b1 & out2 & H1 & H2 & _).
    apply processPolygon_inv in H1 as (_ & Hv1 & _ & picked1 & Hp1 & Hpos1).
    destruct (IH _ _ _ _ H2) as (Hv & picked2 & Hp2 & Hpos).
    split.
    + rewrite Hv, Hv1. cbn [concat]. rewrite concat_app, map_app, <- app_assoc. reflexivity.
    + exists (picked1 ++ picked2). cbn [map concat]. split.
      * apply pick_app; [|exact Hp2]. rewrite Hv. apply pick_app_l, Hp1.
      * rewrite Hpos, Hpos1, flat_map_app, <- app_assoc. reflexivity.
Qed.

End MoreBuilderFacts.

(** The vertices of a built mesh: whole triangles of projected points. *)
Lemma built_mesh_vertices
    (earcut : list R -> list nat -> nat -> list nat) f options out m :
  createProvinceMeshFromFeature earcut f options = (out, Ok (Some m)) →
  ∃ vs k, positions m = flat_map spread vs ∧ length vs = (3 * k)%nat ∧
          Forall (projected (default 2 (opt_radius options))
                            (default 0.02 (opt_elevation options))) vs.
Proof.
  intros H. rewrite createProvinceMeshFromFeature_unfold in H.
  destruct (feature_geometry f) as [g|]; [|discriminate H].
  destruct (fillBuffers earcut _ _ g) as [out' [b|e]] eqn:Hb; [|discriminate H].
  destruct (fillBuffers_ok earcut _ _ g out' b Hb) as [(vs & k & Hpos & Hlen & Hvs) _].
  destruct (geomPositions b) as [|x pos] eqn:E; [discriminate H|].
  inversion H; subst. cbn [positions meshOf]. rewrite E. eauto.
Qed.

(** X1. For a Polygon feature the builder logs nothing and the buffer of the
    returned mesh is made of the polygon's own projected vertices, selected
    by the triangulator's index list in the order of that list. *)
Theorem X1_polygon_feature_resolves_own_vertices
    (earcut : list R -> list nat -> nat -> list nat) (f : feature) (options : options_t)
    (rings : polygon) out m :
  feature_geometry f = Some (Polygon rings) →
  createProvinceMeshFromFeature earcut f options = (out, Ok (Some m)) →
  let radius := default 2 (opt_radius options) in
  let elevation := default 0.02 (opt_elevation options) in
  out = [] ∧
  ∃ picked,
    Forall2 (fun i v => map (project radius elevation) (concat rings) !! i = Some v)
            (triangulation earcut rings) picked ∧
    positions m = flat_map spread picked.
Proof.
  intros Hg H radius elevation. rewrite createProvinceMeshFromFeature_unfold, Hg in H.
  fold radius elevation in H. cbn [fillBuffers] in H.
  destruct (processPolygon earcut radius elevation rings empty_buffers)
    as [out' [b|e]] eqn:Hb; [|discriminate H].
  apply processPolygon_inv in Hb as (-> & Hv & _ & picked & Hp & Hpos).
  destruct (geomPositions b) as [|x pos] eqn:E; [discriminate H|].
  inversion H; subst. split; [reflexivity|]. exists picked.
  cbn [positions meshOf]. rewrite E. split; [|exact Hpos].
  rewrite Hv in Hp. apply mapM_Some in Hp. exact Hp.
Qed.

(** The sample triangle: its three vertices, in the order [0; 1; 2]. *)
Lemma X1_witness_triangle :
  ∃ picked,
    Forall2 (fun i v => map (project 2 0.02) (concat [triangleA]) !! i = Some v)
            (triangulation earClip [triangleA]) picked ∧
    flat_map spread (map (project 2 0.02) triangleA) = flat_map spread picked.
Proof.
  exact (proj2 (X1_polygon_feature_resolves_own_vertices earClip triangleFeature no_options
                  [triangleA] [] _ eq_refl build_triangleFeature)).
Defined.

(** X2. For a MultiPolygon feature the buffer of the returned mesh is made
    of the vertices that the index lists of its polygons, one after the
    other, select in the vertex list of the whole feature: index [i] of any
    polygon is the [i]-th vertex of the feature, not of that polygon. *)
Theorem X2_multipolygon_resolves_in_feature_vertices
    (earcut : list R -> list nat -> nat -> list nat) (f : feature) (options : options_t)
    (polys : list polygon) out m :
  feature_geometry f = Some (MultiPolygon polys) →
  createProvinceMeshFromFeature earcut f options = (out, Ok (Some m)) →
  let radius := default 2 (opt_radius options) in
  let elevation := default 0.02 (opt_elevation options) in
  out = [] ∧
  ∃ picked,
    Forall2 (fun i v => map (project radius elevation) (concat (concat polys)) !! i = Some v)
            (concat (map (triangulation earcut) polys)) picked ∧
    positions m = flat_map spread picked.
Proof.
  intros Hg H radius elevation. rewrite createProvinceMeshFromFeature_unfold, Hg in H.
  fold radius elevation in H.
  pose proof (fillBuffers_console earcut radius elevation (MultiPolygon polys)) as Hout.
  cbn [fillBuffers] in H, Hout. unfold forEach in H, Hout.
  destruct (forEach_from _ polys 0 empty_buffers) as [out' [b|e]] eqn:Hb; [|discriminate H].
  simpl in Hout. subst out'.
  apply forEach_processPolygon_shared in Hb as (Hv & picked & Hp & Hpos).
  destruct (geomPositions b) as [|x pos] eqn:E; [discriminate H|].
  inversion H; subst. split; [reflexivity|]. exists picked.
  cbn [positions meshOf]. rewrite E. split; [|exact Hpos].
  rewrite Hv in Hp. apply mapM_Some in Hp. exact Hp.
Qed.

(** The sample two-part feature: six vertices selected by [0;1;2;0;1;2]. *)
Lemma X2_witness_two_triangles :
  ∃ picked,
    Forall2 (fun i v => map (project 2 0.02) (concat (concat [[triangleA]; [triangleB]])) !! i
                        = Some v)
            (concat (map (triangulation earClip) [[triangleA]; [triangleB]])) picked ∧
    flat_map spread (map (project 2 0.02) triangleA) ++
    flat_map spread (map (project 2 0.02) triangleA) = flat_map spread picked.
Proof.
  exact (proj2 (X2_multipolygon_resolves_in_feature_vertices earClip twoTrianglesFeature
                  no_options [[triangleA]; [triangleB]] [] _ eq_refl
                  build_twoTrianglesFeature)).
Defined.

(** X3. For a Polygon feature the builder ends normally exactly when the
    triangulator's index list is made of whole triples of indices below the
    number of points of the polygon; otherwise it throws (a spread of
    [undefined]), and in both cases it logs nothing. *)
Theorem X3_polygon_builder_throws_iff_bad_indices
    (earcut : list R -> list nat -> nat -> list nat) (f : feature) (options : options_t)
    (rings : polygon) :
  feature_geometry f = Some (Polygon rings) →
  (triples_below (length (concat rings)) (triangulation earcut rings) →
   ∃ r, createProvinceMeshFromFeature earcut f options = ([], Ok r)) ∧
  (¬ triples_below (length (concat rings)) (triangulation earcut rings) →
   ∃ e, createProvinceMeshFromFeature earcut f options = ([], Throw e)).
Proof.
  intros Hg. rewrite createProvinceMeshFromFeature_unfold, Hg. cbn [fillBuffers].
  set (radius := default 2 (opt_radius options)).
  set (elevation := default 0.02 (opt_elevation options)).
  split.
  - intros [[k Hk] Hidx].
    destruct (pick_total (map (project radius elevation) (concat rings))
                (triangulation earcut rings)) as (picked & Hp & _).
    { rewrite length_map. exact Hidx. }
    rewrite (processPolygon_ok earcut radius elevation rings empty_buffers picked k Hk Hp).
    eauto.
  - intros Hbad.
    pose proof (processPolygon_silent earcut radius elevation rings empty_buffers) as Hout.
    destruct (processPolygon earcut radius elevation rings empty_buffers)
      as [out [b|e]] eqn:Hb; simpl in Hout; subst out; [|eauto].
    exfalso. apply Hbad.
    apply processPolygon_inv in Hb as (_ & Hv & Hk & picked & Hp & _).
    split; [exact Hk|]. apply pick_in_range in Hp.
    rewrite Hv in Hp. cbn [geom3DVertices empty_buffers app] in Hp.
    rewrite length_map in Hp. exact Hp.
Qed.

(** With an index 7 for a three-point ring the builder throws; with the
    ear-clipping triangulation it returns. *)
Lemma X3_witness_stray_index :
  (∃ e, createProvinceMeshFromFeature strayTriangulator triangleFeature no_options
          = ([], Throw e)) ∧
  (∃ r, createProvinceMeshFromFeature earClip triangleFeature no_options = ([], Ok r)).
Proof.
  split.
  - apply (proj2 (X3_polygon_builder_throws_iff_bad_indices strayTriangulator triangleFeature
                    no_options [triangleA] eq_refl)).
    intros [_ Hidx]. inversion Hidx as [|? ? H7 _]; subst. simpl in H7. lia.
  - apply (proj1 (X3_polygon_builder_throws_iff_bad_indices earClip triangleFeature
                    no_options [triangleA] eq_refl)).
    rewrite earClip_triangleA. split; [exists 1%nat; reflexivity|].
    repeat constructor; simpl; lia.
Defined.

Lemma ringStarts_lookup (rings : list ring) :
  ∀ (n k h : nat), ringStarts n rings !! k = Some h →
                   h = (n + length (concat (take k rings)))%nat.
Proof.
  induction rings as [|r rings IH]; intros n k h H; [discriminate H|].
  destruct k as [|k]; cbn in H.
  - inversion H. simpl. lia.
  - apply IH in H. cbn [take concat]. rewrite length_app. lia.
Qed.

Lemma length_ringStarts (rings : list ring) (n : nat) :
  length (ringStarts n rings) = length rings.
Proof. revert n. induction rings as [|r rings IH]; intros n; simpl; [|rewrite IH]; reflexivity. Qed.

(** X4. What [processPolygon] hands to the triangulator: the longitudes and
    latitudes of all rings in order, two numbers per point, and one hole
    start per ring after the first, equal to the number of points of the
    rings before it; the projected points are appended to the shared vertex
    list in the same order. *)
Theorem X4_flattened_rings_and_hole_starts (radius elevation : R) (rings : polygon)
    (vs : list vertex) :
  let st := visitRings_from radius elevation rings 0
              {| flat2D := []; holeIndices := []; scan_vertices := vs |} in
  flat2D st = flat_map (fun c => [fst c; snd c]) (concat rings) ∧
  length (flat2D st) = (2 * length (concat rings))%nat ∧
  length (holeIndices st) = (length rings - 1)%nat ∧
  (∀ k h, holeIndices st !! k = Some h → h = length (concat (take (S k) rings))) ∧
  scan_vertices st =
    vs ++ map (fun c => lonLatToCartesian (fst c) (snd c) (Some (radius + elevation)))
              (concat rings).
Proof.
  intros st. unfold st. rewrite visitRings_spec. cbn [flat2D holeIndices scan_vertices].
  split; [reflexivity|]. split; [apply length_flat_map_lonlat|].
  split; [|split; [|reflexivity]].
  - destruct rings as [|r rings]; [reflexivity|]. cbn [holeStarts].
    rewrite length_ringStarts. simpl. lia.
  - intros k h H. destruct rings as [|r rings]; [discriminate H|]. cbn [holeStarts] in H.
    apply ringStarts_lookup in H. cbn [take concat]. rewrite length_app. exact H.
Qed.

Lemma norm_scaleVertex (k : R) (v : vertex) :
  norm (scaleVertex (k, k, k) v) = Rabs k * norm v.
Proof.
  destruct v as [[x y] z]. unfold norm, scaleVertex.
  replace (k * x * (k * x) + k * y * (k * y) + k * z * (k * z))
    with (Rsqr k * (x * x + y * y + z * z)) by (unfold Rsqr; ring).
  rewrite sqrt_mult_alt by apply Rle_0_sqr. rewrite sqrt_Rsqr_abs. reflexivity.
Qed.

(** X5. [createProvinceWithEdgeHighlight] returns a group whenever the
    builder does not throw, and throws when it does. The group is marked
    [isProvince] even when it is empty (no mesh built); otherwise it holds
    the province mesh followed by an outline mesh with the same vertex
    buffer, which is not marked [isProvince] itself and whose drawn vertices
    lie 1.02 times as far from the origin as those of the province mesh. *)
Theorem X5_edge_highlight_group
    (earcut : list R -> list nat -> nat -> list nat) (f : feature) (options : options_t) :
  let radius := default 2 (opt_radius options) in
  let elevation := default 0.02 (opt_elevation options) in
  (∀ out r, createProvinceMeshFromFeature earcut f options = (out, Ok r) →
     ∃ g, createProvinceWithEdgeHighlight earcut f options = (out, Ok g) ∧
          group_userData g !! "isProvince" = Some (JBool true) ∧
          (r = None → group_children g = []) ∧
          (∀ m, r = Some m →
             ∃ e, group_children g = [ProvinceChild m; EdgeChild e] ∧
                  edge_positions e = positions m ∧
                  edge_userData e !! "isProvince" = None ∧
                  ∃ vs, edge_positions e = flat_map spread vs ∧
                        Forall (fun v => norm v = Rabs (radius + elevation) ∧
                                         norm (scaleVertex (edge_scale e) v)
                                           = 1.02 * Rabs (radius + elevation)) vs)) ∧
  (∀ out e, createProvinceMeshFromFeature earcut f options = (out, Throw e) →
            createProvinceWithEdgeHighlight earcut f options = (out, Throw e)).
Proof.
  intros radius elevation. unfold createProvinceWithEdgeHighlight. split.
  - intros out r H. rewrite H. cbn [mbind js_bind mret js_ret]. rewrite app_nil_r.
    eexists. split; [reflexivity|]. cbn [group_userData group_children].
    split; [apply lookup_union_Some_l, lookup_singleton_eq|].
    split; [intros ->; reflexivity|].
    intros m ->. eexists. split; [reflexivity|].
    cbn [edge_positions edge_userData edge_scale].
    split; [reflexivity|]. split; [apply lookup_empty|].
    destruct (built_mesh_vertices earcut f options out m H) as (vs & k & Hpos & _ & Hvs).
    exists vs. split; [exact Hpos|].
    eapply Forall_impl; [exact Hvs|]. intros v [c ->]. cbv beta.
    rewrite norm_scaleVertex. unfold project. rewrite lonLatToCartesian_norm.
    fold radius elevation. split; [reflexivity|]. rewrite Rabs_right by lra. reflexivity.
  - intros out e H. rewrite H. reflexivity.
Qed.

(** A Point feature gives an empty group that is still marked. *)
Lemma X5_witness_point_feature :
  ∃ g, createProvinceWithEdgeHighlight earClip pointFeature no_options
         = ([Warn "Unsupported geometry type for province:" "Point"], Ok g) ∧
       group_userData g !! "isProvince" = Some (JBool true) ∧
       group_children g = [].
Proof.
  destruct (proj1 (X5_edge_highlight_group earClip pointFeature no_options)
              [Warn "Unsupported geometry type for province:" "Point"] None eq_refl)
    as (g & Hg & Hflag & Hnone & _).
  exists g. split; [exact Hg|]. split; [exact Hflag|]. apply Hnone. reflexivity.
Defined.

(** X6. [processGeoJsonForThree] returns one summary per feature, in order,
    with the feature's [type], its [properties] as they are ([null]
    included) and the type tag of its geometry, when every feature has a
    geometry; a feature without geometry makes it throw. It logs nothing. *)
Theorem X6_processGeoJsonForThree_summaries (features : list geoFeature) :
  (Forall (fun gf => is_Some (feature_geometry (gf_feature gf))) features →
   ∃ l, processGeoJsonForThree features = ([], Ok l) ∧
        length l = length features ∧
        ∀ i gf, features !! i = Some gf →
          ∃ g, feature_geometry (gf_feature gf) = Some g ∧
               l !! i = Some {| fs_type := gf_type gf;
                                fs_properties := feature_properties (gf_feature gf);
                                fs_geometryType := geometry_type g |}) ∧
  (∀ gf, gf ∈ features → feature_geometry (gf_feature gf) = None →
         processGeoJsonForThree features = ([], Throw (TypeError "feature.geometry is null"))).
Proof.
  unfold processGeoJsonForThree. split.
  - induction 1 as [|gf features [g Hg] _ (l & Hl & Hlen & Hith)].
    + exists []. split; [reflexivity|]. split; [reflexivity|]. intros i gf H. discriminate H.
    + eexists. cbn [arrayMap]. rewrite Hg, Hl. cbn [defined mbind js_bind mret js_ret app].
      split; [reflexivity|]. split; [simpl; rewrite Hlen; reflexivity|].
      intros [|i] gf' H; cbn in H.
      * inversion H; subst gf'. exists g. split; [exact Hg | reflexivity].
      * apply Hith, H.
  - intros gf Hin Hnone. induction Hin as [gf features|gf gf' features _ IH]; cbn [arrayMap].
    + rewrite Hnone. reflexivity.
    + destruct (feature_geometry (gf_feature gf')) as [g|]; [|reflexivity].
      cbn [defined mbind js_bind mret js_ret app]. rewrite (IH Hnone). reflexivity.
Qed.

(** The sample document: two summaries, the second with [null] properties. *)
Lemma X6_witness_sample_document :
  ∃ l, processGeoJsonForThree sampleDocument = ([], Ok l) ∧ length l = 2%nat ∧
       l !! 1%nat = Some {| fs_type := JStr "Feature"; fs_properties := None;
                            fs_geometryType := "Point" |}.
Proof.
  destruct (proj1 (X6_processGeoJsonForThree_summaries sampleDocument)) as (l & Hl & Hlen & Hith).
  { repeat constructor; eexists; reflexivity. }
  exists l. split; [exact Hl|]. split; [exact Hlen|].
  destruct (Hith 1%nat _ eq_refl) as (g & Hg & Hentry).
  inversion Hg; subst g. exact Hentry.
Defined.

(** * Further properties of the projection *)

(** X7. The projection sends latitude 90 to [(0, r, 0)] and latitude -90 to
    [(0, -r, 0)] whatever the longitude; it has period 360 in the longitude;
    the point at longitude [lon + 180] and latitude [- lat] is the opposite
    point; and without a radius argument the point lies at distance 2. *)
Theorem X7_projection_poles_period_antipode (lon lat r : R) :
  lonLatToCartesian lon 90 (Some r) = (0, r, 0) ∧
  lonLatToCartesian lon (-90) (Some r) = (0, - r, 0) ∧
  lonLatToCartesian (lon + 360) lat (Some r) = lonLatToCartesian lon lat (Some r) ∧
  (let '(x, y, z) := lonLatToCartesian lon lat (Some r) in
   lonLatToCartesian (lon + 180) (- lat) (Some r) = (- x, - y, - z)) ∧
  norm (lonLatToCartesian lon lat None) = 2.
Proof.
  unfold lonLatToCartesian. cbn [default from_option]. unfold Datatypes.id.
  split; [|split; [|split; [|split]]].
  - replace ((90 - 90) * (PI / 180)) with 0 by lra. rewrite sin_0, cos_0.
    f_equal; [f_equal|]; ring.
  - replace ((90 - -90) * (PI / 180)) with PI by (field; apply PI_neq0).
    rewrite sin_PI, cos_PI. f_equal; [f_equal|]; ring.
  - replace ((lon + 360 + 180) * (PI / 180)) with ((lon + 180) * (PI / 180) + 2 * PI)
      by (field; apply PI_neq0).
    rewrite sin_plus, cos_plus, sin_2PI, cos_2PI. f_equal; [f_equal|]; ring.
  - replace ((90 - - lat) * (PI / 180)) with (PI - (90 - lat) * (PI / 180))
      by (field; apply PI_neq0).
    replace ((lon + 180 + 180) * (PI / 180)) with ((lon + 180) * (PI / 180) + PI)
      by (field; apply PI_neq0).
    rewrite sin_PI_x, neg_sin, neg_cos.
    replace (cos (PI - (90 - lat) * (PI / 180))) with (- cos ((90 - lat) * (PI / 180))).
    + f_equal; [f_equal|]; ring.
    + rewrite cos_minus, cos_PI, sin_PI. ring.
  - change (norm (lonLatToCartesian lon lat (Some 2)) = 2).
    rewrite lonLatToCartesian_norm. apply Rabs_right. lra.
Qed.

(** X8. The latitude can be read back from a projected point: for a
    latitude between -90 and 90 and a positive radius, the arc sine of
    [y / radius], in degrees, is the latitude. *)
Theorem X8_latitude_read_back (lon lat r : R) :
  -90 <= lat <= 90 → 0 < r →
  let '(_, y, _) := lonLatToCartesian lon lat (Some r) in
  asin (y / r) * (180 / PI) = lat.
Proof.
  intros Hlat Hr. unfold lonLatToCartesian. cbn [default from_option]. unfold Datatypes.id.
  pose proof PI_RGT_0 as Hpi.
  replace ((90 - lat) * (PI / 180)) with (PI / 2 - lat * (PI / 180)) by (field; lra).
  rewrite cos_shift.
  replace (sin (lat * (PI / 180)) * r / r) with (sin (lat * (PI / 180))) by (field; lra).
  rewrite asin_sin.
  - field. lra.
  - split.
    + apply Rmult_le_reg_r with (180 / PI).
      * apply Rdiv_lt_0_compat; lra.
      * replace (- (PI / 2) * (180 / PI)) with (-90) by (field; lra).
        replace (lat * (PI / 180) * (180 / PI)) with lat by (field; lra). lra.
    + apply Rmult_le_reg_r with (180 / PI).
      * apply Rdiv_lt_0_compat; lra.
      * replace (PI / 2 * (180 / PI)) with 90 by (field; lra).
        replace (lat * (PI / 180) * (180 / PI)) with lat by (field; lra). lra.
Qed.

(** Latitude 45 on the default shell. *)
Lemma X8_witness_latitude_45 :
  let '(_, y, _) := lonLatToCartesian 116 45 (Some 2.02) in
  asin (y / 2.02) * (180 / PI) = 45.
Proof. apply (X8_latitude_read_back 116 45 2.02); lra. Defined.

(** * Further properties of the assembler *)

Lemma NoDup_provinceColors : NoDup provinceColors.
Proof. refine (bool_decide_unpack _ _). vm_compute. exact I. Qed.

Lemma contribution_inv (earcut : list R -> list nat -> nat -> list nat)
    (i : nat) (f : feature) (m : mesh) :
  m ∈ contribution earcut i f →
  ∃ props out m0, feature_properties f = Some props ∧
                  buildAt earcut i f = (out, Ok (Some m0)) ∧ m = decorate props m0.
Proof.
  unfold contribution. intros Hm.
  destruct (feature_properties f) as [props|]; [|inversion Hm].
  destruct (buildAt earcut i f) as [out [[m0|]|e]]; try (inversion Hm; fail).
  apply list_elem_of_singleton in Hm. eauto 10.
Qed.

Lemma built_mesh_material (earcut : list R -> list nat -> nat -> list nat) f options out m :
  createProvinceMeshFromFeature earcut f options = (out, Ok (Some m)) →
  mesh_material m =
    newMeshPhongMaterial (default no_materialOptions (opt_materialOptions options)) ∧
  userData m = Object_assign (Object_assign ∅ (default ∅ (feature_properties f)))
                             isProvince_flag ∧
  out = match feature_geometry f with
        | Some g => fst (fillBuffers earcut (default 2 (opt_radius options))
                                     (default 0.02 (opt_elevation options)) g)
        | None => []
        end.
Proof.
  intros H. rewrite createProvinceMeshFromFeature_unfold in H.
  destruct (feature_geometry f) as [g|]; [|discriminate H].
  destruct (fillBuffers earcut _ _ g) as [out' [b|e]]; [|discriminate H].
  destruct (geomPositions b); [discriminate H|]. inversion H; subst. auto.
Qed.

Lemma contribution_color (earcut : list R -> list nat -> nat -> list nat)
    (i : nat) (f : feature) (m : mesh) :
  m ∈ contribution earcut i f →
  provinceColors !! (i mod length provinceColors)%nat = Some (color (mesh_material m)).
Proof.
  intros Hm. apply contribution_inv in Hm as (props & out & m0 & _ & Hb & ->).
  apply built_mesh_material in Hb as (Hmat & _ & _).
  unfold decorate, set_userData. cbn [mesh_material]. rewrite Hmat.
  destruct (lookup_lt_is_Some_2 provinceColors (i mod length provinceColors)%nat) as [c Hc].
  { apply Nat.mod_upper_bound. discriminate. }
  rewrite Hc. reflexivity.
Qed.

(** X9. Two assembled meshes have the same fill colour exactly when the
    positions of their features in the collection are congruent modulo 15:
    the palette has no repeated entry and is reused cyclically. *)
Theorem X9_same_colour_iff_congruent_mod_15
    (earcut : list R -> list nat -> nat -> list nat) (i j : nat) (f g : feature)
    (m m' : mesh) :
  m ∈ contribution earcut i f → m' ∈ contribution earcut j g →
  (color (mesh_material m) = color (mesh_material m') ↔ (i mod 15 = j mod 15)%nat).
Proof.
  intros Hm Hm'. apply contribution_color in Hm, Hm'.
  change (length provinceColors) with 15%nat in Hm, Hm'. split.
  - intros Heq. rewrite <- Heq in Hm'.
    eapply NoDup_lookup; [apply NoDup_provinceColors | exact Hm | exact Hm'].
  - intros Heq. rewrite Heq in Hm. congruence.
Qed.

Lemma contribution_triangleFeature (i : nat) :
  ∃ m, contribution earClip i triangleFeature = [m].
Proof.
  unfold contribution, buildAt, triangleFeature. cbn [feature_properties].
  rewrite build_triangle_geometry by reflexivity. eauto.
Qed.

(** The sample triangle at positions 0 and 15 gets the same colour, at
    positions 0 and 2 different colours. *)
Lemma X9_witness_triangles :
  ∃ m0 m2 m15, contribution earClip 0 triangleFeature = [m0] ∧
               contribution earClip 2 triangleFeature = [m2] ∧
               contribution earClip 15 triangleFeature = [m15] ∧
               color (mesh_material m15) = color (mesh_material m0) ∧
               color (mesh_material m0) ≠ color (mesh_material m2).
Proof.
  destruct (contribution_triangleFeature 0) as [m0 H0].
  destruct (contribution_triangleFeature 2) as [m2 H2].
  destruct (contribution_triangleFeature 15) as [m15 H15].
  exists m0, m2, m15. repeat (split; [assumption|]).
  assert (Hin0 : m0 ∈ contribution earClip 0 triangleFeature)
    by (rewrite H0; apply list_elem_of_here).
  assert (Hin2 : m2 ∈ contribution earClip 2 triangleFeature)
    by (rewrite H2; apply list_elem_of_here).
  assert (Hin15 : m15 ∈ contribution earClip 15 triangleFeature)
    by (rewrite H15; apply list_elem_of_here).
  split.
  - apply (X9_same_colour_iff_congruent_mod_15 earClip 15 0 _ _ m15 m0 Hin15 Hin0).
    reflexivity.
  - intros Heq.
    apply (X9_same_colour_iff_congruent_mod_15 earClip 0 2 _ _ m0 m2 Hin0 Hin2) in Heq.
    discriminate Heq.
Defined.

Section AssemblerLog.

Variable earcut : list R -> list nat -> nat -> list nat.

Lemma addProvince_Ok_log (group : list mesh) (f : feature) (i : nat) out group' :
  addProvince earcut group f i = (out, Ok group') →
  out = unsupportedWarning f ∧ (length group' ≤ S (length group))%nat.
Proof.
  rewrite addProvince_unfold. unfold buildAt, unsupportedWarning.
  destruct (feature_properties f) as [props|]; [|discriminate].
  rewrite createProvinceMeshFromFeature_unfold.
  destruct (feature_geometry f) as [g|]; [|discriminate].
  pose proof (fillBuffers_console earcut
                (default 2 (opt_radius (provinceOptions
                   (provinceColors !! (i mod length provinceColors)%nat))))
                (default 0.02 (opt_elevation (provinceOptions
                   (provinceColors !! (i mod length provinceColors)%nat)))) g) as Hlog.
  destruct (fillBuffers earcut _ _ g) as [out' [b|e]]; [|discriminate].
  simpl in Hlog. subst out'.
  destruct (geomPositions b); intros H; inversion H; subst; (split; [reflexivity|]).
  - lia.
  - rewrite length_app. simpl. lia.
Qed.

Lemma forEach_addProvince_log (fs : list feature) :
  ∀ i group out group',
    forEach_from (addProvince earcut) fs i group = (out, Ok group') →
    out = flat_map unsupportedWarning fs ∧
    (length group' ≤ length group + length fs)%nat.
Proof.
  induction fs as [|f fs IH]; intros i group out group' H.
  - inversion H; subst. simpl. split; [reflexivity | lia].
  - cbn [forEach_from] in H.
    apply bind_Ok_inv in H as (out1 & group1 & out2 & H1 & H2 & ->).
    apply addProvince_Ok_log in H1 as [-> Hlen1].
    apply IH in H2 as [-> Hlen2]. simpl. split; [reflexivity | lia].
Qed.

End AssemblerLog.

(** X10. When the assembler returns a group, its console output is one
    warning per feature with an unsupported geometry type, in collection
    order, and nothing else; the group has at most one mesh per feature. *)
Theorem X10_assembler_logs_unsupported_features
    (earcut : list R -> list nat -> nat -> list nat) (fc : featureCollection) out group :
  createProvincesFromGeoJson earcut fc = (out, Ok group) →
  out = flat_map unsupportedWarning (features fc) ∧
  (length group ≤ length (features fc))%nat.
Proof.
  intros H. unfold createProvincesFromGeoJson, forEach in H.
  apply forEach_addProvince_log in H as [Hout Hlen]. split; [exact Hout | exact Hlen].
Qed.

(** The sample collection: one warning, for its Point feature. *)
Lemma X10_witness_sample_collection :
  ∃ group, createProvincesFromGeoJson earClip sampleCollection
             = ([Warn "Unsupported geometry type for province:" "Point"], Ok group) ∧
           (length group ≤ 3)%nat.
Proof.
  destruct (forEach_addProvince_processable earClip (features sampleCollection) 0%nat [])
    as [out H].
  { intros j f Hj. apply sampleCollection_processable, Hj. }
  destruct (X10_assembler_logs_unsupported_features earClip sampleCollection out _ H)
    as [Hout Hlen].
  eexists. split; [|exact Hlen].
  unfold createProvincesFromGeoJson, forEach. rewrite H, Hout. reflexivity.
Defined.

(** X11. The metadata of an assembled mesh: [provinceName] and [adcode] are
    the feature's [name] and [adcode] properties ([undefined] when the
    feature has none), [isProvince] is [true], and every other key is as in
    the feature's properties. *)
Theorem X11_assembled_metadata
    (earcut : list R -> list nat -> nat -> list nat) (i : nat) (f : feature)
    (props : jsobject) (m : mesh) :
  feature_properties f = Some props →
  m ∈ contribution earcut i f →
  userData m !! "provinceName" = Some (getprop props "name") ∧
  userData m !! "adcode" = Some (getprop props "adcode") ∧
  userData m !! "isProvince" = Some (JBool true) ∧
  (props !! "name" = None → getprop (userData m) "provinceName" = JUndefined) ∧
  (∀ k, k ≠ "provinceName" → k ≠ "adcode" → k ≠ "isProvince" →
        userData m !! k = props !! k).
Proof.
  intros Hprops Hm. apply contribution_inv in Hm as (props' & out & m0 & Hp & Hb & ->).
  rewrite Hprops in Hp. inversion Hp; subst props'.
  apply built_mesh_material in Hb as (_ & Hu & _). rewrite Hprops in Hu.
  unfold decorate, set_userData, Object_assign in *. cbn [userData default from_option] in *.
  unfold Datatypes.id in Hu.
  assert (Hname : ({[ "provinceName" := getprop props "name";
                      "adcode" := getprop props "adcode";
                      "isProvince" := JBool true ]} ∪ userData m0 : jsobject)
                  !! "provinceName" = Some (getprop props "name")).
  { apply lookup_union_Some_l, lookup_insert_eq. }
  split; [exact Hname|].
  split; [apply lookup_union_Some_l; rewrite lookup_insert_ne by discriminate;
          apply lookup_insert_eq|].
  split; [apply lookup_union_Some_l; rewrite !lookup_insert_ne by discriminate;
          apply lookup_singleton_eq|].
  split.
  - intros Hnone. unfold getprop at 1. rewrite Hname. unfold getprop. rewrite Hnone.
    reflexivity.
  - intros k Hk1 Hk2 Hk3. rewrite lookup_union_r.
    + rewrite Hu. rewrite lookup_union_r by (apply lookup_singleton_ne; congruence).
      rewrite lookup_union_l by apply lookup_empty. reflexivity.
    + rewrite !lookup_insert_ne by congruence. apply lookup_singleton_ne. congruence.
Qed.

(** The sample triangle feature: name "Alpha", code 110000. *)
Lemma X11_witness_triangle_feature :
  ∃ m, contribution earClip 0 triangleFeature = [m] ∧
       userData m !! "provinceName" = Some (JStr "Alpha") ∧
       userData m !! "adcode" = Some (JNum 110000) ∧
       userData m !! "name" = Some (JStr "Alpha").
Proof.
  destruct (contribution_triangleFeature 0) as [m Hm]. exists m. split; [exact Hm|].
  assert (Hin : m ∈ contribution earClip 0 triangleFeature)
    by (rewrite Hm; apply list_elem_of_here).
  destruct (X11_assembled_metadata earClip 0 triangleFeature (propsOf "Alpha" 110000) m
              eq_refl Hin) as (Hname & Hcode & _ & _ & Hother).
  split; [exact Hname|]. split; [exact Hcode|].
  rewrite Hother by discriminate. reflexivity.
Defined.

(** * Further properties of the pointer controller *)

Lemma set_material_back (l' : nat) (o : object3d) :
  set_material (obj_material o) (set_material l' o) = o.
Proof. destruct o. reflexivity. Qed.

Lemma originals_kept_init (objs : gmap nat object3d) (mats : gmap nat material) :
  originals_kept objs mats (initRaycaster objs mats).
Proof.
  repeat split; cbn [initRaycaster materials objects hoveredProvince]; auto.
  intros h Hh. discriminate Hh.
Qed.

Lemma originals_kept_move (objs : gmap nat object3d) (mats : gmap nat material)
    (s s' : state) :
  map_Forall (fun _ o => is_Some (mats !! obj_material o)) objs →
  originals_kept objs mats s → move_frame s s' → originals_kept objs mats s'.
Proof.
  intros Hwf (Ha & Hb & Hc) (F1 & F2 & F3 & F4 & F5). split; [|split].
  - intros l m Hl. apply F1, Ha, Hl.
  - intros i Hi'. destruct (decide (hoveredProvince s = Some i)) as [Hi|Hi].
    + destruct (F3 i Hi Hi') as (os & l & Hos & Hl & Hos' & _).
      destruct (Hc i Hi) as (o & l' & m & Ho & _ & Hsaved & Hobj & _).
      rewrite Hos', Ho. rewrite Hobj in Hos. inversion Hos; subst os.
      rewrite Hsaved in Hl. inversion Hl; subst l.
      rewrite set_material_back. reflexivity.
    + rewrite (F4 i Hi Hi'). apply Hb, Hi.
  - intros h Hh'. destruct (decide (hoveredProvince s = Some h)) as [Hh|Hh].
    + destruct F5 as (Ho & Hm & Hs); [congruence|]. rewrite Ho, Hm, Hs. apply Hc, Hh.
    + destruct (F2 h Hh' Hh) as (os & ms & l' & Hos & Hms & Hsaved & Hfresh & Hos' & Hms').
      rewrite (Hb h Hh) in Hos.
      destruct (Hwf h os Hos) as [m Hm].
      exists os, l', m. split; [exact Hos|]. split; [exact Hm|].
      split; [exact Hsaved|]. split; [exact Hos'|]. split.
      * destruct (mats !! l') as [m'|] eqn:E; [|reflexivity].
        apply Ha in E. congruence.
      * apply Ha in Hm. rewrite Hm in Hms. inversion Hms; subst ms. exact Hms'.
Qed.

Lemma originals_kept_same_hover (objs : gmap nat object3d) (mats : gmap nat material)
    (s s' : state) :
  objects s' = objects s → materials s' = materials s →
  hoveredProvince s' = hoveredProvince s → originalMaterials s' = originalMaterials s →
  originals_kept objs mats s → originals_kept objs mats s'.
Proof. unfold originals_kept. intros -> -> -> ->. auto. Qed.

Lemma dispatch_originals (objs : gmap nat object3d) (mats : gmap nat material)
    (ev : event) (s : state) :
  map_Forall (fun _ o => is_Some (mats !! obj_material o)) objs →
  scene_ok s → hover_inv s → originals_kept objs mats s →
  hits_in (objects s) (mouseEventOf ev) →
  ∃ s', dispatch ev s = ([], Ok s') ∧ scene_ok s' ∧ hover_inv s' ∧
        dom (objects s') = dom (objects s) ∧ originals_kept objs mats s'.
Proof.
  intros Hwf Hok Hinv HJ Hhits.
  destruct ev as [e|e|e]; cbn [dispatch mouseEventOf] in *.
  - exists (onMouseDown e s). split; [reflexivity|]. auto 10.
  - destruct (onMouseMove_step e s Hok Hinv Hhits) as (s' & H1 & H2 & H3 & H4 & H5 & _).
    exists s'. repeat (split; [assumption|]). eapply originals_kept_move; eassumption.
  - rewrite (onMouseUp_spec e s Hhits). eexists. split; [reflexivity|].
    repeat (split; [assumption|]). split; [reflexivity|].
    eapply originals_kept_same_hover; [..|exact HJ]; reflexivity.
Qed.

Lemma run_originals (objs : gmap nat object3d) (mats : gmap nat material)
    (evs : list event) :
  map_Forall (fun _ o => is_Some (mats !! obj_material o)) objs →
  ∀ s, scene_ok s → hover_inv s → originals_kept objs mats s →
       Forall (fun ev => hits_in (objects s) (mouseEventOf ev)) evs →
       ∃ s', run evs s = ([], Ok s') ∧ scene_ok s' ∧ hover_inv s' ∧
             dom (objects s') = dom (objects s) ∧ originals_kept objs mats s'.
Proof.
  intros Hwf. induction evs as [|ev evs IH]; intros s Hok Hinv HJ Hevs.
  - exists s. auto 10.
  - inversion Hevs as [|? ? Hev Hevs']; subst.
    destruct (dispatch_originals objs mats ev s Hwf Hok Hinv HJ Hev)
      as (s1 & H1 & Hok1 & Hinv1 & Hdom1 & HJ1).
    destruct (IH s1 Hok1 Hinv1 HJ1) as (s' & H2 & Hok' & Hinv' & Hdom' & HJ').
    { eapply Forall_impl; [exact Hevs'|]. intros ev' Hev'.
      eapply hits_in_dom; eassumption. }
    exists s'. cbn [run]. rewrite H1. cbn [mbind js_bind]. rewrite H2.
    repeat (split; [first [assumption | reflexivity]|]). split; [congruence | assumption].
Qed.

Lemma reach (objs : gmap nat object3d) (mats : gmap nat material) (evs : list event) :
  map_Forall (fun _ o => is_Some (mats !! obj_material o)) objs →
  Forall (fun ev => hits_in objs (mouseEventOf ev)) evs →
  ∃ s, run evs (initRaycaster objs mats) = ([], Ok s) ∧ scene_ok s ∧ hover_inv s ∧
       dom (objects s) = dom objs ∧ originals_kept objs mats s.
Proof.
  intros Hwf Hevs. destruct (initRaycaster_ok objs mats Hwf) as [Hok0 Hinv0].
  apply (run_originals objs mats evs Hwf _ Hok0 Hinv0 (originals_kept_init objs mats) Hevs).
Qed.

(** X12. In every state reached from the initial one, the scene's own
    materials are stored unchanged, every object that is not hovered is
    exactly as the scene had it (no object stays highlighted), and the
    hovered object has its first material saved and carries the highlighted
    copy of it; in particular, when nothing is hovered the objects are
    exactly those of the initial scene. *)
Theorem X12_unhovered_objects_are_original
    (objs : gmap nat object3d) (mats : gmap nat material) (evs : list event) :
  map_Forall (fun _ o => is_Some (mats !! obj_material o)) objs →
  Forall (fun ev => hits_in objs (mouseEventOf ev)) evs →
  ∃ s, run evs (initRaycaster objs mats) = ([], Ok s) ∧
       (∀ l m, mats !! l = Some m → materials s !! l = Some m) ∧
       (∀ i, hoveredProvince s ≠ Some i → objects s !! i = objs !! i) ∧
       (∀ h, hoveredProvince s = Some h →
          ∃ o l' m, objs !! h = Some o ∧ mats !! obj_material o = Some m ∧
                    originalMaterials s !! h = Some (obj_material o) ∧
                    objects s !! h = Some (set_material l' o) ∧
                    mats !! l' = None ∧
                    materials s !! l' = Some (highlightOf m)) ∧
       (hoveredProvince s = None → objects s = objs).
Proof.
  intros Hwf Hevs. destruct (reach objs mats evs Hwf Hevs) as (s & Hrun & _ & _ & _ & HJ).
  exists s. split; [exact Hrun|]. destruct HJ as (Ha & Hb & Hc).
  repeat (split; [assumption|]).
  intros Hnone. apply map_eq. intros i. apply Hb. rewrite Hnone. discriminate.
Qed.

Lemma sampleMovesOut_in_scene :
  Forall (fun ev => hits_in sampleObjects (mouseEventOf ev)) sampleMovesOut.
Proof.
  unfold sampleMovesOut. apply Forall_app. split; [apply sampleMoves_in_scene|].
  constructor; [|constructor]. cbn [mouseEventOf]. apply (sample_hits_in 300 100 1020).
Qed.

Lemma sampleMovesOut_hover :
  ∃ s, run sampleMovesOut (initRaycaster sampleObjects sampleMaterials) = ([], Ok s) ∧
       hoveredProvince s = None.
Proof. eexists. split; [vm_compute; reflexivity|]. reflexivity. Qed.

(** After hovering Alpha and Beta and leaving them, the objects are those
    of the sample scene again. *)
Lemma X12_witness_hover_and_leave :
  ∃ s, run sampleMovesOut (initRaycaster sampleObjects sampleMaterials) = ([], Ok s) ∧
       objects s = sampleObjects.
Proof.
  destruct (X12_unhovered_objects_are_original sampleObjects sampleMaterials sampleMovesOut
              sampleScene_wf sampleMovesOut_in_scene) as (s & Hrun & _ & _ & _ & Hnone).
  exists s. split; [exact Hrun|]. apply Hnone.
  destruct sampleMovesOut_hover as (s0 & Hrun0 & Hh).
  rewrite Hrun in Hrun0. inversion Hrun0; subst s0. exact Hh.
Defined.

Lemma isPickable_originals (objs : gmap nat object3d) (mats : gmap nat material)
    (s : state) (i : nat) :
  originals_kept objs mats s → isPickable (objects s) i = isPickable objs i.
Proof.
  intros (_ & Hb & Hc). unfold isPickable.
  destruct (decide (hoveredProvince s = Some i)) as [Hi|Hi].
  - destruct (Hc i Hi) as (o & l' & m & Ho & _ & _ & Hobj & _). rewrite Hobj, Ho. reflexivity.
  - rewrite (Hb i Hi). reflexivity.
Qed.

Lemma nearestPickable_ext (objs objs' : gmap nat object3d) (hits : list nat) :
  (∀ i, isPickable objs' i = isPickable objs i) →
  nearestPickable objs' hits = nearestPickable objs hits.
Proof.
  intros H. unfold nearestPickable. f_equal.
  induction hits as [|i hits IH]; [reflexivity|].
  rewrite !filter_cons, IH, H. reflexivity.
Qed.

Lemma restorePrevious_pointer (s : state) :
  isDragging (restorePrevious s) = isDragging s ∧
  mouseDownTime (restorePrevious s) = mouseDownTime s ∧
  mouseDownPosition (restorePrevious s) = mouseDownPosition s ∧
  selections (restorePrevious s) = selections s.
Proof.
  unfold restorePrevious. destruct (hoveredProvince s) as [h|]; [|auto].
  destruct (originalMaterials s !! h); auto.
Qed.

Lemma highlightCurrent_pointer (c : option nat) (r : state) out s2 :
  highlightCurrent c r = (out, Ok s2) →
  isDragging s2 = isDragging r ∧ mouseDownTime s2 = mouseDownTime r ∧
  mouseDownPosition s2 = mouseDownPosition r ∧ selections s2 = selections r.
Proof.
  destruct c as [i|]; cbn [highlightCurrent]; [|intros H; inversion H; subst; auto].
  destruct (objects r !! i) as [o|]; [|discriminate].
  cbn [defined mbind js_bind mret js_ret].
  destruct (materials r !! obj_material o) as [m|]; [|discriminate].
  cbn [defined mbind js_bind mret js_ret app]. intros H. inversion H; subst. auto.
Qed.

(** A move changes the drag flag only through its first statement, and
    never the pending-down record or the selections. *)
Lemma onMouseMove_pointer (e : mouseEvent) (s : state) out s' :
  onMouseMove e s = (out, Ok s') →
  isDragging s' = (if (0 <? mouseDownTime s)%Z then true else isDragging s) ∧
  mouseDownTime s' = mouseDownTime s ∧
  mouseDownPosition s' = mouseDownPosition s ∧
  selections s' = selections s.
Proof.
  rewrite onMouseMove_eq. intros H.
  assert (Hd : isDragging (afterDragMark s) =
               (if (0 <? mouseDownTime s)%Z then true else isDragging s) ∧
               mouseDownTime (afterDragMark s) = mouseDownTime s ∧
               mouseDownPosition (afterDragMark s) = mouseDownPosition s ∧
               selections (afterDragMark s) = selections s).
  { unfold afterDragMark. destruct (0 <? mouseDownTime s)%Z; auto. }
  destruct Hd as (Hd1 & Hd2 & Hd3 & Hd4). rewrite <- Hd1, <- Hd2, <- Hd3, <- Hd4.
  generalize dependent (afterDragMark s). clear. intros t H.
  unfold hoverChange in H. apply bind_Ok_inv in H as (o1 & hit & o2 & _ & H & _).
  destruct (decide (fst <$> hit = hoveredProvince t)); [inversion H; subst; auto|].
  apply bind_Ok_inv in H as (o3 & s2 & o4 & H2 & H3 & _).
  apply highlightCurrent_pointer in H2 as (A1 & A2 & A3 & A4).
  destruct (restorePrevious_pointer t) as (B1 & B2 & B3 & B4).
  inversion H3; subst. cbn [set_hover isDragging mouseDownTime mouseDownPosition selections].
  repeat split; congruence.
Qed.

(** X13. A second move with the same ray-cast result as the move just
    handled changes nothing at all: the state is the same, so no material
    is cloned while the pointer stays over the same region. *)
Theorem X13_repeated_move_changes_nothing
    (objs : gmap nat object3d) (mats : gmap nat material) (evs : list event)
    (e e' : mouseEvent) :
  map_Forall (fun _ o => is_Some (mats !! obj_material o)) objs →
  Forall (fun ev => hits_in objs (mouseEventOf ev)) evs →
  hits_in objs e → intersects e' = intersects e →
  ∃ s s1, run evs (initRaycaster objs mats) = ([], Ok s) ∧
          onMouseMove e s = ([], Ok s1) ∧
          onMouseMove e' s1 = ([], Ok s1).
Proof.
  intros Hwf Hevs Hhits Hsame.
  destruct (reach objs mats evs Hwf Hevs) as (s & Hrun & Hok & Hinv & Hdom & HJ).
  assert (Hhits_s : hits_in (objects s) e) by (eapply hits_in_dom; eassumption).
  destruct (onMouseMove_step e s Hok Hinv Hhits_s)
    as (s1 & Hmove & Hok1 & Hinv1 & Hdom1 & Hframe & Hhov).
  exists s, s1. split; [exact Hrun|]. split; [exact Hmove|].
  pose proof (originals_kept_move objs mats s s1 Hwf HJ Hframe) as HJ1.
  destruct (onMouseMove_pointer e s _ _ Hmove) as (Hdrag & Htime & _ & _).
  assert (Hmark : afterDragMark s1 = s1).
  { unfold afterDragMark. rewrite Htime. destruct (0 <? mouseDownTime s)%Z eqn:E; [|reflexivity].
    destruct s1. cbn in *. subst. reflexivity. }
  rewrite onMouseMove_eq, Hmark. unfold hoverChange.
  assert (Hhits1 : hits_in (objects s1) e').
  { unfold hits_in. rewrite Hsame. apply (hits_in_dom (objects s)); assumption. }
  destruct (firstProvince_in_scene (objects s1) (intersects e') Hhits1)
    as (hit & Hfirst & Hc & _).
  rewrite Hfirst. cbn [mbind js_bind app]. rewrite Hc, Hsame.
  rewrite decide_True; [reflexivity|].
  rewrite Hhov. transitivity (nearestPickable objs (intersects e)).
  - apply nearestPickable_ext. intros i. apply (isPickable_originals objs mats), HJ1.
  - symmetry. apply nearestPickable_ext. intros i. apply (isPickable_originals objs mats), HJ.
Qed.

(** Moving again over Beta after the two sample moves. *)
Lemma X13_witness_move_within_beta :
  ∃ s s1, run sampleMoves (initRaycaster sampleObjects sampleMaterials) = ([], Ok s) ∧
          onMouseMove (overBeta 201 100 1020) s = ([], Ok s1) ∧
          onMouseMove (overBeta 202 101 1030) s1 = ([], Ok s1).
Proof.
  exact (X13_repeated_move_changes_nothing sampleObjects sampleMaterials sampleMoves
           (overBeta 201 100 1020) (overBeta 202 101 1030) sampleScene_wf
           sampleMoves_in_scene (proj1 (proj2 (sample_hits_in 201 100 1020))) eq_refl).
Defined.

Lemma run_app_Ok (a b : list event) :
  ∀ s s1, run a s = ([], Ok s1) → run (a ++ b) s = run b s1.
Proof.
  induction a as [|ev a IH]; intros s s1 H.
  - inversion H; subst. reflexivity.
  - cbn [run app] in *. apply bind_Ok_inv in H as (o1 & s' & o2 & H1 & H2 & Hout).
    symmetry in Hout. apply app_eq_nil in Hout as [-> ->].
    rewrite H1. cbn [mbind js_bind]. rewrite (IH _ _ H2).
    destruct (run b s1) as [out r]. reflexivity.
Qed.

Lemma moves_keep_pending_down (ms : list mouseEvent) :
  ∀ t, scene_ok t → hover_inv t →
       Forall (fun e => hits_in (objects t) e) ms →
       ∃ t', run (map MouseMove ms) t = ([], Ok t') ∧
             dom (objects t') = dom (objects t) ∧
             mouseDownTime t' = mouseDownTime t ∧
             selections t' = selections t ∧
             ((0 < mouseDownTime t)%Z → ms ≠ [] ∨ isDragging t = true →
              isDragging t' = true).
Proof.
  induction ms as [|e ms IH]; intros t Hok Hinv Hhits.
  - exists t. repeat (split; [reflexivity|]). intros _ [H|H]; [congruence | exact H].
  - inversion Hhits as [|? ? He Hms]; subst.
    destruct (onMouseMove_step e t Hok Hinv He) as (t1 & H1 & Hok1 & Hinv1 & Hdom1 & _).
    destruct (onMouseMove_pointer e t _ _ H1) as (Hdrag & Htime & _ & Hsel).
    destruct (IH t1 Hok1 Hinv1) as (t' & H2 & Hdom2 & Htime2 & Hsel2 & Hdrag2).
    { eapply Forall_impl; [exact Hms|]. intros e' He'. eapply hits_in_dom; eassumption. }
    exists t'. cbn [map run dispatch]. rewrite H1. cbn [mbind js_bind]. rewrite H2.
    split; [reflexivity|]. split; [congruence|]. split; [congruence|]. split; [congruence|].
    intros Hpos _. apply Hdrag2; [lia|]. right. rewrite Hdrag.
    apply Z.ltb_lt in Hpos. rewrite Hpos. reflexivity.
Qed.

(** X14. A press followed by at least one move and a release emits no
    selection, wherever the pointer is and however short the gesture,
    provided the clock reading at the press is positive: the first move
    after the press sets the drag flag, however small the movement. *)
Theorem X14_press_move_release_never_selects
    (objs : gmap nat object3d) (mats : gmap nat material) (evs : list event)
    (d u : mouseEvent) (ms : list mouseEvent) :
  map_Forall (fun _ o => is_Some (mats !! obj_material o)) objs →
  Forall (fun ev => hits_in objs (mouseEventOf ev)) evs →
  Forall (fun e => hits_in objs e) ms → hits_in objs u →
  (0 < now d)%Z → ms ≠ [] →
  ∃ s s', run evs (initRaycaster objs mats) = ([], Ok s) ∧
          run (MouseDown d :: map MouseMove ms ++ [MouseUp u]) s = ([], Ok s') ∧
          selections s' = selections s.
Proof.
  intros Hwf Hevs Hms Hu Hnow Hne.
  destruct (reach objs mats evs Hwf Hevs) as (s & Hrun & Hok & Hinv & Hdom & _).
  exists s. cbn [run dispatch mbind js_bind mret js_ret].
  set (t0 := onMouseDown d s).
  destruct (moves_keep_pending_down ms t0) as (t' & Hmoves & Hdom' & Htime & Hsel & Hdrag).
  { exact Hok. } { exact Hinv. }
  { eapply Forall_impl; [exact Hms|]. intros e He.
    apply (hits_in_dom objs); [exact Hdom | exact He]. }
  assert (Hu' : hits_in (objects t') u).
  { apply (hits_in_dom objs); [|exact Hu]. rewrite Hdom'. exact Hdom. }
  eexists. split; [exact Hrun|].
  rewrite (run_app_Ok _ [MouseUp u] _ _ Hmoves). cbn [run dispatch].
  rewrite (onMouseUp_spec u t' Hu'). cbn [mbind js_bind mret js_ret app].
  split; [reflexivity|]. cbn [selections].
  unfold selectionOf, validClick. rewrite Hdrag by (cbn; auto).
  rewrite andb_false_r, app_nil_r. exact Hsel.
Qed.

(** The drag scenario of the spec, and a press with a zero-distance move. *)
Lemma X14_witness_drag_over_alpha :
  ∃ s s', run [] (initRaycaster sampleObjects sampleMaterials) = ([], Ok s) ∧
          run (MouseDown (overAlpha 100 100 1000)
               :: map MouseMove [overAlpha 100 100 1010] ++ [MouseUp (overAlpha 100 100 1060)]) s
            = ([], Ok s') ∧
          selections s' = selections s.
Proof.
  apply (X14_press_move_release_never_selects sampleObjects sampleMaterials []
           (overAlpha 100 100 1000) (overAlpha 100 100 1060) [overAlpha 100 100 1010]
           sampleScene_wf).
  - constructor.
  - constructor; [apply (sample_hits_in 100 100 1010) | constructor].
  - apply (sample_hits_in 100 100 1060).
  - reflexivity.
  - discriminate.
Defined.

(** X15. A release with no press pending (the sentinel 0 in
    [mouseDownTime]) emits no selection once the clock reads 200 or more;
    every release leaves the sentinel behind, so the second of two releases
    in a row never selects. *)
Theorem X15_release_without_press_selects_nothing (e : mouseEvent) (s : state) :
  hits_in (objects s) e → (200 <= now e)%Z →
  (mouseDownTime s = 0%Z →
   ∃ s', onMouseUp e s = ([], Ok s') ∧ selections s' = selections s) ∧
  (∀ u0, hits_in (objects s) u0 →
     ∃ s1 s2, onMouseUp u0 s = ([], Ok s1) ∧ onMouseUp e s1 = ([], Ok s2) ∧
              selections s2 = selections s1).
Proof.
  intros Hhits Hnow.
  assert (Hidle : ∀ t, hits_in (objects t) e → mouseDownTime t = 0%Z →
            ∃ t', onMouseUp e t = ([], Ok t') ∧ selections t' = selections t).
  { intros t Ht Hzero. rewrite (onMouseUp_spec e t Ht). eexists. split; [reflexivity|].
    cbn [selections]. unfold selectionOf, validClick, clickDuration. rewrite Hzero.
    replace (now e - 0 <? 200)%Z with false by (symmetry; apply Z.ltb_ge; lia).
    cbn [andb]. apply app_nil_r. }
  split; [apply Hidle, Hhits|].
  intros u0 Hu0. rewrite (onMouseUp_spec u0 s Hu0). eexists.
  destruct (Hidle {| objects := objects s; materials := materials s;
                     isDragging := false; mouseDownTime := 0%Z;
                     mouseDownPosition := mouseDownPosition s;
                     hoveredProvince := hoveredProvince s;
                     originalMaterials := originalMaterials s;
                     selections := selections s ++ selectionOf u0 s |})
    as (s2 & H2 & Hsel); [exact Hhits | reflexivity |].
  exists s2. split; [reflexivity|]. split; [exact H2 | exact Hsel].
Qed.

(** A release over Alpha before any press. *)
Lemma X15_witness_release_first :
  ∃ s', onMouseUp (overAlpha 100 100 1000) (initRaycaster sampleObjects sampleMaterials)
          = ([], Ok s') ∧
        selections s' = [].
Proof.
  apply (proj1 (X15_release_without_press_selects_nothing (overAlpha 100 100 1000)
                  (initRaycaster sampleObjects sampleMaterials)
                  (proj1 (sample_hits_in 100 100 1000)) ltac:(cbn; lia))).
  reflexivity.
Defined.

(** X16. A press directly followed by a release, in any state, emits a
    selection exactly when the release comes less than 200 ms after the
    press, the squared distance between the two positions is below 25, and
    the ray cast at the release hits a pickable object: what happened
    before the press (moves, an earlier drag) does not matter. *)
Theorem X16_press_release_selects_iff (d u : mouseEvent) (s : state) :
  hits_in (objects s) u →
  let dx := (clientX u - clientX d)%Z in
  let dy := (clientY u - clientY d)%Z in
  ∃ s', run [MouseDown d; MouseUp u] s = ([], Ok s') ∧
        ((∃ v, selections s' = selections s ++ [v]) ↔
         (now u - now d < 200)%Z ∧ (dx * dx + dy * dy < 25)%Z ∧
         is_Some (nearestPickable (objects s) (intersects u))) ∧
        (∀ i o, selections s' ≠ selections s →
                nearestPickable (objects s) (intersects u) = Some i →
                objects s !! i = Some o →
                selections s' = selections s ++ [getprop (obj_userData o) "provinceName"]).
Proof.
  intros Hhits dx dy. cbn [run dispatch mbind js_bind mret js_ret].
  assert (Hhits' : hits_in (objects (onMouseDown d s)) u) by exact Hhits.
  rewrite (onMouseUp_spec u _ Hhits'). cbn [mbind js_bind mret js_ret app].
  eexists. split; [reflexivity|]. cbn [selections onMouseDown set_drag objects].
  unfold selectionOf, validClick, clickDuration, moveDistance_lt_5.
  cbn [onMouseDown set_drag objects mouseDownTime mouseDownPosition isDragging fst snd negb].
  fold dx dy. rewrite andb_true_r.
  assert (Hgrow : ∀ (l : list jsval) v, l = l ++ [v] → False).
  { intros l v Hl. apply (f_equal length) in Hl. rewrite length_app in Hl.
    simpl in Hl. lia. }
  destruct (now u - now d <? 200)%Z eqn:Et; cbn [andb];
    [apply Z.ltb_lt in Et | apply Z.ltb_ge in Et].
  2: { rewrite app_nil_r. split; [|intros i o Hne; congruence].
       split; [intros [v Hv]; exfalso; eapply Hgrow, Hv | intros [Hlt _]; lia]. }
  destruct (dx * dx + dy * dy <? 25)%Z eqn:Ed;
    [apply Z.ltb_lt in Ed | apply Z.ltb_ge in Ed].
  2: { rewrite app_nil_r. split; [|intros i o Hne; congruence].
       split; [intros [v Hv]; exfalso; eapply Hgrow, Hv | intros (_ & Hlt & _); lia]. }
  destruct (nearestPickable (objects s) (intersects u)) as [i|] eqn:Hn.
  - destruct (nearestPickable_Some _ _ _ Hn) as (_ & o & Ho & _). rewrite Ho. split.
    + split; [intros _; eauto | intros _; eexists; reflexivity].
    + intros i' o' _ Hi' Ho'. inversion Hi'; subst i'. rewrite Ho in Ho'.
      inversion Ho'; subst. reflexivity.
  - rewrite app_nil_r. split; [|intros i o Hne; congruence].
    split; [intros [v Hv]; exfalso; eapply Hgrow, Hv | intros (_ & _ & [x Hx]); discriminate].
Qed.

(** A release three units right and four units down of the press is at
    distance 5: no selection. *)
Lemma X16_witness_distance_five :
  ∃ s', run [MouseDown (overAlpha 100 100 1000); MouseUp (overAlpha 103 104 1050)]
            (initRaycaster sampleObjects sampleMaterials) = ([], Ok s') ∧
        ¬ ∃ v, selections s' = [] ++ [v].
Proof.
  destruct (X16_press_release_selects_iff (overAlpha 100 100 1000) (overAlpha 103 104 1050)
              (initRaycaster sampleObjects sampleMaterials)
              (proj1 (sample_hits_in 103 104 1050))) as (s' & Hrun & Hiff & _).
  exists s'. split; [exact Hrun|]. intros Hsel. apply Hiff in Hsel as (_ & Hd & _).
  cbn in Hd. lia.
Defined.

(** X17. The hit loop of [onMouseMove] and [handleValidClick] returns the
    first hit whose [userData.isProvince] is truthy: hits in front of it
    that are not provinces (the globe, the starfield) do not block it, and
    the hits behind it are not inspected.  A ray that meets no province
    gives no object. *)
Theorem X17_nonprovince_hits_do_not_block
    (objs : gmap nat object3d) (front back : list nat) (c : nat) (o : object3d) :
  Forall (fun i => ∃ o', objs !! i = Some o' ∧
                         truthy (getprop (obj_userData o') "isProvince") = false) front →
  (objs !! c = Some o → truthy (getprop (obj_userData o) "isProvince") = true →
   firstProvince objs (front ++ c :: back) = ([], Ok (Some (c, o)))) ∧
  firstProvince objs front = ([], Ok None).
Proof.
  intros Hfront. induction Hfront as [|i front (o' & Ho' & Hno) _ [IH1 IH2]].
  - split; [|reflexivity]. intros Hc Hyes. cbn [app firstProvince]. rewrite Hc.
    cbn [defined mbind js_bind mret js_ret app]. rewrite Hyes. reflexivity.
  - split; [intros Hc Hyes|]; cbn [app firstProvince]; rewrite Ho';
      cbn [defined mbind js_bind mret js_ret app]; rewrite Hno.
    + rewrite (IH1 Hc Hyes). reflexivity.
    + rewrite IH2. reflexivity.
Qed.

(** The globe (object 0) in front of Beta (object 2), Alpha behind. *)
Lemma X17_witness_globe_in_front :
  (∀ o, sampleObjects !! 2%nat = Some o →
        truthy (getprop (obj_userData o) "isProvince") = true →
        firstProvince sampleObjects ([0%nat] ++ 2%nat :: [1%nat]) = ([], Ok (Some (2%nat, o)))) ∧
  firstProvince sampleObjects [0%nat] = ([], Ok None).
Proof.
  split.
  - intros o. apply (X17_nonprovince_hits_do_not_block sampleObjects [0%nat] [1%nat] 2%nat o).
    constructor; [|constructor]. eexists. split; reflexivity.
  - apply (X17_nonprovince_hits_do_not_block sampleObjects [0%nat] [] 0%nat (Object3d 0 ∅)).
    constructor; [|constructor]. eexists. split; reflexivity.
Defined.

(** X18. A valid click whose nearest pickable hit is [o] pushes exactly one
    route, "/province/" followed by the string form of [o]'s
    [userData.provinceName]: the name itself when it is a string, and
    "/province/undefined" when the object has no [provinceName]. *)
Theorem X18_valid_click_pushes_province_route
    (e : mouseEvent) (s : state) (i : nat) (o : object3d) :
  hits_in (objects s) e → validClick e s = true →
  nearestPickable (objects s) (intersects e) = Some i → objects s !! i = Some o →
  ∃ s' route, onMouseUp e s = ([], Ok s') ∧
              navigations s' = navigations s ++ [route] ∧
              (∀ name, obj_userData o !! "provinceName" = Some (JStr name) →
                       route = "/province/" +:+ name) ∧
              (obj_userData o !! "provinceName" = None → route = "/province/undefined").
Proof.
  intros Hhits Hvalid Hnear Ho. rewrite (onMouseUp_spec e s Hhits).
  eexists. exists (provinceRoute (getprop (obj_userData o) "provinceName")).
  split; [reflexivity|]. unfold navigations. cbn [selections].
  unfold selectionOf. rewrite Hvalid, Hnear, Ho. rewrite map_app. cbn [map].
  split; [reflexivity|]. unfold provinceRoute, getprop.
  split; [intros name Hname | intros Hname]; rewrite Hname; reflexivity.
Qed.

(** A click on a province object that carries no name. *)
Lemma X18_witness_nameless_province :
  ∃ s',
    onMouseUp {| clientX := 101; clientY := 99; now := 1100; intersects := [0%nat; 1%nat] |}
      (onMouseDown {| clientX := 100; clientY := 100; now := 1000; intersects := [] |}
         (initRaycaster namelessObjects sampleMaterials)) = ([], Ok s') ∧
    navigations s' = ["/province/undefined"].
Proof.
  destruct (X18_valid_click_pushes_province_route
              {| clientX := 101; clientY := 99; now := 1100; intersects := [0%nat; 1%nat] |}
              (onMouseDown {| clientX := 100; clientY := 100; now := 1000; intersects := [] |}
                 (initRaycaster namelessObjects sampleMaterials))
              1%nat (Object3d 1 {[ "isProvince" := JBool true ]}))
    as (s' & route & Hup & Hnav & _ & Hnone).
  - repeat constructor; eexists; reflexivity.
  - reflexivity.
  - reflexivity.
  - reflexivity.
  - exists s'. split; [exact Hup|]. rewrite Hnav, Hnone; reflexivity.
Defined.

(** * The starfield *)

Lemma INR_starCount : INR starCount = 5000.
Proof. unfold starCount. rewrite INR_IZR_INZ, Z2Nat.id by lia. reflexivity. Qed.

Lemma unit_interval_halves : unit_interval halves.
Proof. intros k. unfold halves. lra. Qed.

Lemma monotone_noRounding : monotone noRounding.
Proof. intros x y H. exact H. Qed.

Lemma fillStars_S (random : nat → R) (fround : R → R) (n : nat) (a : starArrays) :
  fillStars random fround (S n) a = fillStar random fround (fillStars random fround n a) n.
Proof. unfold fillStars. rewrite seq_S, foldl_app. reflexivity. Qed.

Lemma fillStars_shape (random : nat → R) (fround : R → R) (n : nat) (a0 : starArrays) :
  sa_calls (fillStars random fround n a0) = (sa_calls a0 + 6 * n)%nat ∧
  length (sa_positions (fillStars random fround n a0)) = length (sa_positions a0) ∧
  length (sa_colors (fillStars random fround n a0)) = length (sa_colors a0) ∧
  length (sa_sizes (fillStars random fround n a0)) = length (sa_sizes a0).
Proof.
  induction n as [|n (IHc & IHp & IHk & IHs)].
  - cbn. repeat split; lia.
  - rewrite fillStars_S. cbn [fillStar sa_calls sa_positions sa_colors sa_sizes].
    rewrite !length_insert. repeat split; [lia | assumption..].
Qed.

Lemma fillStars_lookup (random : nat → R) (fround : R → R) (n : nat) (a0 : starArrays) :
  ∀ j, (j < n)%nat →
    let a := fillStars random fround n a0 in
    let k := (sa_calls a0 + 6 * j)%nat in
    ((j * 3 + 2 < length (sa_positions a0))%nat →
     sa_positions a !! (j * 3)%nat = Some (fround (starVertex random k).1.1) ∧
     sa_positions a !! (j * 3 + 1)%nat = Some (fround (starVertex random k).1.2) ∧
     sa_positions a !! (j * 3 + 2)%nat = Some (fround (starVertex random k).2)) ∧
    ((j * 3 + 2 < length (sa_colors a0))%nat →
     sa_colors a !! (j * 3)%nat = Some (fround (starColor random k).1.1) ∧
     sa_colors a !! (j * 3 + 1)%nat = Some (fround (starColor random k).1.2) ∧
     sa_colors a !! (j * 3 + 2)%nat = Some (fround (starColor random k).2)) ∧
    ((j < length (sa_sizes a0))%nat →
     sa_sizes a !! j = Some (fround (starSize random k))).
Proof.
  induction n as [|n IH]; intros j Hj; [lia|].
  cbn zeta. rewrite fillStars_S.
  destruct (fillStars_shape random fround n a0) as (Hc & Hp & Hk & Hs).
  cbn [fillStar sa_calls sa_positions sa_colors sa_sizes].
  destruct (decide (j = n)) as [->|Hne].
  - rewrite Hc. split; [|split]; intros Hlen.
    + split; [|split]; stored.
    + split; [|split]; stored.
    + stored.
  - assert (Hj' : (j < n)%nat) by lia.
    destruct (IH j Hj') as (IHp & IHk & IHs). cbn zeta in IHp, IHk, IHs.
    split; [|split]; intros Hlen.
    + destruct (IHp Hlen) as (H0 & H1 & H2). split; [|split]; stored; assumption.
    + destruct (IHk Hlen) as (H0 & H1 & H2). split; [|split]; stored; assumption.
    + stored. exact (IHs Hlen).
Qed.

Lemma pushTwinkle_spec (random : nat → R) (n : nat) (tw0 : list Z) (k : nat) :
  foldl (pushTwinkle random) (tw0, k) (seq 0 n) =
  (tw0 ++ map (fun i => Int_part (random (k + i)%nat * INR starCount)) (seq 0 n), (k + n)%nat).
Proof.
  induction n as [|n IH].
  - cbn. rewrite app_nil_r, Nat.add_0_r. reflexivity.
  - rewrite seq_S, foldl_app, IH, map_app. cbn [foldl pushTwinkle map Nat.add].
    rewrite app_assoc, Nat.add_succ_r. reflexivity.
Qed.

Lemma createStarfield_eq (random : nat → R) (fround : R → R) (k0 : nat) :
  let a := fillStars random fround starCount
             (newStarArrays k0) in
  createStarfield random fround k0 =
  {| star_positions := sa_positions a; star_colors := sa_colors a; starSizes := sa_sizes a;
     twinkleStars := map (fun i => Int_part (random (sa_calls a + i)%nat * INR starCount))
                       (seq 0 50);
     randomCalls := (sa_calls a + 50)%nat |}.
Proof.
  cbn zeta. unfold createStarfield, fillStars.
  rewrite pushTwinkle_spec. reflexivity.
Qed.

Lemma starVertex_on_sphere (random : nat → R) (k : nat) :
  unit_interval random →
  let '(x, y, z) := starVertex random k in
  x * x + y * y + z * z = starRadius random k * starRadius random k ∧
  200 <= starRadius random k < 1000 ∧
  z = starRadius random k * (random (k + 2)%nat * 2 - 1).
Proof.
  intros Hrand. unfold starVertex. cbn zeta.
  set (r := starRadius random k).
  set (phi := acos (random (k + 2)%nat * 2 - 1)).
  set (theta := random (k + 1)%nat * PI * 2).
  split; [|split].
  - pose proof (sin2_cos2 phi) as Hp. pose proof (sin2_cos2 theta) as Ht.
    unfold Rsqr in Hp, Ht.
    replace (r * sin phi * cos theta * (r * sin phi * cos theta) +
             r * sin phi * sin theta * (r * sin phi * sin theta) +
             r * cos phi * (r * cos phi))
      with (r * r * (sin phi * sin phi * (sin theta * sin theta + cos theta * cos theta)
                     + cos phi * cos phi)) by ring.
    rewrite Ht, Rmult_1_r, Hp. ring.
  - subst r. unfold starRadius. pose proof (Hrand k). lra.
  - subst phi. rewrite cos_acos; [reflexivity|]. pose proof (Hrand (k + 2)%nat). lra.
Qed.

Lemma starColor_bounds (random : nat → R) (k : nat) :
  unit_interval random →
  let '(cr, cg, cb) := starColor random k in
  0.48 <= cg ∧ cg <= cr ∧ cr <= cb ∧ cb <= 1.
Proof.
  intros Hrand. unfold starColor. cbn zeta.
  pose proof (Hrand (k + 3)%nat). pose proof (Hrand (k + 4)%nat).
  repeat split; lra.
Qed.

Lemma starSizes_initial (random : nat → R) (fround : R → R) (k0 : nat) :
  unit_interval random → monotone fround →
  Forall (between (fround 0.4) (fround 1.6)) (starSizes (createStarfield random fround k0)).
Proof.
  intros Hrand Hmono. rewrite createStarfield_eq. cbn [starSizes].
  apply Forall_lookup. intros j v Hv.
  pose proof (lookup_lt_Some _ _ _ Hv) as Hj.
  destruct (fillStars_shape random fround starCount
              (newStarArrays k0)) as (_ & _ & _ & Hs).
  cbn [sa_sizes newStarArrays] in Hs. rewrite Hs, length_replicate in Hj.
  destruct (fillStars_lookup random fround starCount (newStarArrays k0) j Hj) as (_ & _ & Hsize).
  cbn zeta in Hsize. cbn [sa_sizes sa_calls newStarArrays] in Hsize.
  rewrite Hsize in Hv by (rewrite length_replicate; exact Hj).
  assert (Hbound : ∀ k, between (fround 0.4) (fround 1.6) (fround (starSize random k))).
  { intros k. unfold starSize. pose proof (Hrand (k + 5)%nat). split; apply Hmono; lra. }
  injection Hv as <-. apply Hbound.
Qed.

Lemma twinkleStars_in_range (random : nat → R) (k : nat) :
  unit_interval random →
  (0 <= Int_part (random k * INR starCount) < Z.of_nat starCount)%Z.
Proof.
  intros Hrand. pose proof (Hrand k) as Hk.
  destruct (base_Int_part (random k * INR starCount)) as [Hlo Hhi].
  rewrite INR_starCount in *.
  replace (Z.of_nat starCount) with 5000%Z by (unfold starCount; lia).
  split.
  - assert (H : (-1 < Int_part (random k * 5000))%Z) by (apply lt_IZR; lra). lia.
  - apply lt_IZR. lra.
Qed.

(** X19. When [k0] calls of [Math.random] came before, star [i] uses the
    calls [k0 + 6 i] to [k0 + 6 i + 5]. It is stored as the single-precision
    rounding of a point that lies on the sphere of radius [r] around the
    origin, where [r = 200 + 800 a] for the first random number [a] of its
    iteration, so [200 <= r < 1000], and whose height [z] is [r (2 u - 1)]
    for the third random number [u] of its iteration. *)
Theorem X19_stars_lie_between_200_and_1000
    (random : nat → R) (fround : R → R) (k0 i : nat) :
  unit_interval random → (i < starCount)%nat →
  let r := 200 + random (k0 + 6 * i)%nat * 800 in
  let u := random (k0 + 6 * i + 2)%nat in
  ∃ x y z,
    star_positions (createStarfield random fround k0) !! (i * 3)%nat = Some (fround x) ∧
    star_positions (createStarfield random fround k0) !! (i * 3 + 1)%nat = Some (fround y) ∧
    star_positions (createStarfield random fround k0) !! (i * 3 + 2)%nat = Some (fround z) ∧
    x * x + y * y + z * z = r * r ∧ 200 <= r < 1000 ∧ z = r * (u * 2 - 1).
Proof.
  intros Hrand Hi r u. rewrite createStarfield_eq. cbn [star_positions].
  destruct (fillStars_lookup random fround starCount
              (newStarArrays k0) i Hi) as (Hpos & _ & _).
  cbn zeta in Hpos. cbn [sa_positions sa_calls newStarArrays] in Hpos.
  destruct Hpos as (H0 & H1 & H2); [rewrite length_replicate; lia|].
  pose proof (starVertex_on_sphere random (k0 + 6 * i) Hrand) as Hsphere.
  destruct (starVertex random (k0 + 6 * i)) as [[x y] z].
  destruct Hsphere as (Hnorm & Hr & Hz).
  exists x, y, z.
  split; [exact H0|]. split; [exact H1|]. split; [exact H2|].
  split; [exact Hnorm|]. split; [exact Hr | exact Hz].
Qed.

Lemma X19_witness_first_star :
  ∃ x y z,
    star_positions (createStarfield halves noRounding 0) !! (0 * 3)%nat = Some (noRounding x) ∧
    star_positions (createStarfield halves noRounding 0) !! (0 * 3 + 1)%nat
      = Some (noRounding y) ∧
    star_positions (createStarfield halves noRounding 0) !! (0 * 3 + 2)%nat
      = Some (noRounding z) ∧
    x * x + y * y + z * z = 600 * 600 ∧ 200 <= 600 < 1000 ∧ z = 600 * (1 / 2 * 2 - 1).
Proof.
  destruct (X19_stars_lie_between_200_and_1000 halves noRounding 0 0 unit_interval_halves)
    as (x & y & z & H0 & H1 & H2 & Hnorm & Hr & Hz).
  { unfold starCount. lia. }
  cbv zeta in Hnorm, Hr, Hz. unfold halves in Hnorm, Hr, Hz.
  replace (200 + 1 / 2 * 800) with 600 in Hnorm, Hr, Hz by lra.
  exists x, y, z.
  split; [exact H0|]. split; [exact H1|]. split; [exact H2|].
  split; [exact Hnorm|]. split; [exact Hr | exact Hz].
Defined.

(** X20. The three colour channels of every star are ordered
    green <= red <= blue, and all lie between the roundings of 0.48 and 1:
    no channel of a star colour leaves the unit range. *)
Theorem X20_star_colours_ordered_and_in_range
    (random : nat → R) (fround : R → R) (k0 i : nat) :
  unit_interval random → monotone fround → (i < starCount)%nat →
  ∃ cr cg cb,
    star_colors (createStarfield random fround k0) !! (i * 3)%nat = Some cr ∧
    star_colors (createStarfield random fround k0) !! (i * 3 + 1)%nat = Some cg ∧
    star_colors (createStarfield random fround k0) !! (i * 3 + 2)%nat = Some cb ∧
    fround 0.48 <= cg ∧ cg <= cr ∧ cr <= cb ∧ cb <= fround 1.
Proof.
  intros Hrand Hmono Hi. rewrite createStarfield_eq. cbn [star_colors].
  destruct (fillStars_lookup random fround starCount
              (newStarArrays k0) i Hi) as (_ & Hcol & _).
  cbn zeta in Hcol. cbn [sa_colors sa_calls newStarArrays] in Hcol.
  destruct Hcol as (H0 & H1 & H2); [rewrite length_replicate; lia|].
  pose proof (starColor_bounds random (k0 + 6 * i) Hrand) as Hb.
  destruct (starColor random (k0 + 6 * i)) as [[cr cg] cb].
  destruct Hb as (Hg & Hgr & Hrb & Hb1).
  exists (fround cr), (fround cg), (fround cb).
  split; [exact H0|]. split; [exact H1|]. split; [exact H2|].
  repeat split; apply Hmono; assumption.
Qed.

Lemma X20_witness_last_star :
  ∃ cr cg cb,
    star_colors (createStarfield halves noRounding 0) !! (4999 * 3)%nat = Some cr ∧
    star_colors (createStarfield halves noRounding 0) !! (4999 * 3 + 1)%nat = Some cg ∧
    star_colors (createStarfield halves noRounding 0) !! (4999 * 3 + 2)%nat = Some cb ∧
    noRounding 0.48 <= cg ∧ cg <= cr ∧ cr <= cb ∧ cb <= noRounding 1.
Proof.
  apply (X20_star_colours_ordered_and_in_range halves noRounding 0 4999
           unit_interval_halves monotone_noRounding).
  unfold starCount. lia.
Defined.

(** X21. [createStarfield] fills 3 * 5000 positions, 3 * 5000 colour
    channels and 5000 sizes, every size between the roundings of 0.4 and
    1.6; it picks 50 twinkling stars, each a valid index into the size
    array (so that no store of [animate] falls outside it), and calls
    [Math.random] 6 * 5000 + 50 times. *)
Theorem X21_starfield_shape (random : nat → R) (fround : R → R) (k0 : nat) :
  unit_interval random → monotone fround →
  length (star_positions (createStarfield random fround k0)) = (starCount * 3)%nat ∧
  length (star_colors (createStarfield random fround k0)) = (starCount * 3)%nat ∧
  length (starSizes (createStarfield random fround k0)) = starCount ∧
  Forall (between (fround 0.4) (fround 1.6)) (starSizes (createStarfield random fround k0)) ∧
  length (twinkleStars (createStarfield random fround k0)) = 50%nat ∧
  Forall (fun t => (0 <= t < Z.of_nat starCount)%Z)
    (twinkleStars (createStarfield random fround k0)) ∧
  randomCalls (createStarfield random fround k0) = (k0 + 6 * starCount + 50)%nat.
Proof.
  intros Hrand Hmono.
  split; [|split; [|split; [|split]]]; [| | |exact (starSizes_initial _ _ _ Hrand Hmono)|];
    rewrite createStarfield_eq;
    cbn [star_positions star_colors starSizes twinkleStars randomCalls];
    destruct (fillStars_shape random fround starCount
                (newStarArrays k0))
      as (Hc & Hp & Hk & Hs);
    cbn [sa_positions sa_colors sa_sizes sa_calls newStarArrays] in *.
  - rewrite Hp. apply length_replicate.
  - rewrite Hk. apply length_replicate.
  - rewrite Hs. apply length_replicate.
  - split; [|split].
    + rewrite length_map, length_seq. reflexivity.
    + apply Forall_forall. intros t Ht. apply list_elem_of_fmap in Ht as (j & -> & _).
      apply twinkleStars_in_range, Hrand.
    + rewrite Hc. reflexivity.
Qed.

Lemma X21_witness_halves :
  length (star_positions (createStarfield halves noRounding 0)) = (starCount * 3)%nat ∧
  length (star_colors (createStarfield halves noRounding 0)) = (starCount * 3)%nat ∧
  length (starSizes (createStarfield halves noRounding 0)) = starCount ∧
  Forall (between (noRounding 0.4) (noRounding 1.6))
    (starSizes (createStarfield halves noRounding 0)) ∧
  length (twinkleStars (createStarfield halves noRounding 0)) = 50%nat ∧
  Forall (fun t => (0 <= t < Z.of_nat starCount)%Z)
    (twinkleStars (createStarfield halves noRounding 0)) ∧
  randomCalls (createStarfield halves noRounding 0) = (0 + 6 * starCount + 50)%nat.
Proof.
  exact (X21_starfield_shape halves noRounding 0 unit_interval_halves monotone_noRounding).
Defined.

(** * The animation loop *)

Lemma length_storeAt (fround : R → R) (i : Z) (v : R) (arr : list R) :
  length (storeAt fround i v arr) = length arr.
Proof. unfold storeAt. destruct (0 <=? i)%Z; [apply length_insert | reflexivity]. Qed.

Lemma Forall_storeAt (fround : R → R) (P : R → Prop) (i : Z) (v : R) (arr : list R) :
  P (fround v) → Forall P arr → Forall P (storeAt fround i v arr).
Proof.
  intros Hv Harr. unfold storeAt. destruct (0 <=? i)%Z; [|exact Harr].
  apply Forall_insert; assumption.
Qed.

Lemma lookup_storeAt_ne (fround : R → R) (i : Z) (v : R) (arr : list R) (j : nat) :
  Z.of_nat j ≠ i → storeAt fround i v arr !! j = arr !! j.
Proof.
  intros Hne. unfold storeAt. destruct (0 <=? i)%Z eqn:E; [|reflexivity].
  apply Z.leb_le in E. apply list_lookup_insert_ne. lia.
Qed.

Lemma twinkle_in_range (u t : R) :
  0 <= u < 1 → 0.18 <= (0.3 + u * 1.2) * (sin t * 0.2 + 0.8) <= 1.5.
Proof.
  intros Hu. pose proof (SIN_bound t) as Hs.
  assert (H1 : 0.3 <= 0.3 + u * 1.2 <= 1.5) by lra.
  assert (H2 : 0.6 <= sin t * 0.2 + 0.8 <= 1) by lra.
  split; nra.
Qed.

Lemma twinkle_from_inv (random : nat → R) (fround : R → R) (time : R) (stars : list Z) :
  unit_interval random → monotone fround →
  ∀ index sizes k,
    Forall (between (fround 0.18) (fround 1.6)) sizes →
    let r := twinkle_from random fround time index stars sizes k in
    length r.1 = length sizes ∧
    Forall (between (fround 0.18) (fround 1.6)) r.1 ∧
    (∀ j, Z.of_nat j ∉ stars → r.1 !! j = sizes !! j) ∧
    r.2 = (k + length stars)%nat.
Proof.
  intros Hrand Hmono. induction stars as [|starIndex rest IH]; intros index sizes k Hsizes.
  - cbn. repeat split; [exact Hsizes | lia].
  - cbn [twinkle_from]. cbn zeta.
    set (v := (0.3 + random k * 1.2) * (sin ((time + INR index * 0.1) * 2) * 0.2 + 0.8)).
    assert (Hv : between (fround 0.18) (fround 1.6) (fround v)).
    { destruct (twinkle_in_range (random k) ((time + INR index * 0.1) * 2) (Hrand k))
        as [Hlo Hhi]. fold v in Hlo, Hhi. split; apply Hmono; lra. }
    destruct (IH (S index) (storeAt fround starIndex v sizes) (S k))
      as (Hlen & Hall & Hout & Hcalls).
    { apply Forall_storeAt; assumption. }
    cbn zeta in Hlen, Hall, Hout, Hcalls.
    split; [|split; [|split]].
    + rewrite Hlen. apply length_storeAt.
    + exact Hall.
    + intros j Hj. rewrite Hout by (intros Hin; apply Hj; right; exact Hin).
      apply lookup_storeAt_ne. intros Heq. apply Hj. rewrite Heq. left.
    + rewrite Hcalls. cbn [length]. lia.
Qed.

Lemma animate_inv (random : nat → R) (fround : R → R) (stars : list Z) (f : frame)
    (s : animation) :
  unit_interval random → monotone fround →
  Forall (between (fround 0.18) (fround 1.6)) (an_starSizes s) →
  length (an_starSizes (animate random fround stars f s)) = length (an_starSizes s) ∧
  Forall (between (fround 0.18) (fround 1.6)) (an_starSizes (animate random fround stars f s)) ∧
  (∀ j, Z.of_nat j ∉ stars →
        an_starSizes (animate random fround stars f s) !! j = an_starSizes s !! j) ∧
  earth_rotation_y (animate random fround stars f s) = earth_rotation_y s + 0.001 ∧
  an_randomCalls (animate random fround stars f s) = (an_randomCalls s + length stars)%nat.
Proof.
  intros Hrand Hmono Hs.
  destruct (twinkle_from_inv random fround (IZR (frame_now f) * 0.001) stars Hrand Hmono
              0%nat (an_starSizes s) (an_randomCalls s) Hs) as (Hlen & Hall & Hout & Hcalls).
  cbn zeta in Hlen, Hall, Hout, Hcalls. unfold animate.
  destruct (twinkle_from random fround (IZR (frame_now f) * 0.001) 0 stars
              (an_starSizes s) (an_randomCalls s)) as [sizes k].
  cbn [an_starSizes earth_rotation_y an_randomCalls fst snd] in *.
  split; [exact Hlen|]. split; [exact Hall|]. split; [exact Hout|].
  split; [reflexivity | exact Hcalls].
Qed.

Lemma animateAll_inv (random : nat → R) (fround : R → R) (stars : list Z) (frames : list frame) :
  unit_interval random → monotone fround →
  ∀ s, Forall (between (fround 0.18) (fround 1.6)) (an_starSizes s) →
    let s' := animateAll random fround stars frames s in
    length (an_starSizes s') = length (an_starSizes s) ∧
    Forall (between (fround 0.18) (fround 1.6)) (an_starSizes s') ∧
    (∀ j, Z.of_nat j ∉ stars → an_starSizes s' !! j = an_starSizes s !! j) ∧
    earth_rotation_y s' = earth_rotation_y s + INR (length frames) * 0.001 ∧
    an_randomCalls s' = (an_randomCalls s + length stars * length frames)%nat.
Proof.
  intros Hrand Hmono. induction frames as [|f frames IH]; intros s Hs.
  - cbn. repeat split; [exact Hs | lra | lia].
  - cbn zeta.
    change (animateAll random fround stars (f :: frames) s)
      with (animateAll random fround stars frames (animate random fround stars f s)).
    destruct (animate_inv random fround stars f s Hrand Hmono Hs)
      as (Hlen & Hall & Hout & Hrot & Hcalls).
    destruct (IH (animate random fround stars f s) Hall)
      as (IHlen & IHall & IHout & IHrot & IHcalls).
    cbn zeta in IHlen, IHall, IHout, IHrot, IHcalls.
    split; [|split; [|split; [|split]]].
    + rewrite IHlen. exact Hlen.
    + exact IHall.
    + intros j Hj. rewrite (IHout j Hj). exact (Hout j Hj).
    + rewrite IHrot, Hrot. change (length (f :: frames)) with (S (length frames)).
      rewrite S_INR. lra.
    + rewrite IHcalls, Hcalls. cbn [length]. lia.
Qed.

Lemma createStarfield_lengths (random : nat → R) (fround : R → R) (k0 : nat) :
  length (starSizes (createStarfield random fround k0)) = starCount ∧
  length (twinkleStars (createStarfield random fround k0)) = 50%nat.
Proof.
  rewrite createStarfield_eq. cbn [starSizes twinkleStars].
  destruct (fillStars_shape random fround starCount (newStarArrays k0)) as (_ & _ & _ & Hs).
  rewrite Hs. cbn [sa_sizes newStarArrays]. rewrite length_replicate, length_map, length_seq.
  split; reflexivity.
Qed.

Lemma animation_from (random : nat → R) (fround : R → R) (sf : starfield)
    (frames : list frame) :
  unit_interval random → monotone fround →
  Forall (between (fround 0.4) (fround 1.6)) (starSizes sf) →
  length (an_starSizes (animateAll random fround (twinkleStars sf) frames (startAnimation sf)))
    = length (starSizes sf) ∧
  Forall (between (fround 0.18) (fround 1.6))
    (an_starSizes (animateAll random fround (twinkleStars sf) frames (startAnimation sf))) ∧
  (∀ j, Z.of_nat j ∉ twinkleStars sf →
        an_starSizes (animateAll random fround (twinkleStars sf) frames (startAnimation sf)) !! j
          = starSizes sf !! j) ∧
  earth_rotation_y (animateAll random fround (twinkleStars sf) frames (startAnimation sf))
    = INR (length frames) * 0.001 ∧
  an_randomCalls (animateAll random fround (twinkleStars sf) frames (startAnimation sf))
    = (randomCalls sf + length (twinkleStars sf) * length frames)%nat.
Proof.
  intros Hrand Hmono Hsizes. destruct sf as [ps cs sizes stars calls].
  cbn [starSizes twinkleStars randomCalls] in *.
  assert (Hinit : Forall (between (fround 0.18) (fround 1.6))
                    (an_starSizes (startAnimation (Starfield ps cs sizes stars calls)))).
  { cbn [startAnimation an_starSizes starSizes].
    eapply Forall_impl; [exact Hsizes|].
    intros v [Hlo Hhi]. split; [|exact Hhi].
    apply Rle_trans with (fround 0.4); [apply Hmono; lra | exact Hlo]. }
  destruct (animateAll_inv random fround stars frames Hrand Hmono _ Hinit)
    as (Hlen & Hall & Hout & Hrot & Hcalls).
  cbn zeta in Hlen, Hall, Hout, Hrot, Hcalls.
  cbn [startAnimation an_starSizes earth_rotation_y an_randomCalls starSizes randomCalls]
    in Hlen, Hout, Hrot, Hcalls.
  split; [exact Hlen|]. split; [exact Hall|]. split; [exact Hout|].
  split; [rewrite Hrot; lra | exact Hcalls].
Qed.

(** X22. However many frames are animated and whatever the clock and the
    camera do, the size array keeps its 5000 entries, every entry stays
    between the roundings of 0.18 and 1.6, the size of a star that is not
    among the 50 twinkling ones never changes, the globe has turned by
    0.001 rad per frame, and each frame costs one [Math.random] call per
    twinkling star. *)
Theorem X22_animation_keeps_star_sizes_in_range
    (random : nat → R) (fround : R → R) (k0 : nat) (frames : list frame) :
  unit_interval random → monotone fround →
  let sf := createStarfield random fround k0 in
  let s := animateAll random fround (twinkleStars sf) frames (startAnimation sf) in
  length (an_starSizes s) = starCount ∧
  Forall (between (fround 0.18) (fround 1.6)) (an_starSizes s) ∧
  (∀ j, Z.of_nat j ∉ twinkleStars sf → an_starSizes s !! j = starSizes sf !! j) ∧
  earth_rotation_y s = INR (length frames) * 0.001 ∧
  an_randomCalls s = (randomCalls sf + 50 * length frames)%nat.
Proof.
  intros Hrand Hmono. cbv zeta.
  destruct (createStarfield_lengths random fround k0) as [Hsizes Htw].
  pose proof (starSizes_initial random fround k0 Hrand Hmono) as Hinit.
  revert Hsizes Htw Hinit. generalize (createStarfield random fround k0) as sf.
  intros sf Hsizes Htw Hinit.
  destruct (animation_from random fround sf frames Hrand Hmono Hinit)
    as (Hlen & Hall & Hout & Hrot & Hcalls).
  split; [rewrite Hlen; exact Hsizes|]. split; [exact Hall|]. split; [exact Hout|].
  split; [exact Hrot|]. rewrite Hcalls, Htw. reflexivity.
Qed.

Lemma X22_witness_two_frames :
  let sf := createStarfield halves noRounding 0 in
  let s := animateAll halves noRounding (twinkleStars sf) sampleFrames (startAnimation sf) in
  length (an_starSizes s) = starCount ∧
  Forall (between (noRounding 0.18) (noRounding 1.6)) (an_starSizes s) ∧
  (∀ j, Z.of_nat j ∉ twinkleStars sf → an_starSizes s !! j = starSizes sf !! j) ∧
  earth_rotation_y s = INR (length sampleFrames) * 0.001 ∧
  an_randomCalls s = (randomCalls sf + 50 * length sampleFrames)%nat.
Proof.
  exact (X22_animation_keeps_star_sizes_in_range halves noRounding 0 sampleFrames
           unit_interval_halves monotone_noRounding).
Defined.
